(** * SmartOptions: the command line processing engine of SmartOptions.hpp

    A shallow embedding of [inc/SmartOptions/SmartOptions.hpp]: the rule
    structures, the three registration calls and [ProcessCommandArgs], with
    the caller's destination variables kept in an explicit store, followed by
    the properties of the parse. *)

From Stdlib Require Import Ascii String.
From stdpp Require Import gmap strings list fin_maps.

Local Open Scope string_scope.
Local Open Scope list_scope.

(** ** Faults

    What the C++ code can do instead of returning: read a token past its
    terminator (or the argument vector past [argc]), or let
    [std::string::replace]/[erase] throw [std::out_of_range]. [OutOfFuel]
    belongs to the model only: the [for] loop is run on a bound of [argc]
    iterations, which it never exhausts ([for_loop_fuel]). *)

Inductive Fault : Type :=
  | ReadPastEnd
  | OutOfRange
  | OutOfFuel.

Definition M (A : Type) : Type := (Fault + A)%type.

Definition ret {A : Type} (a : A) : M A := inr a.

Definition fault {A : Type} (f : Fault) : M A := inl f.

Definition bind {A B : Type} (c : M A) (k : A -> M B) : M B :=
  match c with
  | inl f => inl f
  | inr a => k a
  end.

Notation "'do' x <- c ; k" := (bind c (fun x => k))
  (at level 10, x name, c at level 100, k at level 200).

(** ** C strings

    A [const char *] that points into a token is modelled by the characters
    from the pointer up to (excluding) the terminator. *)

Definition NULL_TERMINATE : ascii := "000"%char.

(** [*token]: the character under the pointer, the terminator at the end. *)
Definition cstr_deref (token : string) : ascii :=
  match token with
  | EmptyString => NULL_TERMINATE
  | String c _ => c
  end.

(** [token[k]]: defined up to and including the terminator. *)
Definition cstr_at (token : string) (k : nat) : M ascii :=
  match String.get k token with
  | Some c => ret c
  | None => if Nat.eqb k (String.length token) then ret NULL_TERMINATE
            else fault ReadPastEnd
  end.

(** [token++] / [++token], applied by the code only when [*token] is not the
    terminator. *)
Definition cstr_next (token : string) : string :=
  match token with
  | EmptyString => EmptyString
  | String _ rest => rest
  end.

(** A well-formed C string has no terminator among its characters. *)
Fixpoint is_cstring (s : string) : bool :=
  match s with
  | EmptyString => true
  | String c rest => negb (Ascii.eqb c NULL_TERMINATE) && is_cstring rest
  end.

(** ** std::string operations used by the diagnostics *)

(** [s.empty()] *)
Definition str_empty (s : string) : bool :=
  match s with
  | EmptyString => true
  | String _ _ => false
  end.

(** [s.rfind(c)] for a one-character pattern; [None] is [npos]. *)
Fixpoint rfind (c : ascii) (s : string) : option nat :=
  match s with
  | EmptyString => None
  | String a rest =>
      match rfind c rest with
      | Some i => Some (S i)
      | None => if Ascii.eqb a c then Some 0 else None
      end
  end.

(** [s.replace(pos, len, r)]: throws when [pos > s.size()], in particular
    for [npos]. *)
Definition str_replace (s : string) (pos : option nat) (len : nat)
    (r : string) : M string :=
  match pos with
  | None => fault OutOfRange
  | Some p =>
      if Nat.ltb (String.length s) p then fault OutOfRange
      else ret (substring 0 p s +:+ r
                  +:+ substring (p + len) (String.length s - (p + len)) s)
  end.

(** [s.erase(s.size() - n)]: the unsigned subtraction wraps below zero to a
    position past the end, where [erase] throws. *)
Definition str_erase_last (s : string) (n : nat) : M string :=
  if Nat.ltb (String.length s) n then fault OutOfRange
  else ret (substring 0 (String.length s - n) s).

(** ** Rules *)

Record SmartOptionsArg : Type := mkArg {
  prefixShort : ascii;
  prefixLong : option string;
  metaVariable : string;
  helpString : string
}.

Record SmartOptionsOptionArg : Type := mkOptionArg {
  opt_base : SmartOptionsArg;
  opt_destVariable : nat
}.

Record SmartOptionsFlagArg : Type := mkFlagArg {
  flag_base : SmartOptionsArg;
  flag_destVariable : nat
}.

Record SmartOptionsPositionalArg : Type := mkPositionalArg {
  pos_base : SmartOptionsArg;
  pos_destVariable : nat
}.

Inductive SMARTOPTIONS_STATUS : Type :=
  | SMARTOPTIONS_SUCCESS
  | SMARTOPTIONS_INVALID_ARGUMENT
  | SMARTOPTIONS_INVALID_NUMBEROF_ARGUMENTS
  | SMARTOPTIONS_SYSTEM_ERROR.

(** ** The caller's storage

    Destinations are addresses of variables owned by the caller: [bool]
    variables for flags, [const char *] variables for options and positional
    arguments ([None] is [NULL]). Two rules may hold the same address. *)

Record Memory : Type := mkMemory {
  bools : gmap nat bool;
  strs : gmap nat (option string)
}.

Definition store_bool (a : nat) (b : bool) (m : Memory) : Memory :=
  {| bools := <[a := b]> (bools m); strs := strs m |}.

Definition store_str (a : nat) (v : option string) (m : Memory) : Memory :=
  {| bools := bools m; strs := <[a := v]> (strs m) |}.

(** ** The SmartOptions object *)

Record SmartOptions : Type := mkSmartOptions {
  argC : nat;
  argV : list string;
  appName : string;
  usage : option string;
  description : option string;
  autoPrintHelp : bool;
  options : list SmartOptionsOptionArg;
  flags : list SmartOptionsFlagArg;
  posArgs : list SmartOptionsPositionalArg
}.

(** The constructor [SmartOptions(programName, autoPrintHelp)]. *)
Definition SmartOptions_new (programName : string) (auto : bool)
    : SmartOptions :=
  {| argC := 0; argV := []; appName := programName; usage := None;
     description := None; autoPrintHelp := auto;
     options := []; flags := []; posArgs := [] |}.

Definition AddDescription (this : SmartOptions) (d : string) : SmartOptions :=
  {| argC := argC this; argV := argV this; appName := appName this;
     usage := usage this; description := Some d;
     autoPrintHelp := autoPrintHelp this; options := options this;
     flags := flags this; posArgs := posArgs this |}.

Definition AddUsage (this : SmartOptions) (u : string) : SmartOptions :=
  {| argC := argC this; argV := argV this; appName := appName this;
     usage := Some u; description := description this;
     autoPrintHelp := autoPrintHelp this; options := options this;
     flags := flags this; posArgs := posArgs this |}.

(** The rule constructors: each returns the rule and the store after the
    constructor body has run. The flag constructor hands the base its own
    not yet initialised [metaVariable] (never read for a flag); the model
    keeps the empty string there. The positional constructor only records
    the address. *)

Definition SmartOptionsOptionArg_new (c : ascii) (long : option string)
    (meta help : string) (dest : nat) (m : Memory)
    : SmartOptionsOptionArg * Memory :=
  (mkOptionArg (mkArg c long meta help) dest, store_str dest None m).

Definition SmartOptionsFlagArg_new (c : ascii) (long : option string)
    (help : string) (dest : nat) (m : Memory)
    : SmartOptionsFlagArg * Memory :=
  (mkFlagArg (mkArg c long EmptyString help) dest, store_bool dest false m).

Definition SmartOptionsPositionalArg_new (meta help : string) (dest : nat)
    (m : Memory) : SmartOptionsPositionalArg * Memory :=
  (mkPositionalArg (mkArg NULL_TERMINATE None meta help) dest, m).

Definition AddOption (this : SmartOptions) (m : Memory) (c : ascii)
    (long : option string) (meta help : string) (dest : nat)
    : SmartOptions * Memory :=
  let '(opt, m') := SmartOptionsOptionArg_new c long meta help dest m in
  ({| argC := argC this; argV := argV this; appName := appName this;
      usage := usage this; description := description this;
      autoPrintHelp := autoPrintHelp this;
      options := options this ++ [opt];
      flags := flags this; posArgs := posArgs this |}, m').

Definition AddFlag (this : SmartOptions) (m : Memory) (c : ascii)
    (long : option string) (help : string) (dest : nat)
    : SmartOptions * Memory :=
  let '(flag, m') := SmartOptionsFlagArg_new c long help dest m in
  ({| argC := argC this; argV := argV this; appName := appName this;
      usage := usage this; description := description this;
      autoPrintHelp := autoPrintHelp this; options := options this;
      flags := flags this ++ [flag]; posArgs := posArgs this |}, m').

Definition AddPositionalArgument (this : SmartOptions) (m : Memory)
    (meta help : string) (dest : nat) : SmartOptions * Memory :=
  let '(pos, m') := SmartOptionsPositionalArg_new meta help dest m in
  ({| argC := argC this; argV := argV this; appName := appName this;
      usage := usage this; description := description this;
      autoPrintHelp := autoPrintHelp this; options := options this;
      flags := flags this; posArgs := posArgs this ++ [pos] |}, m').

Definition useCommandArgs (this : SmartOptions) (argc : nat)
    (argv : list string) : SmartOptions :=
  {| argC := argc; argV := argv; appName := appName this;
     usage := usage this; description := description this;
     autoPrintHelp := autoPrintHelp this; options := options this;
     flags := flags this; posArgs := posArgs this |}.

(** [this->argV[i]] *)
Definition argV_at (this : SmartOptions) (i : nat) : M string :=
  match argV this !! i with
  | Some t => ret t
  | None => fault ReadPastEnd
  end.

(** ** ProcessCommandArgs *)

(** What the parse writes to standard output: the lines sent to [std::cout]
    and the point where [PrintHelp] renders the help text (the rendering
    itself is modelled further down). *)
Inductive Output : Type :=
  | Line (s : string)
  | Help.

(** The local variables of [ProcessCommandArgs], together with the caller's
    storage and the output written so far. *)
Record Locals : Type := mkLocals {
  index : nat;
  posArgsCount : nat;
  posArgsIt : nat;
  strPosArgErrMsg : string;
  strErrMessage : string;
  mem : Memory;
  out : list Output
}.

Definition set_index (i : nat) (st : Locals) : Locals :=
  mkLocals i (posArgsCount st) (posArgsIt st) (strPosArgErrMsg st)
    (strErrMessage st) (mem st) (out st).

Definition set_mem (m : Memory) (st : Locals) : Locals :=
  mkLocals (index st) (posArgsCount st) (posArgsIt st) (strPosArgErrMsg st)
    (strErrMessage st) m (out st).

Definition set_strErrMessage (s : string) (st : Locals) : Locals :=
  mkLocals (index st) (posArgsCount st) (posArgsIt st) (strPosArgErrMsg st)
    s (mem st) (out st).

Definition set_strPosArgErrMsg (s : string) (st : Locals) : Locals :=
  mkLocals (index st) (posArgsCount st) (posArgsIt st) s
    (strErrMessage st) (mem st) (out st).

Definition set_posArgsIt (i : nat) (st : Locals) : Locals :=
  mkLocals (index st) (posArgsCount st) i (strPosArgErrMsg st)
    (strErrMessage st) (mem st) (out st).

Definition set_posArgsCount (n : nat) (st : Locals) : Locals :=
  mkLocals (index st) n (posArgsIt st) (strPosArgErrMsg st)
    (strErrMessage st) (mem st) (out st).

Definition set_out (o : list Output) (st : Locals) : Locals :=
  mkLocals (index st) (posArgsCount st) (posArgsIt st) (strPosArgErrMsg st)
    (strErrMessage st) (mem st) o.

Definition init_locals (m : Memory) : Locals :=
  mkLocals 1 0 0 EmptyString EmptyString m [].

(** [AutoPrintHelp()] *)
Definition AutoPrintHelp (this : SmartOptions) (o : list Output)
    : list Output :=
  if autoPrintHelp this then o ++ [Help] else o.

(** Lines 340-351, the loop over the flags: [token] is the text after the
    marker. Returns [isTokenProcessed] and the store. *)
Fixpoint flags_loop (fs : list SmartOptionsFlagArg) (token : string)
    (m : Memory) : bool * Memory :=
  match fs with
  | [] => (false, m)
  | f :: rest =>
      if Ascii.eqb (prefixShort (flag_base f)) (cstr_deref token)
      then (true, store_bool (flag_destVariable f) true m)
      else flags_loop rest token m
  end.

(** Lines 356-380, the loop over the options, entered with
    [isTokenProcessed] false. Returns [isTokenProcessed] and the locals,
    where [index], the store and [strErrMessage] may have changed. *)
Fixpoint options_loop (this : SmartOptions) (argc : nat)
    (os : list SmartOptionsOptionArg) (token : string) (st : Locals)
    : M (bool * Locals) :=
  match os with
  | [] => ret (false, st)
  | optionArg :: rest =>
      if Ascii.eqb (prefixShort (opt_base optionArg)) (cstr_deref token)
      then
        do c1 <- cstr_at token 1;
        if negb (Ascii.eqb NULL_TERMINATE c1) then
          ret (true,
               set_mem (store_str (opt_destVariable optionArg)
                          (Some (cstr_next token)) (mem st)) st)
        else if (argc - 1 <=? index st)%nat then
          options_loop this argc rest token
            (set_strErrMessage
               (": Error, missing value for '-"
                  +:+ String (prefixShort (opt_base optionArg)) "' option.")
               st)
        else
          do optionStr <- argV_at this (index st + 1);
          ret (true,
               set_mem (store_str (opt_destVariable optionArg)
                          (Some optionStr) (mem st))
                 (set_index (index st + 1) st))
      else options_loop this argc rest token st
  end.

(** The outcome of one iteration of the [for] loop: go on with the next
    index, or leave [ProcessCommandArgs] with a status. *)
Inductive Step : Type :=
  | Continue (st : Locals)
  | Return (s : SMARTOPTIONS_STATUS) (st : Locals).

(** Lines 396-412, the positional branch of the loop body. *)
Definition positional (this : SmartOptions) (token : string) (st : Locals)
    : M Locals :=
  do st1 <-
    (if (posArgsIt st <? length (posArgs this))%nat then
       match posArgs this !! posArgsIt st with
       | Some posArg =>
           ret (set_posArgsIt (posArgsIt st + 1)
                  (set_mem (store_str (pos_destVariable posArg) (Some token)
                              (mem st)) st))
       | None => fault ReadPastEnd
       end
     else if str_empty (strPosArgErrMsg st) then
       ret (set_strPosArgErrMsg
              (appName this
                 +:+ ": Error, invalid number of mandatory arguments ("
                 +:+ token) st)
     else
       ret (set_strPosArgErrMsg (strPosArgErrMsg st +:+ ", " +:+ token) st));
  ret (set_posArgsCount (posArgsCount st1 + 1) st1).

(** Lines 385-391: what is printed for a token that was not processed. *)
Definition report_invalid (this : SmartOptions) (token : string)
    (st : Locals) : Locals :=
  let o :=
    if autoPrintHelp this then
      if negb (str_empty (strErrMessage st))
      then out st ++ [Line (appName this +:+ strErrMessage st)]
      else out st
             ++ [Line (appName this +:+ ": Error, invalid argument '-"
                         +:+ String (cstr_deref token) "'.")]
    else out st in
  set_out (AutoPrintHelp this o) st.

(** The flag/option branch of the loop body; [token] is the text after the
    marker. *)
Definition flag_or_option (this : SmartOptions) (argc : nat)
    (token : string) (st : Locals) : M Step :=
  let '(isTokenProcessed, m1) := flags_loop (flags this) token (mem st) in
  do r <- (if isTokenProcessed then ret (true, set_mem m1 st)
           else options_loop this argc (options this) token (set_mem m1 st));
  let '(isTokenProcessed, st2) := r in
  if isTokenProcessed then ret (Continue st2)
  else ret (Return SMARTOPTIONS_INVALID_ARGUMENT
              (report_invalid this token st2)).

(** The body of the [for] loop at [index st], followed by [index++]. *)
Definition loop_body (this : SmartOptions) (argc : nat) (st : Locals)
    : M Step :=
  do token <- argV_at this (index st);
  if Ascii.eqb "-" (cstr_deref token) then
    do s <- flag_or_option this argc (cstr_next token) st;
    match s with
    | Continue st' => ret (Continue (set_index (index st' + 1) st'))
    | Return r st' => ret (Return r st')
    end
  else
    do st' <- positional this token st;
    ret (Continue (set_index (index st' + 1) st')).

(** [for (index = 1; index < argc; index++)]: [Continue] is the normal exit
    of the loop. [fuel] bounds the number of iterations; [argc] of them
    always suffice. *)
Fixpoint for_loop (fuel : nat) (this : SmartOptions) (argc : nat)
    (st : Locals) : M Step :=
  if (index st <? argc)%nat then
    match fuel with
    | 0 => fault OutOfFuel
    | S fuel' =>
        do s <- loop_body this argc st;
        match s with
        | Continue st' => for_loop fuel' this argc st'
        | Return r st' => ret (Return r st')
        end
    end
  else ret (Continue st).

(** Lines 417-421: closing the message about surplus positional tokens. *)
Definition close_surplus_message (msg : string) : M string :=
  if negb (str_empty msg) then
    let msg := msg +:+ ")" in
    str_replace msg (rfind "," msg) 1 " &"
  else ret msg.

(** The loop of lines 437-440 over the positional rules. *)
Fixpoint append_metas (ps : list SmartOptionsPositionalArg) (msg : string)
    : string :=
  match ps with
  | [] => msg
  | posArg :: rest =>
      append_metas rest
        (msg +:+ "'" +:+ metaVariable (pos_base posArg) +:+ "', ")
  end.

Record Result : Type := mkResult {
  status : SMARTOPTIONS_STATUS;
  memory : Memory;
  output : list Output
}.

(** Lines 424-453: the check of the number of positional tokens. *)
Definition validate (this : SmartOptions) (st : Locals) (msg : string)
    : M Result :=
  if negb (posArgsCount st =? length (posArgs this))%nat then
    let msg :=
      if str_empty msg
      then appName this +:+ ": Error, invalid number of mandatory arguments"
      else msg in
    do o <-
      (if autoPrintHelp this then
         do msg' <-
           (if (length (posArgs this) =? 1)%nat then
              match posArgs this with
              | posArg :: _ =>
                  ret (msg +:+ ". The only mandatory parameter is '"
                         +:+ metaVariable (pos_base posArg) +:+ "'")
              | [] => fault ReadPastEnd
              end
            else
              let msg := msg +:+ ". The mandatory parameters are " in
              let msg := append_metas (posArgs this) msg in
              do msg <- str_erase_last msg 2;
              do msg <- str_replace msg (rfind "," msg) 1 " &";
              ret (msg +:+ "."));
         ret (out st ++ [Line msg'])
       else ret (out st));
    ret (mkResult SMARTOPTIONS_INVALID_NUMBEROF_ARGUMENTS (mem st)
           (AutoPrintHelp this o))
  else ret (mkResult SMARTOPTIONS_SUCCESS (mem st) (out st)).

Definition ProcessCommandArgs (this : SmartOptions) (m : Memory)
    (argc : nat) (argv : list string) : M Result :=
  let this := useCommandArgs this argc argv in
  do s <- for_loop argc this argc (init_locals m);
  match s with
  | Return r st => ret (mkResult r (mem st) (out st))
  | Continue st =>
      do msg <- close_surplus_message (strPosArgErrMsg st);
      validate this st msg
  end.

(** ** Vocabulary of the properties *)

(** The first registered flag (option) with short identifier [c]. *)
Definition lookup_flag (c : ascii) (fs : list SmartOptionsFlagArg)
    : option SmartOptionsFlagArg :=
  List.find (fun f => Ascii.eqb (prefixShort (flag_base f)) c) fs.

Definition lookup_option (c : ascii) (os : list SmartOptionsOptionArg)
    : option SmartOptionsOptionArg :=
  List.find (fun o => Ascii.eqb (prefixShort (opt_base o)) c) os.

(** One iteration of the loop that does not leave the function. *)
Definition step (this : SmartOptions) (argc : nat) (st st' : Locals) : Prop :=
  (index st < argc)%nat /\ loop_body this argc st = inr (Continue st').

(** The locals at the head of the loop, after any number of iterations. *)
Definition reaches (this : SmartOptions) (argc : nat)
    : Locals -> Locals -> Prop :=
  rtc (step this argc).

(** The scan of [argv] arrives at the head of the loop with locals [st] and
    enters the body: the token at [index st] is the one it classifies. *)
Definition scanned (this : SmartOptions) (m : Memory) (argv : list string)
    (st : Locals) : Prop :=
  reaches (useCommandArgs this (length argv) argv) (length argv)
    (init_locals m) st
  /\ (index st < length argv)%nat.

(** The loop from [st] on, with exactly the iterations it can need. *)
Definition run (this : SmartOptions) (argc : nat) (st : Locals) : M Step :=
  for_loop (argc - index st) this argc st.

(** The loop of [ProcessCommandArgs] alone: [Continue] with the locals
    after the last token, or [Return] at the token that ended the parse. *)
Definition scan (this : SmartOptions) (m : Memory) (argc : nat)
    (argv : list string) : M Step :=
  for_loop argc (useCommandArgs this argc argv) argc (init_locals m).

(** The text of the message recorded for an option without its value. *)
Definition missing_value_message (c : ascii) : string :=
  ": Error, missing value for '-" +:+ String c "' option.".

(** The locals an iteration ends with, however it ends. *)
Definition locals_of (s : Step) : Locals :=
  match s with
  | Continue st => st
  | Return _ st => st
  end.

(** The token at [index st] begins with the marker and [body] follows it. *)
Definition marker_token (argv : list string) (st : Locals) (body : string)
    : Prop :=
  argv !! index st = Some (String "-" body).

(** [c] is the short identifier of no registered flag (option). *)
Definition no_flag (this : SmartOptions) (c : ascii) : Prop :=
  Forall (fun f => prefixShort (flag_base f) <> c) (flags this).

Definition no_option (this : SmartOptions) (c : ascii) : Prop :=
  Forall (fun o => prefixShort (opt_base o) <> c) (options this).

Definition some_option (this : SmartOptions) (c : ascii) : Prop :=
  Exists (fun o => prefixShort (opt_base o) = c) (options this).

(** The token after the marker is the identifier alone: the character after
    it is the terminator. *)
Definition no_attached_value (body : string) : Prop :=
  cstr_at body 1 = inr NULL_TERMINATE.

Definition last_token (argv : list string) (st : Locals) : Prop :=
  index st = (length argv - 1)%nat.

(** When the parse is said to return SMARTOPTIONS_INVALID_ARGUMENT: the scan
    reaches a marker token whose identifier is that of no flag and of no
    option, or a marker token whose identifier is that of an option, that
    has no attached value and is the last token. *)
Definition invalid_argument_stated (this : SmartOptions) (m : Memory)
    (argv : list string) : Prop :=
  exists st body,
    scanned this m argv st /\ marker_token argv st body
    /\ ((no_flag this (cstr_deref body) /\ no_option this (cstr_deref body))
        \/ (some_option this (cstr_deref body)
            /\ no_attached_value body /\ last_token argv st)).

(** The same, where the second case too asks that the identifier is that of
    no flag. *)
Definition invalid_argument_condition (this : SmartOptions) (m : Memory)
    (argv : list string) : Prop :=
  exists st body,
    scanned this m argv st /\ marker_token argv st body
    /\ no_flag this (cstr_deref body)
    /\ (no_option this (cstr_deref body)
        \/ (some_option this (cstr_deref body)
            /\ no_attached_value body /\ last_token argv st)).

Definition returns_status (this : SmartOptions) (m : Memory)
    (argv : list string) (s : SMARTOPTIONS_STATUS) : Prop :=
  exists r, ProcessCommandArgs this m (length argv) argv = inr r
            /\ status r = s.

(** ** Setting an object up

    The calls a program makes on a fresh object before it parses. *)
Inductive Setup : Type :=
  | CallAddDescription (d : string)
  | CallAddUsage (u : string)
  | CallAddOption (c : ascii) (long : option string) (meta help : string)
      (dest : nat)
  | CallAddFlag (c : ascii) (long : option string) (help : string)
      (dest : nat)
  | CallAddPositionalArgument (meta help : string) (dest : nat).

Definition call (sm : SmartOptions * Memory) (s : Setup)
    : SmartOptions * Memory :=
  match s with
  | CallAddDescription d => (AddDescription (fst sm) d, snd sm)
  | CallAddUsage u => (AddUsage (fst sm) u, snd sm)
  | CallAddOption c long meta help dest =>
      AddOption (fst sm) (snd sm) c long meta help dest
  | CallAddFlag c long help dest =>
      AddFlag (fst sm) (snd sm) c long help dest
  | CallAddPositionalArgument meta help dest =>
      AddPositionalArgument (fst sm) (snd sm) meta help dest
  end.

Definition setup (programName : string) (auto : bool) (m : Memory)
    (calls : list Setup) : SmartOptions * Memory :=
  fold_left call calls (SmartOptions_new programName auto, m).

(** All registered destinations are distinct: the [bool] variables of the
    flags among themselves, the string variables of the options and
    positional arguments among themselves. *)
Definition distinct_destinations (this : SmartOptions) : Prop :=
  NoDup (map flag_destVariable (flags this))
  /\ NoDup (map opt_destVariable (options this)
              ++ map pos_destVariable (posArgs this)).

(** No scanned token carries the identifier [c]. *)
Definition never_matched (this : SmartOptions) (m : Memory)
    (argv : list string) (c : ascii) : Prop :=
  forall st body,
    scanned this m argv st -> marker_token argv st body ->
    cstr_deref body <> c.

(** Every registered flag destination holds false and every registered
    option destination is unset. *)
Definition initialised (this : SmartOptions) (m : Memory) : Prop :=
  (forall f, In f (flags this) ->
     bools m !! flag_destVariable f = Some false)
  /\ (forall o, In o (options this) ->
        strs m !! opt_destVariable o = Some None).

(** The writes of one iteration that goes on. *)
Inductive iteration_writes (this : SmartOptions) (st st' : Locals)
    : string -> Prop :=
  | writes_flag (body : string) (f : SmartOptionsFlagArg) :
      lookup_flag (cstr_deref body) (flags this) = Some f ->
      mem st' = store_bool (flag_destVariable f) true (mem st) ->
      iteration_writes this st st' (String "-" body)
  | writes_option (body v : string) (o : SmartOptionsOptionArg) :
      lookup_option (cstr_deref body) (options this) = Some o ->
      mem st' = store_str (opt_destVariable o) (Some v) (mem st) ->
      iteration_writes this st st' (String "-" body)
  | writes_positional (token : string) (p : SmartOptionsPositionalArg) :
      In p (posArgs this) ->
      mem st' = store_str (pos_destVariable p) (Some token) (mem st) ->
      iteration_writes this st st' token
  | writes_nothing (token : string) :
      mem st' = mem st ->
      iteration_writes this st st' token.

(** The message about surplus positional tokens: as it stands after line
    421 when the loop has gone through [argv], as the loop left it when the
    function returned from inside the loop. *)
Definition surplus_message (this : SmartOptions) (m : Memory) (argc : nat)
    (argv : list string) : M string :=
  do s <- scan this m argc argv;
  match s with
  | Continue st => close_surplus_message (strPosArgErrMsg st)
  | Return _ st => ret (strPosArgErrMsg st)
  end.

(** ** Objects of the test suites and a few more

    The data of [tests/CommonData.h], [tests/OptionsArgTest.h] and
    [tests/PositionalArgTest.h]; destinations are numbered. *)

Definition no_memory : Memory := mkMemory ∅ ∅.

Definition POSITIONAL_ARGUMENT_1 : string := "PositionArgument-1".
Definition POSITIONAL_ARGUMENT_2 : string := "PositionArgument-2".
Definition OPTION_ARGUMENT_1 : string := "OptionArgument-O".
Definition OPTION_ARGUMENT_2 : string := "OptionArgument-P".

(** [testOption_*]: options [o] and [p], bound to variables 1 and 2. *)
Definition two_options : SmartOptions * Memory :=
  setup "SmartOptionsTest" false no_memory
    [CallAddOption "o" (Some "optionO") "optArg_1"
       "Help message for Option Argument 1" 1;
     CallAddOption "p" (Some "optionP") "optArg_2"
       "Help message for Option Argument 2" 2].

(** [testPositionalArgument_1_2_Fail]: one positional rule, bound to
    variable 1; [auto] is the auto-help switch (false in the test). *)
Definition one_positional (auto : bool) : SmartOptions * Memory :=
  setup "SmartOptionsTest" auto no_memory
    [CallAddPositionalArgument "posArg_1" "Positional Argument 1" 1].

(** A flag and an option that share the identifier [o], bound to the
    [bool] variable 1 and the string variable 2. *)
Definition flag_and_option_o : SmartOptions * Memory :=
  setup "App" false no_memory
    [CallAddFlag "o" None "a flag" 1;
     CallAddOption "o" None "VALUE" "an option" 2].

(** Two flags that share the identifier [c], bound to variables 1 and 2. *)
Definition two_flags_c : SmartOptions * Memory :=
  setup "App" false no_memory
    [CallAddFlag "c" None "first" 1; CallAddFlag "c" None "second" 2].

(** A flag [v], an option [o] and a positional rule. *)
Definition mixed_rules : SmartOptions * Memory :=
  setup "App" false no_memory
    [CallAddFlag "v" None "verbose" 1;
     CallAddOption "o" None "FILE" "output" 2;
     CallAddPositionalArgument "input" "input file" 3].

(** ** Vocabulary for positional tokens *)

(** [c] occurs in [s]. *)
Fixpoint has_char (c : ascii) (s : string) : bool :=
  match s with
  | EmptyString => false
  | String a rest => Ascii.eqb a c || has_char c rest
  end.

(** A token that does not begin with the marker. *)
Definition not_marker (token : string) : Prop := cstr_deref token <> "-"%char.

(** The store after the tokens were bound, in order, to the destinations of
    the positional rules; tokens beyond the rules bind nothing. *)
Fixpoint bind_positionals (ps : list SmartOptionsPositionalArg)
    (tokens : list string) (m : Memory) : Memory :=
  match ps, tokens with
  | p :: ps', t :: tokens' =>
      bind_positionals ps' tokens'
        (store_str (pos_destVariable p) (Some t) m)
  | _, _ => m
  end.

(** The head of the message about the number of arguments. *)
Definition arity_message (app : string) : string :=
  app +:+ ": Error, invalid number of mandatory arguments".

(** [strPosArgErrMsg] once the surplus tokens were appended to it, before
    it is closed: empty without surplus tokens. *)
Definition surplus_open (app : string) (surplus : list string) : string :=
  match surplus with
  | [] => EmptyString
  | t :: ts =>
      fold_left (fun msg t' => msg +:+ ", " +:+ t') ts
        (app +:+ ": Error, invalid number of mandatory arguments (" +:+ t)
  end.

(** The locals after a scan of positional tokens only. *)
Definition after_positionals (this : SmartOptions) (m : Memory)
    (tokens : list string) : Locals :=
  mkLocals (S (length tokens)) (length tokens)
    (Nat.min (length tokens) (length (posArgs this)))
    (surplus_open (appName this) (drop (length (posArgs this)) tokens))
    EmptyString (bind_positionals (posArgs this) tokens m) [].

(** ** Three statements as first written

    Each reads "a registered option" or "a registered flag" for any rule
    with the identifier, whatever else is registered with it. *)

(** The attached and the separated form both return
    SMARTOPTIONS_SUCCESS and bind the destination of the registered option
    [o], of identifier [c], to the non-empty value [v]. *)
Definition binds_alike_stated (this : SmartOptions) (m : Memory)
    (prog : string) (c : ascii) (v : string) (o : SmartOptionsOptionArg)
    : Prop :=
  In o (options this) -> prefixShort (opt_base o) = c ->
  posArgs this = [] -> v <> EmptyString -> is_cstring v = true ->
  (exists r,
     ProcessCommandArgs this m 2 [prog; String "-" (String c v)] = inr r
     /\ status r = SMARTOPTIONS_SUCCESS
     /\ strs (memory r) !! opt_destVariable o = Some (Some v))
  /\ (exists r,
        ProcessCommandArgs this m 3
          [prog; String "-" (String c EmptyString); v] = inr r
        /\ status r = SMARTOPTIONS_SUCCESS
        /\ strs (memory r) !! opt_destVariable o = Some (Some v)).

(** At a marker token with the identifier of a registered option, without
    attached value and not the last one, the next token becomes the value
    of an option with that identifier, the index moves past it and the
    scan never classifies it. *)
Definition separated_value_stated (this : SmartOptions) (m : Memory)
    (argv : list string) (st : Locals) (body : string) : Prop :=
  scanned this m argv st -> marker_token argv st body ->
  some_option this (cstr_deref body) -> no_attached_value body ->
  (index st + 1 < length argv)%nat ->
  exists o v st',
    In o (options this)
    /\ prefixShort (opt_base o) = cstr_deref body
    /\ argv !! (index st + 1)%nat = Some v
    /\ loop_body (useCommandArgs this (length argv) argv) (length argv) st
         = inr (Continue st')
    /\ mem st' = store_str (opt_destVariable o) (Some v) (mem st)
    /\ index st' = (index st + 2)%nat
    /\ forall st'', scanned this m argv st'' ->
         index st'' <> (index st + 1)%nat.

(** A token made of the marker, the identifier [c] of the registered flag
    [f] and a non-empty trailing text sets the destination of [f] to true,
    and the scan goes on with the next token. *)
Definition flag_set_stated (this : SmartOptions) (argc : nat) (st : Locals)
    (c : ascii) (trailing : string) (f : SmartOptionsFlagArg) : Prop :=
  In f (flags this) -> prefixShort (flag_base f) = c ->
  trailing <> EmptyString ->
  argV this !! index st = Some (String "-" (String c trailing)) ->
  exists st',
    loop_body this argc st = inr (Continue st')
    /\ bools (mem st') !! flag_destVariable f = Some true
    /\ index st' = (index st + 1)%nat.

(** A caller's store where the [bool] variable 1 is true and the string
    variable 1 holds a value. *)
Definition used_memory : Memory :=
  mkMemory {[ 1%nat := true ]} {[ 1%nat := Some "stale" ]}.

(** [testPositionalArgument_2] and [testPositionalArgument_2_1_Fail]: two
    positional rules, bound to variables 1 and 2. *)
Definition two_positionals : SmartOptions * Memory :=
  setup "SmartOptionsTest" false no_memory
    [CallAddPositionalArgument "posArg_1" "Positional Argument 1" 1;
     CallAddPositionalArgument "posArg_2" "Positional Argument 2" 2].

(** [testOption_1_SS_Fail]: the option [p] alone, bound to variable 2. *)
Definition option_p : SmartOptions * Memory :=
  setup "SmartOptionsTest" false no_memory
    [CallAddOption "p" (Some "optionP") "optArg_2"
       "Help message for Option Argument 2" 2].

(** What a test reads after the parse: the status and the string
    variables 1 and 2 ([None] when the parse did not return). *)
Definition observed (r : M Result)
    : option (SMARTOPTIONS_STATUS * option (option string)
              * option (option string)) :=
  match r with
  | inr res =>
      Some (status res, strs (memory res) !! 1%nat,
            strs (memory res) !! 2%nat)
  | inl _ => None
  end.

(** ** Further objects *)

(** The options of the test suites with auto-help on and a usage line. *)
Definition two_options_help : SmartOptions * Memory :=
  setup "SmartOptionsTest" true no_memory
    [CallAddUsage "[OPTION]...";
     CallAddOption "o" (Some "optionO") "optArg_1"
       "Help message for Option Argument 1" 1;
     CallAddOption "p" (Some "optionP") "optArg_2"
       "Help message for Option Argument 2" 2].

(** The destinations of the flags, and those of the options and of the
    positional rules. *)
Definition flag_destinations (this : SmartOptions) : list nat :=
  map flag_destVariable (flags this).

Definition string_destinations (this : SmartOptions) : list nat :=
  map opt_destVariable (options this)
    ++ map pos_destVariable (posArgs this).

(** An option registered without a short identifier (the character 0),
    next to the flag [v]. *)
Definition long_only_option : SmartOptions * Memory :=
  setup "App" false no_memory
    [CallAddFlag "v" None "verbose" 1;
     CallAddOption NULL_TERMINATE (Some "output") "FILE" "output file" 2].

(** A meta variable between quotes, as the message about the mandatory
    parameters shows it. *)
Definition quoted_meta (p : SmartOptionsPositionalArg) : string :=
  "'" +:+ metaVariable (pos_base p) +:+ "'".

(** Three positional rules, with auto-help on. *)
Definition three_positionals : SmartOptions * Memory :=
  setup "copy" true no_memory
    [CallAddUsage "<SOURCE> <TARGET> <MODE>";
     CallAddPositionalArgument "SOURCE" "where from" 1;
     CallAddPositionalArgument "TARGET" "where to" 2;
     CallAddPositionalArgument "MODE" "how" 3].

(** The rules that a sequence of set-up calls registers, kind by kind, in
    the order of the calls. *)
Definition registered_flags (calls : list Setup)
    : list SmartOptionsFlagArg :=
  flat_map
    (fun s =>
       match s with
       | CallAddFlag c long help dest =>
           [mkFlagArg (mkArg c long EmptyString help) dest]
       | _ => []
       end) calls.

Definition registered_options (calls : list Setup)
    : list SmartOptionsOptionArg :=
  flat_map
    (fun s =>
       match s with
       | CallAddOption c long meta help dest =>
           [mkOptionArg (mkArg c long meta help) dest]
       | _ => []
       end) calls.

Definition registered_positionals (calls : list Setup)
    : list SmartOptionsPositionalArg :=
  flat_map
    (fun s =>
       match s with
       | CallAddPositionalArgument meta help dest =>
           [mkPositionalArg (mkArg NULL_TERMINATE None meta help) dest]
       | _ => []
       end) calls.

(** ** PrintHelp

    [PrintHelp] writes with [printf]. Its text is modelled by the list of
    the lines written, each without the newline that ends it. Two of its
    calls have no defined behaviour for some arguments: [%s] given the null
    pointer, and [sprintf] given more characters than [leftContent]
    holds. *)

Inductive PrintFault : Type :=
  | NullString
  | BufferOverrun.

(** A [char] array read back as a C string: the characters before the
    first terminator. *)
Fixpoint c_str (buffer : string) : string :=
  match buffer with
  | EmptyString => EmptyString
  | String c rest =>
      if Ascii.eqb c NULL_TERMINATE then EmptyString
      else String c (c_str rest)
  end.

Fixpoint spaces (n : nat) : string :=
  match n with
  | O => EmptyString
  | S k => String " " (spaces k)
  end.

(** [%-32s]: left-justified in a field of at least [width] characters. *)
Definition pad_right (width : nat) (s : string) : string :=
  s +:+ spaces (width - String.length s).

(** [char leftContent[64]] *)
Definition leftContent_size : nat := 64.

(** [sprintf(leftContent, ...)]: the formatted characters and the
    terminator written after them have to fit the array; the result is
    what [%s] reads back from it. *)
Definition sprintf_leftContent (text : string) : PrintFault + string :=
  if (leftContent_size <=? String.length text)%nat then inl BufferOverrun
  else inr (c_str text).

(** The characters of ["  -%c <%s> "] for an option. *)
Definition option_leftContent (o : SmartOptionsOptionArg) : string :=
  "  -" +:+ String (prefixShort (opt_base o))
              (" <" +:+ metaVariable (opt_base o) +:+ "> ").

(** The characters of ["  -%c"] for a flag. *)
Definition flag_leftContent (f : SmartOptionsFlagArg) : string :=
  "  -" +:+ String (prefixShort (flag_base f)) EmptyString.

(** [printf("%-32s %s \n", leftContent, helpString)] *)
Definition help_line (leftContent help : string) : string :=
  pad_right 32 leftContent +:+ " " +:+ help +:+ " ".

Definition print_option (o : SmartOptionsOptionArg) : PrintFault + string :=
  match sprintf_leftContent (option_leftContent o) with
  | inl f => inl f
  | inr leftContent => inr (help_line leftContent (helpString (opt_base o)))
  end.

Definition print_flag (f : SmartOptionsFlagArg) : PrintFault + string :=
  match sprintf_leftContent (flag_leftContent f) with
  | inl e => inl e
  | inr leftContent => inr (help_line leftContent (helpString (flag_base f)))
  end.

(** One of the two loops of [PrintHelp]. *)
Fixpoint print_each {A : Type} (print : A -> PrintFault + string)
    (rules : list A) : PrintFault + list string :=
  match rules with
  | [] => inr []
  | rule :: rest =>
      match print rule with
      | inl f => inl f
      | inr line =>
          match print_each print rest with
          | inl f => inl f
          | inr lines => inr (line :: lines)
          end
      end
  end.

(** [PrintHelp()]: the usage line, the options, then the flags. Neither
    the description nor the positional arguments are printed. *)
Definition PrintHelp (this : SmartOptions) : PrintFault + list string :=
  match usage this with
  | None => inl NullString
  | Some u =>
      match print_each print_option (options this) with
      | inl f => inl f
      | inr optionLines =>
          match print_each print_flag (flags this) with
          | inl f => inl f
          | inr flagLines =>
              inr ((appName this +:+ " " +:+ u +:+ " ")
                     :: optionLines ++ flagLines)
          end
      end
  end.

(** The registration calls that [PrintHelp] reads from. *)
Definition printed_call (s : Setup) : bool :=
  match s with
  | CallAddDescription _ => false
  | CallAddPositionalArgument _ _ _ => false
  | _ => true
  end.

(** A program with a flag, two options and a positional argument, all
    described. *)
Definition described_rules : SmartOptions * Memory :=
  setup "App" true no_memory
    [CallAddDescription "An application";
     CallAddUsage "[OPTION]... FILE";
     CallAddFlag "v" (Some "verbose") "say more" 1;
     CallAddOption "o" (Some "output") "OUT" "where to write" 2;
     CallAddPositionalArgument "FILE" "what to read" 3;
     CallAddOption NULL_TERMINATE (Some "level") "LEVEL" "how much" 4].

(** What reaches standard output: the lines of the parse, with the text of
    [PrintHelp] where [AutoPrintHelp] calls it. *)
Fixpoint printed (this : SmartOptions) (o : list Output)
    : PrintFault + list string :=
  match o with
  | [] => inr []
  | Line s :: rest =>
      match printed this rest with
      | inl f => inl f
      | inr lines => inr (s :: lines)
      end
  | Help :: rest =>
      match PrintHelp this with
      | inl f => inl f
      | inr help =>
          match printed this rest with
          | inl f => inl f
          | inr lines => inr (help ++ lines)
          end
      end
  end.

(** [s] is no call of [AddUsage]. *)
Definition not_AddUsage (s : Setup) : bool :=
  match s with
  | CallAddUsage _ => false
  | _ => true
  end.

(** The program of [described_rules] without its usage string. *)
Definition no_usage : SmartOptions * Memory :=
  setup "App" true no_memory
    [CallAddDescription "An application";
     CallAddFlag "v" (Some "verbose") "say more" 1;
     CallAddOption "o" (Some "output") "OUT" "where to write" 2].

(** What [ProcessCommandArgs] reads of a program: its name, the automatic
    help switch, and of each rule the fields below. *)
Definition flag_view (f : SmartOptionsFlagArg) : ascii * nat :=
  (prefixShort (flag_base f), flag_destVariable f).

Definition option_view (o : SmartOptionsOptionArg) : ascii * nat :=
  (prefixShort (opt_base o), opt_destVariable o).

Definition positional_view (p : SmartOptionsPositionalArg) : string * nat :=
  (metaVariable (pos_base p), pos_destVariable p).

Definition parse_view (this : SmartOptions)
    : string * bool * list (ascii * nat) * list (ascii * nat)
      * list (string * nat) :=
  (appName this, autoPrintHelp this, map flag_view (flags this),
   map option_view (options this), map positional_view (posArgs this)).

(** The program of [described_rules], registered with other long
    prefixes, help strings and meta variable of the options, and with
    neither usage nor description. *)
Definition undescribed_rules : SmartOptions * Memory :=
  setup "App" true no_memory
    [CallAddFlag "v" None EmptyString 1;
     CallAddOption "o" None "FILE" EmptyString 2;
     CallAddPositionalArgument "FILE" EmptyString 3;
     CallAddOption NULL_TERMINATE (Some "depth") "N" "depth" 4].

(** Two options that share their identifier. *)
Definition two_options_o : SmartOptions * Memory :=
  setup "App" false no_memory
    [CallAddOption "o" None "FIRST" "the first option" 1;
     CallAddOption "o" None "SECOND" "the second option" 2].

(** [v] is text of the command line: a token after the program name, or
    what follows the marker and the identifier in one. *)
Definition token_text (argv : list string) (v : string) : Prop :=
  exists i token,
    (1 <= i)%nat /\ argv !! i = Some token
    /\ (v = token \/ exists c, token = String "-" (String c v)).

(** A program with the automatic help on and all that [PrintHelp] needs. *)
Definition helped_rules : SmartOptions * Memory :=
  setup "App" true no_memory
    [CallAddUsage "[OPTION]... FILE";
     CallAddFlag "v" (Some "verbose") "say more" 1;
     CallAddOption "o" (Some "output") "OUT" "where to write" 2;
     CallAddPositionalArgument "FILE" "what to read" 3].

(** The program of [described_rules], registered with other long prefixes
    and without description. *)
Definition relabelled_rules : SmartOptions * Memory :=
  setup "App" true no_memory
    [CallAddUsage "[OPTION]... FILE";
     CallAddFlag "v" None "say more" 1;
     CallAddOption "o" (Some "out") "OUT" "where to write" 2;
     CallAddPositionalArgument "FILE" EmptyString 3;
     CallAddOption NULL_TERMINATE None "LEVEL" "how much" 4].

(** * Properties *)

#[local] Arguments Ascii.eqb : simpl never.
#[local] Arguments Nat.leb : simpl never.
#[local] Arguments Nat.ltb : simpl never.
#[local] Arguments Nat.eqb : simpl never.
#[local] Arguments Nat.sub : simpl never.
#[local] Arguments String.append : simpl never.

(** ** The test suites

    The assertions of [tests/OptionsArgTest.h] and
    [tests/PositionalArgTest.h], evaluated on the model. *)

Example testOption_1_SS_Pass :
  observed (ProcessCommandArgs (fst two_options) (snd two_options) 2
              ["SmartOptions"; "-oOptionArgument-O"])
    = Some (SMARTOPTIONS_SUCCESS, Some (Some OPTION_ARGUMENT_1), Some None).
Proof. vm_compute. reflexivity. Qed.

Example testOption_1_SS_Fail :
  observed (ProcessCommandArgs (fst option_p) (snd option_p) 2
              ["SmartOptions"; "-oOptionArgument-O"])
    = Some (SMARTOPTIONS_INVALID_ARGUMENT, None, Some None).
Proof. vm_compute. reflexivity. Qed.

Example testOption_SS_SS_Pass :
  observed (ProcessCommandArgs (fst two_options) (snd two_options) 3
              ["SmartOptions"; "-oOptionArgument-O"; "-pOptionArgument-P"])
    = Some (SMARTOPTIONS_SUCCESS, Some (Some OPTION_ARGUMENT_1),
            Some (Some OPTION_ARGUMENT_2)).
Proof. vm_compute. reflexivity. Qed.

Example testOption_SM_SS_Pass :
  observed (ProcessCommandArgs (fst two_options) (snd two_options) 4
              ["SmartOptions"; "-o"; "OptionArgument-O";
               "-pOptionArgument-P"])
    = Some (SMARTOPTIONS_SUCCESS, Some (Some OPTION_ARGUMENT_1),
            Some (Some OPTION_ARGUMENT_2)).
Proof. vm_compute. reflexivity. Qed.

Example testOption_SS_SM_Pass :
  observed (ProcessCommandArgs (fst two_options) (snd two_options) 4
              ["SmartOptions"; "-oOptionArgument-O"; "-p";
               "OptionArgument-P"])
    = Some (SMARTOPTIONS_SUCCESS, Some (Some OPTION_ARGUMENT_1),
            Some (Some OPTION_ARGUMENT_2)).
Proof. vm_compute. reflexivity. Qed.

Example testOption_SM_SM_Pass :
  observed (ProcessCommandArgs (fst two_options) (snd two_options) 5
              ["SmartOptions"; "-o"; "OptionArgument-O"; "-p";
               "OptionArgument-P"])
    = Some (SMARTOPTIONS_SUCCESS, Some (Some OPTION_ARGUMENT_1),
            Some (Some OPTION_ARGUMENT_2)).
Proof. vm_compute. reflexivity. Qed.

Example testPositionalArgument_1 :
  observed (ProcessCommandArgs (fst (one_positional false))
              (snd (one_positional false)) 2
              ["SmartOptions"; POSITIONAL_ARGUMENT_1])
    = Some (SMARTOPTIONS_SUCCESS, Some (Some POSITIONAL_ARGUMENT_1), None).
Proof. vm_compute. reflexivity. Qed.

Example testPositionalArgument_2 :
  observed (ProcessCommandArgs (fst two_positionals) (snd two_positionals)
              3 ["SmartOptions"; POSITIONAL_ARGUMENT_1;
                 POSITIONAL_ARGUMENT_2])
    = Some (SMARTOPTIONS_SUCCESS, Some (Some POSITIONAL_ARGUMENT_1),
            Some (Some POSITIONAL_ARGUMENT_2)).
Proof. vm_compute. reflexivity. Qed.

Example testPositionalArgument_1_2_Fail :
  observed (ProcessCommandArgs (fst (one_positional false))
              (snd (one_positional false)) 3
              ["SmartOptions"; POSITIONAL_ARGUMENT_1;
               POSITIONAL_ARGUMENT_2])
    = Some (SMARTOPTIONS_INVALID_NUMBEROF_ARGUMENTS,
            Some (Some POSITIONAL_ARGUMENT_1), None).
Proof. vm_compute. reflexivity. Qed.

Example testPositionalArgument_2_1_Fail :
  observed (ProcessCommandArgs (fst two_positionals) (snd two_positionals)
              2 ["SmartOptions"; POSITIONAL_ARGUMENT_1])
    = Some (SMARTOPTIONS_INVALID_NUMBEROF_ARGUMENTS,
            Some (Some POSITIONAL_ARGUMENT_1), None).
Proof. vm_compute. reflexivity. Qed.

(** ** The fault monad *)

Lemma bind_inr {A B : Type} (c : M A) (k : A -> M B) (b : B) :
  bind c k = inr b <-> exists a, c = inr a /\ k a = inr b.
Proof.
  destruct c as [f|a]; simpl; split.
  - discriminate.
  - intros (a & Ha & _). discriminate.
  - intros H. exists a. auto.
  - intros (a' & Ha & H). congruence.
Qed.

Lemma bind_ret {A B : Type} (a : A) (k : A -> M B) : bind (ret a) k = k a.
Proof. reflexivity. Qed.

(** ** The two inner loops *)

Lemma flags_loop_lookup (fs : list SmartOptionsFlagArg) (token : string)
    (m : Memory) :
  flags_loop fs token m =
    match lookup_flag (cstr_deref token) fs with
    | Some f => (true, store_bool (flag_destVariable f) true m)
    | None => (false, m)
    end.
Proof.
  unfold lookup_flag.
  induction fs as [|f fs IH]; simpl; [reflexivity|].
  destruct (Ascii.eqb _ _); [reflexivity|exact IH].
Qed.

Lemma options_loop_missing (this : SmartOptions) (argc : nat)
    (token : string) (os : list SmartOptionsOptionArg) (st : Locals) :
  cstr_at token 1 = inr NULL_TERMINATE ->
  (argc - 1 <= index st)%nat ->
  options_loop this argc os token
      (set_strErrMessage (missing_value_message (cstr_deref token)) st)
    = inr (false,
           set_strErrMessage (missing_value_message (cstr_deref token)) st).
Proof.
  intros Hc Hlast. induction os as [|o os IH]; simpl; [reflexivity|].
  destruct (Ascii.eqb (prefixShort (opt_base o)) (cstr_deref token)) eqn:E;
    [|exact IH].
  apply Ascii.eqb_eq in E. rewrite Hc. simpl.
  destruct (argc - 1 <=? index st)%nat eqn:L.
  - rewrite E. exact IH.
  - apply Nat.leb_gt in L. lia.
Qed.

(** The loop over the options acts on the first option with the token's
    identifier only. *)
Lemma options_loop_lookup (this : SmartOptions) (argc : nat)
    (os : list SmartOptionsOptionArg) (token : string) (st : Locals) :
  options_loop this argc os token st =
    match lookup_option (cstr_deref token) os with
    | None => inr (false, st)
    | Some o =>
        do c1 <- cstr_at token 1;
        if negb (Ascii.eqb NULL_TERMINATE c1) then
          ret (true,
               set_mem (store_str (opt_destVariable o)
                          (Some (cstr_next token)) (mem st)) st)
        else if (argc - 1 <=? index st)%nat then
          ret (false,
               set_strErrMessage
                 (missing_value_message (cstr_deref token)) st)
        else
          do optionStr <- argV_at this (index st + 1);
          ret (true,
               set_mem (store_str (opt_destVariable o)
                          (Some optionStr) (mem st))
                 (set_index (index st + 1) st))
    end.
Proof.
  unfold lookup_option.
  induction os as [|o os IH]; simpl; [reflexivity|].
  destruct (Ascii.eqb (prefixShort (opt_base o)) (cstr_deref token)) eqn:E;
    [|exact IH].
  clear IH.
  destruct (cstr_at token 1) as [f|c1] eqn:Hc; simpl; [reflexivity|].
  destruct (negb (Ascii.eqb NULL_TERMINATE c1)) eqn:N; [reflexivity|].
  destruct (argc - 1 <=? index st)%nat eqn:L; [|reflexivity].
  apply Ascii.eqb_eq in E. rewrite E.
  apply negb_false_iff, Ascii.eqb_eq in N. subst c1.
  apply options_loop_missing; [exact Hc|]. apply Nat.leb_le. exact L.
Qed.

(** ** One iteration of the loop *)

Lemma set_mem_same (st : Locals) : set_mem (mem st) st = st.
Proof. destruct st; reflexivity. Qed.

(** The flag/option branch, decided by the first flag and the first option
    with the token's identifier. *)
Lemma flag_or_option_eq (this : SmartOptions) (argc : nat) (token : string)
    (st : Locals) :
  flag_or_option this argc token st =
    match lookup_flag (cstr_deref token) (flags this) with
    | Some f =>
        inr (Continue
               (set_mem (store_bool (flag_destVariable f) true (mem st)) st))
    | None =>
        match lookup_option (cstr_deref token) (options this) with
        | None =>
            inr (Return SMARTOPTIONS_INVALID_ARGUMENT
                   (report_invalid this token st))
        | Some o =>
            do c1 <- cstr_at token 1;
            if negb (Ascii.eqb NULL_TERMINATE c1) then
              inr (Continue
                     (set_mem (store_str (opt_destVariable o)
                                 (Some (cstr_next token)) (mem st)) st))
            else if (argc - 1 <=? index st)%nat then
              inr (Return SMARTOPTIONS_INVALID_ARGUMENT
                     (report_invalid this token
                        (set_strErrMessage
                           (missing_value_message (cstr_deref token)) st)))
            else
              do optionStr <- argV_at this (index st + 1);
              inr (Continue
                     (set_mem (store_str (opt_destVariable o)
                                 (Some optionStr) (mem st))
                        (set_index (index st + 1) st)))
        end
    end.
Proof.
  unfold flag_or_option. rewrite flags_loop_lookup.
  destruct (lookup_flag _ _) as [f|]; [reflexivity|].
  rewrite set_mem_same, options_loop_lookup.
  destruct (lookup_option _ _) as [o|]; [|reflexivity].
  destruct (cstr_at token 1) as [e|c1]; [reflexivity|]. simpl.
  destruct (negb _); [reflexivity|].
  destruct (_ <=? _)%nat; [reflexivity|].
  destruct (argV_at _ _); reflexivity.
Qed.

Lemma positional_index (this : SmartOptions) (token : string)
    (st st' : Locals) :
  positional this token st = inr st' -> index st' = index st.
Proof.
  unfold positional. intros H.
  destruct (_ <? _)%nat.
  - destruct (posArgs this !! posArgsIt st); simpl in H; [|discriminate].
    inversion H. reflexivity.
  - destruct (str_empty _); simpl in H; inversion H; reflexivity.
Qed.

Lemma flag_or_option_index (this : SmartOptions) (argc : nat)
    (token : string) (st st' : Locals) :
  flag_or_option this argc token st = inr (Continue st') ->
  (index st <= index st' <= index st + 1)%nat.
Proof.
  rewrite flag_or_option_eq. intros H.
  destruct (lookup_flag _ _); [inversion H; simpl; lia|].
  destruct (lookup_option _ _); [|discriminate].
  destruct (cstr_at token 1); simpl in H; [discriminate|].
  destruct (negb _); [inversion H; simpl; lia|].
  destruct (_ <=? _)%nat; [discriminate|].
  destruct (argV_at _ _); simpl in H; [discriminate|].
  inversion H. simpl. lia.
Qed.

(** Every iteration moves the index forward, by one or by two tokens. *)
Lemma loop_body_index (this : SmartOptions) (argc : nat) (st st' : Locals) :
  loop_body this argc st = inr (Continue st') ->
  (index st < index st' <= index st + 2)%nat.
Proof.
  unfold loop_body. intros H.
  destruct (argV_at this (index st)) as [e|token]; simpl in H;
    [discriminate|].
  destruct (Ascii.eqb _ _).
  - destruct (flag_or_option _ _ _ _) as [e|[st1|r st1]] eqn:F; simpl in H;
      try discriminate.
    apply flag_or_option_index in F. inversion H. simpl. lia.
  - destruct (positional _ _ _) as [e|st1] eqn:P; simpl in H;
      [discriminate|].
    apply positional_index in P. inversion H. simpl. lia.
Qed.

Lemma loop_body_no_fuel_fault (this : SmartOptions) (argc : nat)
    (st : Locals) :
  loop_body this argc st <> inl OutOfFuel.
Proof.
  unfold loop_body, positional, argV_at.
  destruct (argV this !! index st) as [token|]; simpl; [|discriminate].
  destruct (Ascii.eqb _ _).
  - rewrite flag_or_option_eq.
    destruct (lookup_flag _ _); [discriminate|].
    destruct (lookup_option _ _); [|discriminate].
    unfold cstr_at.
    destruct (String.get 1 _); simpl.
    + destruct (negb _); simpl; [discriminate|].
      destruct (argc - 1 <=? index st)%nat; simpl; [discriminate|].
      unfold argV_at; destruct (argV this !! (index st + 1)); discriminate.
    + destruct (Nat.eqb _ _); simpl; [|discriminate].
      destruct (argc - 1 <=? index st)%nat; simpl; [discriminate|].
      unfold argV_at; destruct (argV this !! (index st + 1)); discriminate.
  - destruct (_ <? _)%nat.
    + destruct (posArgs this !! _); discriminate.
    + destruct (str_empty _); discriminate.
Qed.

(** ** The loop *)

Lemma for_loop_fuel (this : SmartOptions) (argc : nat) (fuel1 fuel2 : nat)
    (st : Locals) :
  (argc - index st <= fuel1)%nat -> (argc - index st <= fuel2)%nat ->
  for_loop fuel1 this argc st = for_loop fuel2 this argc st.
Proof.
  revert fuel2 st.
  induction fuel1 as [|fuel1 IH]; intros [|fuel2] st H1 H2; simpl;
    destruct (index st <? argc)%nat eqn:L; try reflexivity;
    try (apply Nat.ltb_lt in L; lia).
  destruct (loop_body this argc st) as [e|[st'|r st']] eqn:B; simpl;
    try reflexivity.
  apply loop_body_index in B. apply IH; lia.
Qed.

(** The bound of [argc] iterations is never exhausted. *)
Lemma for_loop_no_fuel_fault (this : SmartOptions) (argc : nat) (fuel : nat)
    (st : Locals) :
  (argc - index st <= fuel)%nat ->
  for_loop fuel this argc st <> inl OutOfFuel.
Proof.
  revert st. induction fuel as [|fuel IH]; intros st H; simpl;
    destruct (index st <? argc)%nat eqn:L; try discriminate;
    try (apply Nat.ltb_lt in L; lia).
  destruct (loop_body this argc st) as [e|[st'|r st']] eqn:B; simpl.
  - intros E. inversion E. subst e. exact (loop_body_no_fuel_fault _ _ _ B).
  - apply loop_body_index in B. apply IH. lia.
  - discriminate.
Qed.

Lemma scan_run (this : SmartOptions) (m : Memory) (argc : nat)
    (argv : list string) :
  scan this m argc argv
    = run (useCommandArgs this argc argv) argc (init_locals m).
Proof. unfold scan, run. apply for_loop_fuel; simpl; lia. Qed.

Lemma run_exit (this : SmartOptions) (argc : nat) (st : Locals) :
  (argc <= index st)%nat -> run this argc st = inr (Continue st).
Proof.
  intros H. unfold run. replace (argc - index st)%nat with 0%nat by lia.
  simpl. destruct (index st <? argc)%nat eqn:L; [|reflexivity].
  apply Nat.ltb_lt in L. lia.
Qed.

Lemma run_body (this : SmartOptions) (argc : nat) (st : Locals) :
  (index st < argc)%nat ->
  run this argc st =
    (do s <- loop_body this argc st;
     match s with
     | Continue st' => run this argc st'
     | Return r st' => inr (Return r st')
     end).
Proof.
  intros H. unfold run.
  destruct (argc - index st)%nat as [|n] eqn:E; [lia|]. simpl.
  destruct (index st <? argc)%nat eqn:L;
    [|apply Nat.ltb_ge in L; lia].
  destruct (loop_body this argc st) as [e|[st'|r st']] eqn:B; simpl;
    try reflexivity.
  apply loop_body_index in B. apply for_loop_fuel; lia.
Qed.

Lemma run_step (this : SmartOptions) (argc : nat) (st st' : Locals) :
  step this argc st st' -> run this argc st = run this argc st'.
Proof. intros [H B]. rewrite run_body, B by exact H. reflexivity. Qed.

Lemma run_reaches (this : SmartOptions) (argc : nat) (st st' : Locals) :
  reaches this argc st st' -> run this argc st = run this argc st'.
Proof.
  induction 1 as [|st st1 st2 S _ IH]; [reflexivity|].
  rewrite (run_step _ _ _ _ S). exact IH.
Qed.

(** ** The states the scan goes through *)

Lemma step_index (this : SmartOptions) (argc : nat) (st st' : Locals) :
  step this argc st st' -> (index st < index st')%nat.
Proof. intros [_ B]. apply loop_body_index in B. lia. Qed.

Lemma reaches_index (this : SmartOptions) (argc : nat) (st st' : Locals) :
  reaches this argc st st' -> (index st <= index st')%nat.
Proof.
  induction 1 as [|st st1 st2 S _ IH]; [lia|].
  apply step_index in S. lia.
Qed.

Lemma step_deterministic (this : SmartOptions) (argc : nat)
    (st st1 st2 : Locals) :
  step this argc st st1 -> step this argc st st2 -> st1 = st2.
Proof. intros [_ B1] [_ B2]. congruence. Qed.

(** The states reached from one state form a chain. *)
Lemma reaches_linear (this : SmartOptions) (argc : nat) (st a b : Locals) :
  reaches this argc st a -> reaches this argc st b ->
  reaches this argc a b \/ reaches this argc b a.
Proof.
  intros Ha. revert b.
  induction Ha as [|st st1 a S Ha IH]; intros b Hb; [left; exact Hb|].
  destruct Hb as [|st st1' b S' Hb].
  - right. eapply rtc_l; eassumption.
  - rewrite (step_deterministic _ _ _ _ _ S' S) in Hb. apply IH, Hb.
Qed.

(** What the loop returns is found along the chain: the state at the normal
    exit, or the state whose iteration left the function. *)
Lemma run_continue (this : SmartOptions) (argc : nat) (st st' : Locals) :
  run this argc st = inr (Continue st') ->
  reaches this argc st st' /\ (argc <= index st')%nat.
Proof.
  remember (argc - index st)%nat as n eqn:En. revert st En.
  induction n as [n IH] using lt_wf_ind. intros st En H.
  destruct (Nat.lt_ge_cases (index st) argc) as [L|L].
  - rewrite run_body in H by exact L.
    destruct (loop_body this argc st) as [e|[st1|r st1]] eqn:B; simpl in H;
      try discriminate.
    pose proof (loop_body_index _ _ _ _ B) as I.
    destruct (IH (argc - index st1)%nat ltac:(lia) st1 eq_refl H) as [R E].
    split; [|exact E]. eapply rtc_l; [|exact R]. split; assumption.
  - rewrite run_exit in H by exact L. inversion H. subst st'.
    split; [apply rtc_refl|exact L].
Qed.

Lemma run_return (this : SmartOptions) (argc : nat) (st st' : Locals)
    (r : SMARTOPTIONS_STATUS) :
  run this argc st = inr (Return r st') ->
  exists st1, reaches this argc st st1 /\ (index st1 < argc)%nat
              /\ loop_body this argc st1 = inr (Return r st').
Proof.
  remember (argc - index st)%nat as n eqn:En. revert st En.
  induction n as [n IH] using lt_wf_ind. intros st En H.
  destruct (Nat.lt_ge_cases (index st) argc) as [L|L].
  - rewrite run_body in H by exact L.
    destruct (loop_body this argc st) as [e|[st1|r1 st1]] eqn:B; simpl in H;
      try discriminate.
    + pose proof (loop_body_index _ _ _ _ B) as I.
      destruct (IH (argc - index st1)%nat ltac:(lia) st1 eq_refl H)
        as (st2 & R & L2 & B2).
      exists st2. split; [|split; assumption].
      eapply rtc_l; [|exact R]. split; assumption.
    + inversion H. subst r1 st1. exists st.
      split; [apply rtc_refl|split; assumption].
  - rewrite run_exit in H by exact L. discriminate.
Qed.

Lemma ProcessCommandArgs_scan (this : SmartOptions) (m : Memory)
    (argc : nat) (argv : list string) :
  ProcessCommandArgs this m argc argv =
    (do s <- scan this m argc argv;
     match s with
     | Return r st => ret (mkResult r (mem st) (out st))
     | Continue st =>
         do msg <- close_surplus_message (strPosArgErrMsg st);
         validate (useCommandArgs this argc argv) st msg
     end).
Proof. reflexivity. Qed.

Lemma scanned_run (this : SmartOptions) (m : Memory) (argv : list string)
    (st : Locals) :
  scanned this m argv st ->
  scan this m (length argv) argv
    = run (useCommandArgs this (length argv) argv) (length argv) st.
Proof. intros [R _]. rewrite scan_run. apply run_reaches, R. Qed.

(** A token left unprocessed by the loop over the options wrote nothing. *)
Lemma options_loop_unprocessed (this : SmartOptions) (argc : nat)
    (os : list SmartOptionsOptionArg) (token : string) (st st2 : Locals) :
  options_loop this argc os token st = inr (false, st2) ->
  mem st2 = mem st /\ index st2 = index st /\ out st2 = out st.
Proof.
  rewrite options_loop_lookup. intros H.
  destruct (lookup_option _ _); [|inversion H; auto].
  destruct (cstr_at token 1); simpl in H; [discriminate|].
  destruct (negb _); [discriminate|].
  destruct (_ <=? _)%nat; [inversion H; auto|].
  destruct (argV_at _ _); simpl in H; discriminate.
Qed.

Lemma flags_loop_unprocessed (fs : list SmartOptionsFlagArg)
    (token : string) (m : Memory) :
  fst (flags_loop fs token m) = false -> flags_loop fs token m = (false, m).
Proof.
  rewrite flags_loop_lookup. destruct (lookup_flag _ _); [discriminate|].
  reflexivity.
Qed.

(** The iteration at a token that neither loop processed. *)
Lemma loop_body_unprocessed (this : SmartOptions) (argc : nat)
    (st st2 : Locals) (body : string) :
  argV this !! index st = Some (String "-" body) ->
  fst (flags_loop (flags this) body (mem st)) = false ->
  options_loop this argc (options this) body st = inr (false, st2) ->
  loop_body this argc st
    = inr (Return SMARTOPTIONS_INVALID_ARGUMENT
             (report_invalid this body st2)).
Proof.
  intros Ht Hf Ho. unfold loop_body, argV_at. rewrite Ht. simpl.
  unfold flag_or_option.
  rewrite (flags_loop_unprocessed _ _ _ Hf), set_mem_same, Ho.
  reflexivity.
Qed.

(** An iteration that leaves the function has no successor. *)
Lemma reaches_from_return (this : SmartOptions) (argc : nat)
    (st st' st1 : Locals) (r : SMARTOPTIONS_STATUS) :
  loop_body this argc st = inr (Return r st1) ->
  reaches this argc st st' -> st' = st.
Proof.
  intros B R. destruct R as [|st st2 st' [_ S] _]; [reflexivity|].
  congruence.
Qed.

(** C7. When a token that begins with the marker is processed neither by
    the loop over the flags nor by the loop over the options, the parse
    returns SMARTOPTIONS_INVALID_ARGUMENT at once: the store it returns is
    the store the scan had on arriving at that token, and no token at a
    later index is ever scanned. *)
Theorem unprocessed_token_ends_parse (this : SmartOptions) (m : Memory)
    (argv : list string) (st st2 : Locals) (body : string) :
  scanned this m argv st ->
  argv !! index st = Some (String "-" body) ->
  fst (flags_loop (flags this) body (mem st)) = false ->
  options_loop (useCommandArgs this (length argv) argv) (length argv)
      (options this) body st = inr (false, st2) ->
  (exists r, ProcessCommandArgs this m (length argv) argv = inr r
             /\ status r = SMARTOPTIONS_INVALID_ARGUMENT
             /\ memory r = mem st)
  /\ (forall st', scanned this m argv st' -> (index st' <= index st)%nat).
Proof.
  intros Hs Ht Hf Ho.
  pose proof (loop_body_unprocessed
                (useCommandArgs this (length argv) argv) (length argv)
                st st2 body Ht Hf Ho) as B.
  destruct (options_loop_unprocessed _ _ _ _ _ _ Ho) as (Hm & _ & _).
  split.
  - eexists. rewrite ProcessCommandArgs_scan, (scanned_run _ _ _ _ Hs).
    destruct Hs as [_ L]. rewrite run_body, B by exact L. simpl.
    split; [reflexivity|]. split; [reflexivity|]. exact Hm.
  - intros st' [R' _]. destruct Hs as [R _].
    destruct (reaches_linear _ _ _ _ _ R R') as [F|F].
    + rewrite (reaches_from_return _ _ _ _ _ _ B F). lia.
    + apply reaches_index in F. exact F.
Qed.

(** ** Priority among the rules *)

Lemma lookup_flag_app (c : ascii) (fs1 fs2 : list SmartOptionsFlagArg)
    (f : SmartOptionsFlagArg) :
  Forall (fun g => prefixShort (flag_base g) <> c) fs1 ->
  prefixShort (flag_base f) = c ->
  lookup_flag c (fs1 ++ f :: fs2) = Some f.
Proof.
  intros Hn Hf. unfold lookup_flag.
  induction Hn as [|g fs1 Hg _ IH]; simpl.
  - rewrite (proj2 (Ascii.eqb_eq _ _) Hf). reflexivity.
  - rewrite (proj2 (Ascii.eqb_neq _ _) Hg). exact IH.
Qed.

Lemma lookup_option_app (c : ascii) (os1 os2 : list SmartOptionsOptionArg)
    (o : SmartOptionsOptionArg) :
  Forall (fun g => prefixShort (opt_base g) <> c) os1 ->
  prefixShort (opt_base o) = c ->
  lookup_option c (os1 ++ o :: os2) = Some o.
Proof.
  intros Hn Ho. unfold lookup_option.
  induction Hn as [|g os1 Hg _ IH]; simpl.
  - rewrite (proj2 (Ascii.eqb_eq _ _) Ho). reflexivity.
  - rewrite (proj2 (Ascii.eqb_neq _ _) Hg). exact IH.
Qed.

Lemma lookup_flag_none (c : ascii) (fs : list SmartOptionsFlagArg) :
  lookup_flag c fs = None <->
  Forall (fun g => prefixShort (flag_base g) <> c) fs.
Proof.
  unfold lookup_flag. induction fs as [|g fs IH]; simpl.
  - split; [constructor|reflexivity].
  - destruct (Ascii.eqb _ _) eqn:E.
    + apply Ascii.eqb_eq in E. split; [discriminate|].
      intros H. inversion H. contradiction.
    + apply Ascii.eqb_neq in E. rewrite IH. split.
      * intros H. constructor; assumption.
      * intros H. inversion H. assumption.
Qed.

Lemma lookup_option_none (c : ascii) (os : list SmartOptionsOptionArg) :
  lookup_option c os = None <->
  Forall (fun g => prefixShort (opt_base g) <> c) os.
Proof.
  unfold lookup_option. induction os as [|g os IH]; simpl.
  - split; [constructor|reflexivity].
  - destruct (Ascii.eqb _ _) eqn:E.
    + apply Ascii.eqb_eq in E. split; [discriminate|].
      intros H. inversion H. contradiction.
    + apply Ascii.eqb_neq in E. rewrite IH. split.
      * intros H. constructor; assumption.
      * intros H. inversion H. assumption.
Qed.

Lemma lookup_flag_some (c : ascii) (fs : list SmartOptionsFlagArg)
    (f : SmartOptionsFlagArg) :
  lookup_flag c fs = Some f ->
  exists fs1 fs2, fs = fs1 ++ f :: fs2
    /\ Forall (fun g => prefixShort (flag_base g) <> c) fs1
    /\ prefixShort (flag_base f) = c.
Proof.
  unfold lookup_flag. induction fs as [|g fs IH]; simpl; [discriminate|].
  destruct (Ascii.eqb _ _) eqn:E.
  - intros H. inversion H. subst g. apply Ascii.eqb_eq in E.
    exists [], fs. split; [reflexivity|]. split; [constructor|exact E].
  - intros H. destruct (IH H) as (fs1 & fs2 & -> & Hn & Hf).
    apply Ascii.eqb_neq in E.
    exists (g :: fs1), fs2. split; [reflexivity|].
    split; [constructor; assumption|exact Hf].
Qed.

Lemma lookup_option_some (c : ascii) (os : list SmartOptionsOptionArg)
    (o : SmartOptionsOptionArg) :
  lookup_option c os = Some o ->
  exists os1 os2, os = os1 ++ o :: os2
    /\ Forall (fun g => prefixShort (opt_base g) <> c) os1
    /\ prefixShort (opt_base o) = c.
Proof.
  unfold lookup_option. induction os as [|g os IH]; simpl; [discriminate|].
  destruct (Ascii.eqb _ _) eqn:E.
  - intros H. inversion H. subst g. apply Ascii.eqb_eq in E.
    exists [], os. split; [reflexivity|]. split; [constructor|exact E].
  - intros H. destruct (IH H) as (os1 & os2 & -> & Hn & Ho).
    apply Ascii.eqb_neq in E.
    exists (g :: os1), os2. split; [reflexivity|].
    split; [constructor; assumption|exact Ho].
Qed.

(** A registered rule with identifier [c] makes the lookup succeed. *)
Lemma lookup_flag_registered (c : ascii) (fs : list SmartOptionsFlagArg)
    (g : SmartOptionsFlagArg) :
  In g fs -> prefixShort (flag_base g) = c ->
  exists f, lookup_flag c fs = Some f.
Proof.
  intros Hin Hc. destruct (lookup_flag c fs) as [f|] eqn:E; [eauto|].
  apply lookup_flag_none in E. rewrite Forall_forall in E.
  exfalso. apply (E g); [apply list_elem_of_In|]; assumption.
Qed.

Lemma lookup_option_registered (c : ascii)
    (os : list SmartOptionsOptionArg) (g : SmartOptionsOptionArg) :
  In g os -> prefixShort (opt_base g) = c ->
  exists o, lookup_option c os = Some o.
Proof.
  intros Hin Hc. destruct (lookup_option c os) as [o|] eqn:E; [eauto|].
  apply lookup_option_none in E. rewrite Forall_forall in E.
  exfalso. apply (E g); [apply list_elem_of_In|]; assumption.
Qed.

(** The iteration at a token whose identifier is that of a flag. *)
Lemma loop_body_flag (this : SmartOptions) (argc : nat) (st : Locals)
    (body : string) (f : SmartOptionsFlagArg) :
  argV this !! index st = Some (String "-" body) ->
  lookup_flag (cstr_deref body) (flags this) = Some f ->
  loop_body this argc st
    = inr (Continue
             (set_index (index st + 1)
                (set_mem (store_bool (flag_destVariable f) true (mem st))
                   st))).
Proof.
  intros Ht Hf. unfold loop_body, argV_at. rewrite Ht. simpl.
  rewrite flag_or_option_eq, Hf. reflexivity.
Qed.

(** The store after an iteration at a token whose identifier is that of no
    flag and of the option [o] first: unchanged, or changed at the
    destination of [o]. *)
Lemma loop_body_option_store (this : SmartOptions) (argc : nat)
    (st : Locals) (body : string) (o : SmartOptionsOptionArg) (s : Step) :
  argV this !! index st = Some (String "-" body) ->
  lookup_flag (cstr_deref body) (flags this) = None ->
  lookup_option (cstr_deref body) (options this) = Some o ->
  loop_body this argc st = inr s ->
  mem (locals_of s) = mem st
  \/ exists v,
       mem (locals_of s) = store_str (opt_destVariable o) (Some v) (mem st).
Proof.
  intros Ht Hf Ho. unfold loop_body, argV_at. rewrite Ht. simpl.
  rewrite flag_or_option_eq, Hf, Ho.
  destruct (cstr_at body 1) as [e|c1]; simpl; [discriminate|].
  destruct (negb _); simpl.
  - intros H. inversion H. simpl. right. eauto.
  - destruct (_ <=? _)%nat; simpl.
    + intros H. inversion H. simpl. left. reflexivity.
    + destruct (argV_at _ _) as [e|v]; simpl; [discriminate|].
      intros H. inversion H. simpl. right. eauto.
Qed.


(** ** Flags look at one character *)

(** C10, amended. For the first registered flag with short identifier [c],
    a token made of the marker, [c] and any trailing text sets the
    destination of that flag to true and changes nothing else; the trailing
    text plays no part, and the scan goes on with the next token. *)
Theorem flag_ignores_trailing_text (this : SmartOptions) (argc : nat)
    (st : Locals) (c : ascii) (trailing : string)
    (f : SmartOptionsFlagArg) :
  argV this !! index st = Some (String "-" (String c trailing)) ->
  lookup_flag c (flags this) = Some f ->
  loop_body this argc st
    = inr (Continue
             (set_index (index st + 1)
                (set_mem (store_bool (flag_destVariable f) true (mem st))
                   st))).
Proof. intros Ht Hf. apply (loop_body_flag _ _ _ _ _ Ht). exact Hf. Qed.

(** ** An option and its value *)

Lemma some_option_lookup (this : SmartOptions) (c : ascii) :
  some_option this c <-> exists o, lookup_option c (options this) = Some o.
Proof.
  unfold some_option. split.
  - rewrite Exists_exists. intros (g & Hin & Hc).
    apply (lookup_option_registered c _ g); [apply list_elem_of_In|];
      assumption.
  - intros [o Ho].
    destruct (lookup_option_some _ _ _ Ho) as (os1 & os2 & E & _ & Hp).
    rewrite E. apply Exists_app. right. constructor. exact Hp.
Qed.

Lemma some_option_not_none (this : SmartOptions) (c : ascii) :
  some_option this c -> no_option this c -> False.
Proof.
  intros Hs Hn. apply some_option_lookup in Hs. destruct Hs as [o Ho].
  apply lookup_option_none in Hn. congruence.
Qed.

(** The iteration at an option token that carries its value. *)
Lemma loop_body_attached (this : SmartOptions) (argc : nat) (st : Locals)
    (body : string) (o : SmartOptionsOptionArg) (c1 : ascii) :
  argV this !! index st = Some (String "-" body) ->
  lookup_flag (cstr_deref body) (flags this) = None ->
  lookup_option (cstr_deref body) (options this) = Some o ->
  cstr_at body 1 = inr c1 -> c1 <> NULL_TERMINATE ->
  loop_body this argc st
    = inr (Continue
             (set_index (index st + 1)
                (set_mem (store_str (opt_destVariable o)
                            (Some (cstr_next body)) (mem st)) st))).
Proof.
  intros Ht Hf Ho Hc Hn. unfold loop_body, argV_at. rewrite Ht. simpl.
  rewrite flag_or_option_eq, Hf, Ho, Hc. simpl.
  assert (Ascii.eqb NULL_TERMINATE c1 = false) as ->
    by (apply Ascii.eqb_neq; congruence).
  reflexivity.
Qed.

(** The iteration at an option token followed by its value. *)
Lemma loop_body_separated (this : SmartOptions) (argc : nat) (st : Locals)
    (body v : string) (o : SmartOptionsOptionArg) :
  argV this !! index st = Some (String "-" body) ->
  lookup_flag (cstr_deref body) (flags this) = None ->
  lookup_option (cstr_deref body) (options this) = Some o ->
  cstr_at body 1 = inr NULL_TERMINATE ->
  (index st + 1 < argc)%nat ->
  argV this !! (index st + 1) = Some v ->
  loop_body this argc st
    = inr (Continue
             (set_index (index st + 1 + 1)
                (set_mem (store_str (opt_destVariable o) (Some v) (mem st))
                   (set_index (index st + 1) st)))).
Proof.
  intros Ht Hf Ho Hc Hl Hv. unfold loop_body. unfold argV_at at 1.
  rewrite Ht. simpl. rewrite flag_or_option_eq, Hf, Ho, Hc. simpl.
  assert ((argc - 1 <=? index st)%nat = false) as ->
    by (apply Nat.leb_gt; lia).
  unfold argV_at. rewrite Hv. reflexivity.
Qed.

(** The iteration at an option token that is the last one and has no
    value. *)
Lemma loop_body_missing (this : SmartOptions) (argc : nat) (st : Locals)
    (body : string) (o : SmartOptionsOptionArg) :
  argV this !! index st = Some (String "-" body) ->
  lookup_flag (cstr_deref body) (flags this) = None ->
  lookup_option (cstr_deref body) (options this) = Some o ->
  cstr_at body 1 = inr NULL_TERMINATE ->
  (argc - 1 <= index st)%nat ->
  loop_body this argc st
    = inr (Return SMARTOPTIONS_INVALID_ARGUMENT
             (report_invalid this body
                (set_strErrMessage
                   (missing_value_message (cstr_deref body)) st))).
Proof.
  intros Ht Hf Ho Hc Hl. unfold loop_body, argV_at. rewrite Ht. simpl.
  rewrite flag_or_option_eq, Hf, Ho, Hc. simpl.
  assert ((argc - 1 <=? index st)%nat = true) as ->
    by (apply Nat.leb_le; lia).
  reflexivity.
Qed.

(** C5. Flags are matched before options, and in each sequence the first
    registered rule with the token's identifier wins. For a token that
    begins with the marker and whose first body character is the
    identifier of a registered flag: the iteration sets the destination of
    the first registered flag with that identifier to true and writes
    nothing else, whatever options carry the same identifier. When no flag
    but a registered option carries the identifier, let [o] be the first
    registered option with it: a token with a value attached stores that
    value at the destination of [o]; a token without one, followed by
    another token, stores the following token there; in both cases nothing
    else is written. A token without a value that is the last one ends the
    parse with SMARTOPTIONS_INVALID_ARGUMENT and writes nothing. So no
    iteration writes the destination of a later rule with the same
    identifier. *)
Theorem flags_before_options_first_match_wins (this : SmartOptions)
    (argc : nat) (st : Locals) (body : string) :
  argV this !! index st = Some (String "-" body) ->
  (forall g, In g (flags this) ->
     prefixShort (flag_base g) = cstr_deref body ->
     exists fs1 f fs2,
       flags this = fs1 ++ f :: fs2
       /\ Forall (fun h => prefixShort (flag_base h) <> cstr_deref body) fs1
       /\ prefixShort (flag_base f) = cstr_deref body
       /\ exists st',
            loop_body this argc st = inr (Continue st')
            /\ bools (mem st')
                 = <[flag_destVariable f := true]> (bools (mem st))
            /\ strs (mem st') = strs (mem st))
  /\ (forall g, In g (options this) ->
        prefixShort (opt_base g) = cstr_deref body ->
        Forall (fun h => prefixShort (flag_base h) <> cstr_deref body)
          (flags this) ->
        exists os1 o os2,
          options this = os1 ++ o :: os2
          /\ Forall (fun h => prefixShort (opt_base h) <> cstr_deref body)
               os1
          /\ prefixShort (opt_base o) = cstr_deref body
          /\ (forall s, loop_body this argc st = inr s ->
                bools (mem (locals_of s)) = bools (mem st)
                /\ (strs (mem (locals_of s)) = strs (mem st)
                    \/ exists v,
                         strs (mem (locals_of s))
                           = <[opt_destVariable o := Some v]>
                               (strs (mem st))))
          /\ (forall c1,
                cstr_at body 1 = inr c1 -> c1 <> NULL_TERMINATE ->
                exists st',
                  loop_body this argc st = inr (Continue st')
                  /\ bools (mem st') = bools (mem st)
                  /\ strs (mem st')
                       = <[opt_destVariable o := Some (cstr_next body)]>
                           (strs (mem st)))
          /\ (forall value,
                cstr_at body 1 = inr NULL_TERMINATE ->
                (index st + 1 < argc)%nat ->
                argV this !! (index st + 1)%nat = Some value ->
                exists st',
                  loop_body this argc st = inr (Continue st')
                  /\ bools (mem st') = bools (mem st)
                  /\ strs (mem st')
                       = <[opt_destVariable o := Some value]>
                           (strs (mem st)))
          /\ (cstr_at body 1 = inr NULL_TERMINATE ->
              (argc - 1 <= index st)%nat ->
              exists st',
                loop_body this argc st
                  = inr (Return SMARTOPTIONS_INVALID_ARGUMENT st')
                /\ mem st' = mem st)).
Proof.
  intros Ht. split.
  - intros g Hin Hc.
    destruct (lookup_flag_registered _ _ _ Hin Hc) as [f Hf].
    destruct (lookup_flag_some _ _ _ Hf) as (fs1 & fs2 & E & Hn & Hp).
    exists fs1, f, fs2. repeat (split; [assumption|]).
    eexists. split; [apply (loop_body_flag _ _ _ _ _ Ht Hf)|].
    split; reflexivity.
  - intros g Hin Hc Hnf. apply lookup_flag_none in Hnf.
    destruct (lookup_option_registered _ _ _ Hin Hc) as [o Ho].
    destruct (lookup_option_some _ _ _ Ho) as (os1 & os2 & E & Hn & Hp).
    exists os1, o, os2. repeat (split; [assumption|]).
    split; [|split; [|split]].
    + intros s Hs.
      destruct (loop_body_option_store _ argc _ _ _ _ Ht Hnf Ho Hs)
        as [H|[v H]]; rewrite H; simpl; split; eauto.
    + intros c1 Hc1 Hn1. eexists.
      split; [apply (loop_body_attached _ _ _ _ _ _ Ht Hnf Ho Hc1 Hn1)|].
      split; reflexivity.
    + intros value Hc1 Hi Hv. eexists.
      split; [apply (loop_body_separated _ _ _ _ _ _ Ht Hnf Ho Hc1 Hi Hv)|].
      split; reflexivity.
    + intros Hc1 Hl. eexists.
      split; [apply (loop_body_missing _ _ _ _ _ Ht Hnf Ho Hc1 Hl)|].
      reflexivity.
Qed.

(** The iteration at a token with an identifier nobody registered. *)
Lemma loop_body_unknown (this : SmartOptions) (argc : nat) (st : Locals)
    (body : string) :
  argV this !! index st = Some (String "-" body) ->
  lookup_flag (cstr_deref body) (flags this) = None ->
  lookup_option (cstr_deref body) (options this) = None ->
  loop_body this argc st
    = inr (Return SMARTOPTIONS_INVALID_ARGUMENT
             (report_invalid this body st)).
Proof.
  intros Ht Hf Ho. unfold loop_body, argV_at. rewrite Ht. simpl.
  rewrite flag_or_option_eq, Hf, Ho. reflexivity.
Qed.

(** No state of the scan sits on an index that an iteration jumped over. *)
Lemma skipped_index_not_scanned (this : SmartOptions) (argc : nat)
    (st0 st st' st'' : Locals) :
  reaches this argc st0 st -> step this argc st st' ->
  reaches this argc st0 st'' ->
  (index st < index st'' < index st')%nat -> False.
Proof.
  intros R S R'' I.
  destruct (reaches_linear _ _ _ _ _ R R'') as [F|F].
  - destruct F as [|st st1 st'' S1 F]; [lia|].
    rewrite (step_deterministic _ _ _ _ _ S1 S) in F.
    apply reaches_index in F. lia.
  - apply reaches_index in F. lia.
Qed.

(** C6, amended. When the scan is at a token that begins with the marker,
    whose identifier is that of a registered option and of no registered
    flag, that has no attached value and is not the last token, the
    following token is taken as it is for the value of the first registered
    option with that identifier, whatever that token looks like; the index
    moves past it, and the scan never classifies it. *)
Theorem separated_value_consumed (this : SmartOptions) (m : Memory)
    (argv : list string) (st : Locals) (body : string) :
  scanned this m argv st ->
  marker_token argv st body ->
  some_option this (cstr_deref body) ->
  no_flag this (cstr_deref body) ->
  no_attached_value body ->
  (index st + 1 < length argv)%nat ->
  exists o v st',
    lookup_option (cstr_deref body) (options this) = Some o
    /\ argv !! (index st + 1)%nat = Some v
    /\ loop_body (useCommandArgs this (length argv) argv) (length argv) st
         = inr (Continue st')
    /\ mem st' = store_str (opt_destVariable o) (Some v) (mem st)
    /\ index st' = (index st + 2)%nat
    /\ forall st'', scanned this m argv st'' ->
         index st'' <> (index st + 1)%nat.
Proof.
  intros [R L] Ht Ho Hf Hc Hl.
  apply some_option_lookup in Ho. destruct Ho as [o Ho].
  apply lookup_flag_none in Hf.
  destruct (lookup_lt_is_Some_2 argv (index st + 1) Hl) as [v Hv].
  pose proof (loop_body_separated
                (useCommandArgs this (length argv) argv) (length argv)
                st body v o Ht Hf Ho Hc Hl Hv) as B.
  exists o, v. eexists. split; [exact Ho|]. split; [exact Hv|].
  split; [exact B|]. split; [reflexivity|]. split; [simpl; lia|].
  intros st'' [R'' _] E.
  eapply (skipped_index_not_scanned _ _ _ st _ st'' R);
    [split; [exact L|exact B]|exact R''|simpl; lia].
Qed.

(** ** When the parse reports an invalid argument *)

Lemma marker_token_shape (token : string) :
  Ascii.eqb "-" (cstr_deref token) = true ->
  token = String "-" (cstr_next token).
Proof.
  destruct token as [|c rest]; simpl; intros H; apply Ascii.eqb_eq in H.
  - discriminate.
  - congruence.
Qed.

(** Only a marker token that no flag and no option processed makes an
    iteration leave the function, and the status is then
    SMARTOPTIONS_INVALID_ARGUMENT. *)
Lemma loop_body_return_inv (this : SmartOptions) (argc : nat)
    (st st' : Locals) (r : SMARTOPTIONS_STATUS) :
  loop_body this argc st = inr (Return r st') ->
  r = SMARTOPTIONS_INVALID_ARGUMENT
  /\ exists body,
       argV this !! index st = Some (String "-" body)
       /\ lookup_flag (cstr_deref body) (flags this) = None
       /\ (lookup_option (cstr_deref body) (options this) = None
           \/ ((exists o,
                  lookup_option (cstr_deref body) (options this) = Some o)
               /\ cstr_at body 1 = inr NULL_TERMINATE
               /\ (argc - 1 <= index st)%nat)).
Proof.
  unfold loop_body, argV_at. intros H.
  destruct (argV this !! index st) as [token|] eqn:Ht; simpl in H;
    [|discriminate].
  destruct (Ascii.eqb "-" (cstr_deref token)) eqn:E.
  - apply marker_token_shape in E.
    rewrite flag_or_option_eq in H.
    destruct (lookup_flag _ _) as [f|] eqn:Hf; simpl in H; [discriminate|].
    destruct (lookup_option _ _) as [o|] eqn:Ho; simpl in H.
    + destruct (cstr_at _ 1) as [e|c1] eqn:Hc; simpl in H; [discriminate|].
      destruct (negb _) eqn:N; simpl in H; [discriminate|].
      apply negb_false_iff, Ascii.eqb_eq in N. subst c1.
      destruct (_ <=? _)%nat eqn:L; simpl in H.
      * inversion H. split; [reflexivity|].
        exists (cstr_next token). split; [congruence|].
        split; [exact Hf|]. right. split; [eauto|].
        split; [exact Hc|]. apply Nat.leb_le. exact L.
      * destruct (argV_at _ _); simpl in H; discriminate.
    + inversion H. split; [reflexivity|].
      exists (cstr_next token). split; [congruence|].
      split; [exact Hf|]. left. exact Ho.
  - destruct (positional _ _ _); simpl in H; discriminate.
Qed.

Lemma validate_status (this : SmartOptions) (st : Locals) (msg : string)
    (r : Result) :
  validate this st msg = inr r ->
  (status r = SMARTOPTIONS_SUCCESS
   /\ posArgsCount st = length (posArgs this)
   /\ memory r = mem st /\ output r = out st)
  \/ (status r = SMARTOPTIONS_INVALID_NUMBEROF_ARGUMENTS
      /\ posArgsCount st <> length (posArgs this)
      /\ memory r = mem st).
Proof.
  unfold validate. destruct (posArgsCount st =? _)%nat eqn:E; simpl.
  - intros H. inversion H. left. apply Nat.eqb_eq in E. auto.
  - intros H. apply bind_inr in H. destruct H as (o & _ & H).
    inversion H. right. apply Nat.eqb_neq in E. auto.
Qed.

(** What [ProcessCommandArgs] returns, read off the outcome of the loop. *)
Lemma ProcessCommandArgs_return (this : SmartOptions) (m : Memory)
    (argv : list string) (st st' : Locals) (r : SMARTOPTIONS_STATUS) :
  scanned this m argv st ->
  loop_body (useCommandArgs this (length argv) argv) (length argv) st
    = inr (Return r st') ->
  ProcessCommandArgs this m (length argv) argv
    = inr (mkResult r (mem st') (out st')).
Proof.
  intros Hs B. rewrite ProcessCommandArgs_scan, (scanned_run _ _ _ _ Hs).
  destruct Hs as [_ L]. rewrite run_body, B by exact L. reflexivity.
Qed.

(** C2, amended. The parse returns SMARTOPTIONS_INVALID_ARGUMENT exactly
    when the scan reaches a token that begins with the marker and whose
    identifier is that of no registered flag, and either is that of no
    registered option, or is that of a registered option while the token
    has no attached value and is the last one. *)
Theorem invalid_argument_iff (this : SmartOptions) (m : Memory)
    (argv : list string) :
  returns_status this m argv SMARTOPTIONS_INVALID_ARGUMENT
  <-> invalid_argument_condition this m argv.
Proof.
  split.
  - intros (r & H & Hs). rewrite ProcessCommandArgs_scan in H.
    destruct (scan this m (length argv) argv) as [e|[st|r' st]] eqn:S;
      simpl in H; [discriminate| |].
    + apply bind_inr in H. destruct H as (msg & _ & H).
      apply validate_status in H.
      destruct H as [(H & _)|(H & _)]; congruence.
    + inversion H. subst r. simpl in Hs. subst r'.
      rewrite scan_run in S. apply run_return in S.
      destruct S as (st1 & R & L & B).
      apply loop_body_return_inv in B.
      destruct B as (_ & body & Ht & Hf & Ho).
      exists st1, body. split; [split; assumption|]. split; [exact Ht|].
      split; [apply lookup_flag_none; exact Hf|].
      destruct Ho as [Ho|(Ho & Hc & Hl)].
      * left. apply lookup_option_none. exact Ho.
      * right. split; [apply some_option_lookup; exact Ho|].
        split; [exact Hc|]. unfold last_token. lia.
  - intros (st & body & Hs & Ht & Hf & Ho).
    apply lookup_flag_none in Hf.
    destruct Ho as [Ho|(Ho & Hc & Hl)].
    + apply lookup_option_none in Ho.
      eexists. split.
      * eapply (ProcessCommandArgs_return _ _ _ st); [exact Hs|].
        apply loop_body_unknown; [exact Ht|exact Hf|exact Ho].
      * reflexivity.
    + apply some_option_lookup in Ho. destruct Ho as [o Ho].
      eexists. split.
      * eapply (ProcessCommandArgs_return _ _ _ st); [exact Hs|].
        apply (loop_body_missing _ _ _ body o);
          [exact Ht|exact Hf|exact Ho|exact Hc|].
        unfold last_token in Hl. lia.
      * reflexivity.
Qed.

(** ** Attached and separated values *)

Lemma scan_exit (this : SmartOptions) (m : Memory) (argc : nat)
    (argv : list string) (st : Locals) :
  reaches (useCommandArgs this argc argv) argc (init_locals m) st ->
  (argc <= index st)%nat ->
  scan this m argc argv = inr (Continue st).
Proof.
  intros R L. rewrite scan_run, (run_reaches _ _ _ _ R). apply run_exit, L.
Qed.

Lemma first_char_of_cstring (v : string) :
  v <> EmptyString -> is_cstring v = true ->
  exists c1, String.get 0 v = Some c1 /\ c1 <> NULL_TERMINATE.
Proof.
  destruct v as [|c1 rest]; [congruence|]. simpl. intros _ H.
  apply andb_true_iff in H. destruct H as [H _].
  apply negb_true_iff, Ascii.eqb_neq in H. eauto.
Qed.

(** A parse of option tokens alone, with no positional rule, succeeds with
    the store the scan ends with. *)
Lemma ProcessCommandArgs_success (this : SmartOptions) (m : Memory)
    (argc : nat) (argv : list string) (st : Locals) :
  scan this m argc argv = inr (Continue st) ->
  strPosArgErrMsg st = EmptyString ->
  posArgsCount st = length (posArgs this) ->
  ProcessCommandArgs this m argc argv
    = inr (mkResult SMARTOPTIONS_SUCCESS (mem st) (out st)).
Proof.
  intros S Hm Hc. rewrite ProcessCommandArgs_scan, S. simpl.
  unfold close_surplus_message. rewrite Hm. simpl.
  unfold validate. simpl. rewrite Hc, Nat.eqb_refl. reflexivity.
Qed.

(** ** What the parse leaves alone *)

Lemma call_initialised (sm : SmartOptions * Memory) (s : Setup) :
  initialised (fst sm) (snd sm) ->
  initialised (fst (call sm s)) (snd (call sm s)).
Proof.
  destruct sm as [this m]. intros [Hf Ho]. simpl in Hf, Ho.
  destruct s as [d|u|c long meta help dest|c long help dest|meta help dest];
    simpl; (split; [intros f Hin|intros o Hin]); simpl in *.
  - apply Hf, Hin.
  - apply Ho, Hin.
  - apply Hf, Hin.
  - apply Ho, Hin.
  - apply Hf, Hin.
  - apply in_app_or in Hin. destruct Hin as [Hin|[<-|[]]].
    + destruct (decide (dest = opt_destVariable o)) as [->|Hne].
      * apply lookup_insert_eq.
      * rewrite lookup_insert_ne by exact Hne. apply Ho, Hin.
    + simpl. apply lookup_insert_eq.
  - apply in_app_or in Hin. destruct Hin as [Hin|[<-|[]]].
    + destruct (decide (dest = flag_destVariable f)) as [->|Hne].
      * apply lookup_insert_eq.
      * rewrite lookup_insert_ne by exact Hne. apply Hf, Hin.
    + simpl. apply lookup_insert_eq.
  - apply Ho, Hin.
  - apply Hf, Hin.
  - apply Ho, Hin.
Qed.

Lemma fold_call_initialised (calls : list Setup)
    (sm : SmartOptions * Memory) :
  initialised (fst sm) (snd sm) ->
  initialised (fst (fold_left call calls sm))
    (snd (fold_left call calls sm)).
Proof.
  revert sm. induction calls as [|s calls IH]; intros sm H; simpl;
    [exact H|].
  apply IH, call_initialised, H.
Qed.

(** After any sequence of set-up calls on a fresh object, the destinations
    of the flags hold false and those of the options are unset. *)
Lemma setup_initialised (programName : string) (auto : bool) (m0 : Memory)
    (calls : list Setup) (this : SmartOptions) (m : Memory) :
  setup programName auto m0 calls = (this, m) -> initialised this m.
Proof.
  intros E. unfold setup in E.
  pose proof (fold_call_initialised calls
                (SmartOptions_new programName auto, m0)) as H.
  rewrite E in H. apply H. split; intros x [].
Qed.

Lemma NoDup_map_inj {A B : Type} (g : A -> B) (l : list A) (x y : A) :
  NoDup (map g l) -> In x l -> In y l -> g x = g y -> x = y.
Proof.
  induction l as [|a l IH]; simpl; [intros _ []|].
  intros N Hx Hy E. inversion N as [|b k Hnin N']. subst.
  destruct Hx as [->|Hx], Hy as [->|Hy]; [reflexivity| | |auto].
  - exfalso. apply Hnin. rewrite E. apply list_elem_of_In, in_map, Hy.
  - exfalso. apply Hnin. rewrite <- E. apply list_elem_of_In, in_map, Hx.
Qed.

Lemma lookup_flag_In (c : ascii) (fs : list SmartOptionsFlagArg)
    (f : SmartOptionsFlagArg) :
  lookup_flag c fs = Some f -> In f fs /\ prefixShort (flag_base f) = c.
Proof.
  intros H. destruct (lookup_flag_some _ _ _ H) as (fs1 & fs2 & -> & _ & E).
  split; [apply in_or_app; right; left; reflexivity|exact E].
Qed.

Lemma lookup_option_In (c : ascii) (os : list SmartOptionsOptionArg)
    (o : SmartOptionsOptionArg) :
  lookup_option c os = Some o -> In o os /\ prefixShort (opt_base o) = c.
Proof.
  intros H.
  destruct (lookup_option_some _ _ _ H) as (os1 & os2 & -> & _ & E).
  split; [apply in_or_app; right; left; reflexivity|exact E].
Qed.

Lemma loop_body_writes (this : SmartOptions) (argc : nat)
    (st st' : Locals) :
  loop_body this argc st = inr (Continue st') ->
  exists token, argV this !! index st = Some token
                /\ iteration_writes this st st' token.
Proof.
  unfold loop_body, argV_at. intros H.
  destruct (argV this !! index st) as [token|] eqn:Ht; simpl in H;
    [|discriminate].
  exists token. split; [reflexivity|].
  destruct (Ascii.eqb "-" (cstr_deref token)) eqn:E.
  - apply marker_token_shape in E. rewrite E.
    rewrite flag_or_option_eq in H.
    destruct (lookup_flag _ _) as [f|] eqn:Hf; simpl in H.
    { inversion H. eapply writes_flag; [exact Hf|reflexivity]. }
    destruct (lookup_option _ _) as [o|] eqn:Ho; simpl in H;
      [|discriminate].
    destruct (cstr_at _ 1) as [e|c1]; simpl in H; [discriminate|].
    destruct (negb _); simpl in H.
    { inversion H. eapply writes_option; [exact Ho|reflexivity]. }
    destruct (_ <=? _)%nat; simpl in H; [discriminate|].
    destruct (argV_at _ _) as [e|v]; simpl in H; [discriminate|].
    inversion H. eapply writes_option; [exact Ho|reflexivity].
  - unfold positional in H.
    destruct (_ <? _)%nat.
    + destruct (posArgs this !! posArgsIt st) as [p|] eqn:Hp; simpl in H;
        [|discriminate].
      inversion H. eapply writes_positional; [|reflexivity].
      apply list_elem_of_In. eapply list_elem_of_lookup_2. exact Hp.
    + destruct (str_empty _); simpl in H; inversion H;
        apply writes_nothing; reflexivity.
Qed.

Section Frame.

Variables (this : SmartOptions) (m : Memory) (argv : list string).

Let this' := useCommandArgs this (length argv) argv.

Hypothesis distinct : distinct_destinations this.

(** The destination of a flag whose identifier no scanned token carries
    is not written by the scan. *)
Lemma reaches_frame_flag (f : SmartOptionsFlagArg) (st : Locals) :
  In f (flags this) ->
  never_matched this m argv (prefixShort (flag_base f)) ->
  reaches this' (length argv) (init_locals m) st ->
  bools (mem st) !! flag_destVariable f = bools m !! flag_destVariable f.
Proof.
  intros Hin Hnm R. unfold reaches in R. revert st R.
  apply (rtc_ind_r
           (fun st => bools (mem st) !! flag_destVariable f
                      = bools m !! flag_destVariable f));
    [reflexivity|].
  intros st1 st2 R [L B] IH. rewrite <- IH. clear IH.
  destruct (loop_body_writes _ _ _ _ B) as (token & Ht & W).
  destruct W as [body g Hg E|body v o Ho E|token p Hp E|token E];
    rewrite E; simpl; try reflexivity.
  apply lookup_insert_ne. intros Heq.
  apply lookup_flag_In in Hg. destruct Hg as [Hgin Hgc].
  apply (Hnm st1 body); [split; assumption|exact Ht|].
  destruct distinct as [Nf _].
  rewrite <- Hgc. f_equal. f_equal.
  apply (NoDup_map_inj flag_destVariable (flags this)); assumption.
Qed.

(** The destination of an option whose identifier no scanned token
    carries is not written by the scan. *)
Lemma reaches_frame_option (o : SmartOptionsOptionArg) (st : Locals) :
  In o (options this) ->
  never_matched this m argv (prefixShort (opt_base o)) ->
  reaches this' (length argv) (init_locals m) st ->
  strs (mem st) !! opt_destVariable o = strs m !! opt_destVariable o.
Proof.
  intros Hin Hnm R. unfold reaches in R. revert st R.
  apply (rtc_ind_r
           (fun st => strs (mem st) !! opt_destVariable o
                      = strs m !! opt_destVariable o));
    [reflexivity|].
  intros st1 st2 R [L B] IH. rewrite <- IH. clear IH.
  destruct distinct as [_ Ns].
  destruct (loop_body_writes _ _ _ _ B) as (token & Ht & W).
  destruct W as [body g Hg E|body v o' Ho E|token p Hp E|token E];
    rewrite E; simpl; try reflexivity.
  - apply lookup_insert_ne. intros Heq.
    apply lookup_option_In in Ho. destruct Ho as [Hoin Hoc].
    apply (Hnm st1 body); [split; assumption|exact Ht|].
    rewrite <- Hoc. f_equal. f_equal.
    apply NoDup_app in Ns. destruct Ns as (No & _ & _).
    apply (NoDup_map_inj opt_destVariable (options this)); assumption.
  - apply lookup_insert_ne. intros Heq.
    apply NoDup_app in Ns. destruct Ns as (_ & Nx & _).
    apply (Nx (opt_destVariable o)).
    + apply list_elem_of_In, in_map, Hin.
    + rewrite <- Heq. apply list_elem_of_In, in_map, Hp.
Qed.

End Frame.

(** A parse that succeeds went through the whole loop. *)
Lemma ProcessCommandArgs_success_inv (this : SmartOptions) (m : Memory)
    (argv : list string) (r : Result) :
  ProcessCommandArgs this m (length argv) argv = inr r ->
  status r = SMARTOPTIONS_SUCCESS ->
  exists st,
    reaches (useCommandArgs this (length argv) argv) (length argv)
      (init_locals m) st
    /\ (length argv <= index st)%nat
    /\ posArgsCount st = length (posArgs this)
    /\ memory r = mem st.
Proof.
  intros H Hs. rewrite ProcessCommandArgs_scan in H.
  destruct (scan this m (length argv) argv) as [e|[st|r' st]] eqn:S;
    simpl in H; [discriminate| |].
  - apply bind_inr in H. destruct H as (msg & _ & H).
    apply validate_status in H.
    destruct H as [(_ & Hc & Hm & _)|(H & _)]; [|congruence].
    rewrite scan_run in S. apply run_continue in S. destruct S as [R L].
    exists st. auto.
  - rewrite scan_run in S. apply run_return in S.
    destruct S as (st1 & _ & _ & B).
    apply loop_body_return_inv in B. destruct B as [-> _].
    inversion H. subst r. simpl in Hs. discriminate.
Qed.

(** C9. An object is set up by any sequence of calls and then parses. If
    all registered destinations are distinct and the parse returns
    SMARTOPTIONS_SUCCESS, then the destination of every registered flag
    whose identifier no scanned token carried is false, and the destination
    of every registered option whose identifier no scanned token carried is
    unset. *)
Theorem unmatched_rules_stay_unset (programName : string) (auto : bool)
    (m0 : Memory) (calls : list Setup) (this : SmartOptions) (m : Memory)
    (argv : list string) (r : Result) :
  setup programName auto m0 calls = (this, m) ->
  distinct_destinations this ->
  ProcessCommandArgs this m (length argv) argv = inr r ->
  status r = SMARTOPTIONS_SUCCESS ->
  (forall f, In f (flags this) ->
     never_matched this m argv (prefixShort (flag_base f)) ->
     bools (memory r) !! flag_destVariable f = Some false)
  /\ (forall o, In o (options this) ->
        never_matched this m argv (prefixShort (opt_base o)) ->
        strs (memory r) !! opt_destVariable o = Some None).
Proof.
  intros Hset Hd H Hs.
  destruct (setup_initialised _ _ _ _ _ _ Hset) as [If Io].
  destruct (ProcessCommandArgs_success_inv _ _ _ _ H Hs)
    as (st & R & _ & _ & ->).
  split.
  - intros f Hin Hnm.
    rewrite (reaches_frame_flag this m argv Hd f st Hin Hnm R).
    apply If, Hin.
  - intros o Hin Hnm.
    rewrite (reaches_frame_option this m argv Hd o st Hin Hnm R).
    apply Io, Hin.
Qed.

(** ** Registration *)

Lemma AddFlag_registers (this : SmartOptions) (m : Memory) (c : ascii)
    (long : option string) (help : string) (dest : nat) :
  let '(this', m') := AddFlag this m c long help dest in
  flags this'
    = flags this ++ [mkFlagArg (mkArg c long EmptyString help) dest]
  /\ options this' = options this /\ posArgs this' = posArgs this
  /\ m' = store_bool dest false m
  /\ bools m' !! dest = Some false.
Proof. simpl. repeat split. apply lookup_insert_eq. Qed.

Lemma AddOption_registers (this : SmartOptions) (m : Memory) (c : ascii)
    (long : option string) (meta help : string) (dest : nat) :
  let '(this', m') := AddOption this m c long meta help dest in
  options this'
    = options this ++ [mkOptionArg (mkArg c long meta help) dest]
  /\ flags this' = flags this /\ posArgs this' = posArgs this
  /\ m' = store_str dest None m
  /\ strs m' !! dest = Some None.
Proof. simpl. repeat split. apply lookup_insert_eq. Qed.

(** [AddPositionalArgument] appends its rule and writes nothing: the
    destination keeps whatever the caller had in it. *)
Lemma AddPositionalArgument_registers (this : SmartOptions) (m : Memory)
    (meta help : string) (dest : nat) :
  let '(this', m') := AddPositionalArgument this m meta help dest in
  posArgs this'
    = posArgs this
        ++ [mkPositionalArg (mkArg NULL_TERMINATE None meta help) dest]
  /\ flags this' = flags this /\ options this' = options this
  /\ m' = m.
Proof. simpl. repeat split. Qed.

(** C4, at a destination that holds a value before the call: after
    [AddFlag] the [bool] destination is false and after [AddOption] the
    string destination is unset, but after [AddPositionalArgument] the
    string destination still holds the caller's value. *)
Theorem AddPositionalArgument_leaves_destination :
  bools (snd (AddFlag (SmartOptions_new "SmartOptionsTest" false)
                used_memory "a" None "a-Flag" 1)) !! 1%nat
    = Some false
  /\ strs (snd (AddOption (SmartOptions_new "SmartOptionsTest" false)
                  used_memory "b" None "B_VAR" "b-Option" 1)) !! 1%nat
     = Some None
  /\ strs (snd (AddPositionalArgument
                  (SmartOptions_new "SmartOptionsTest" false) used_memory
                  "posArg_1" "Positional Argument 1" 1)) !! 1%nat
     = Some (Some "stale").
Proof. repeat split; vm_compute; reflexivity. Qed.

(** ** Strings *)

Lemma append_cons (c : ascii) (a b : string) :
  String c a +:+ b = String c (a +:+ b).
Proof. reflexivity. Qed.

Lemma append_empty_l (a : string) : EmptyString +:+ a = a.
Proof. reflexivity. Qed.

Ltac unfold_append := rewrite ?append_cons, ?append_empty_l.

Lemma length_append (a b : string) :
  String.length (a +:+ b) = (String.length a + String.length b)%nat.
Proof.
  induction a as [|c a IH]; unfold_append; simpl; [reflexivity|].
  rewrite IH. lia.
Qed.

Lemma append_assoc (a b c : string) : (a +:+ b) +:+ c = a +:+ b +:+ c.
Proof.
  induction a as [|x a IH]; unfold_append; [reflexivity|].
  rewrite IH. reflexivity.
Qed.

Lemma str_empty_append (a b : string) :
  str_empty (a +:+ b) = str_empty a && str_empty b.
Proof. destruct a; reflexivity. Qed.

Lemma has_char_append (c : ascii) (a b : string) :
  has_char c (a +:+ b) = has_char c a || has_char c b.
Proof.
  induction a as [|x a IH]; unfold_append; simpl; [reflexivity|].
  rewrite IH. apply orb_assoc.
Qed.

Lemma rfind_no_char (c : ascii) (s : string) :
  has_char c s = false -> rfind c s = None.
Proof.
  induction s as [|a s IH]; simpl; [reflexivity|]. intros H.
  apply orb_false_iff in H. destruct H as [Ha Hs].
  rewrite (IH Hs), Ha. reflexivity.
Qed.

Lemma rfind_has_char (c : ascii) (s : string) :
  has_char c s = true ->
  exists p, rfind c s = Some p /\ (p < String.length s)%nat.
Proof.
  induction s as [|a s IH]; simpl; [discriminate|]. intros H.
  destruct (has_char c s) eqn:E.
  - destruct (IH eq_refl) as (p & -> & L). exists (S p).
    split; [reflexivity|lia].
  - rewrite orb_false_r in H. rewrite H, (rfind_no_char _ _ E).
    exists 0%nat. split; [reflexivity|lia].
Qed.

(** The last occurrence is the one that nothing follows. *)
Lemma rfind_append_last (c : ascii) (a b : string) :
  has_char c b = false ->
  rfind c (a +:+ String c b) = Some (String.length a).
Proof.
  intros H. induction a as [|x a IH]; unfold_append; simpl.
  - rewrite (rfind_no_char _ _ H), Ascii.eqb_refl. reflexivity.
  - rewrite IH. reflexivity.
Qed.

Lemma substring_all (b : string) : substring 0 (String.length b) b = b.
Proof. induction b as [|x b IH]; simpl; [|rewrite IH]; reflexivity. Qed.

Lemma substring_append_l (a b : string) :
  substring 0 (String.length a) (a +:+ b) = a.
Proof.
  induction a as [|x a IH]; unfold_append; simpl;
    [destruct b|rewrite IH]; reflexivity.
Qed.

Lemma substring_append_r (a b : string) :
  substring (String.length a) (String.length b) (a +:+ b) = b.
Proof.
  induction a as [|x a IH]; unfold_append; simpl;
    [apply substring_all|exact IH].
Qed.

(** [replace] applied where [rfind] found the last [c]. *)
Lemma str_replace_last (c : ascii) (a b r : string) :
  has_char c b = false ->
  str_replace (a +:+ String c b) (rfind c (a +:+ String c b)) 1 r
    = inr (a +:+ r +:+ b).
Proof.
  intros H. rewrite (rfind_append_last _ _ _ H). unfold str_replace.
  rewrite length_append. simpl String.length.
  destruct (_ <? _)%nat eqn:L; [apply Nat.ltb_lt in L; lia|].
  rewrite substring_append_l.
  replace (String.length a + S (String.length b)
           - (String.length a + 1))%nat with (String.length b) by lia.
  replace (a +:+ String c b) with ((a +:+ String c EmptyString) +:+ b)
    by (rewrite append_assoc; reflexivity).
  replace (String.length a + 1)%nat
    with (String.length (a +:+ String c EmptyString))
    by (rewrite length_append; reflexivity).
  rewrite substring_append_r. reflexivity.
Qed.

(** [replace] does not throw where [rfind] found something. *)
Lemma str_replace_has_char (c : ascii) (s r : string) :
  has_char c s = true -> exists s', str_replace s (rfind c s) 1 r = inr s'.
Proof.
  intros H. destruct (rfind_has_char _ _ H) as (p & -> & L).
  unfold str_replace. destruct (_ <? _)%nat eqn:E.
  - apply Nat.ltb_lt in E. lia.
  - eexists. reflexivity.
Qed.

(** ** A scan of positional tokens *)

Lemma bind_positionals_nil (ps : list SmartOptionsPositionalArg)
    (m : Memory) :
  bind_positionals ps [] m = m.
Proof. destruct ps; reflexivity. Qed.

Lemma bind_positionals_snoc_lt (ps : list SmartOptionsPositionalArg)
    (pre : list string) (t : string) (m : Memory)
    (p : SmartOptionsPositionalArg) :
  ps !! length pre = Some p ->
  bind_positionals ps (pre ++ [t]) m
    = store_str (pos_destVariable p) (Some t) (bind_positionals ps pre m).
Proof.
  revert pre m. induction ps as [|q ps IH]; intros pre m H;
    [discriminate|].
  destruct pre as [|x pre]; simpl in *.
  - inversion H. subst q. destruct ps; reflexivity.
  - apply IH, H.
Qed.

Lemma bind_positionals_snoc_ge (ps : list SmartOptionsPositionalArg)
    (pre : list string) (t : string) (m : Memory) :
  (length ps <= length pre)%nat ->
  bind_positionals ps (pre ++ [t]) m = bind_positionals ps pre m.
Proof.
  revert pre m. induction ps as [|q ps IH]; intros pre m H; simpl.
  - destruct (pre ++ [t]); reflexivity.
  - destruct pre as [|x pre]; simpl in *; [lia|]. apply IH. lia.
Qed.

Lemma fold_append_nonempty (ts : list string) (init : string) :
  str_empty init = false ->
  str_empty (fold_left (fun msg t' => msg +:+ ", " +:+ t') ts init) = false.
Proof.
  revert init. induction ts as [|t ts IH]; intros init H; simpl;
    [exact H|].
  apply IH. rewrite str_empty_append, H. reflexivity.
Qed.

Lemma surplus_open_nonempty (app : string) (t : string)
    (ts : list string) :
  str_empty (surplus_open app (t :: ts)) = false.
Proof.
  apply fold_append_nonempty.
  rewrite str_empty_append, str_empty_append. apply andb_false_r.
Qed.

Lemma surplus_open_snoc (app : string) (surplus : list string)
    (t : string) :
  surplus_open app (surplus ++ [t])
    = if str_empty (surplus_open app surplus)
      then app +:+ ": Error, invalid number of mandatory arguments ("
             +:+ t
      else surplus_open app surplus +:+ ", " +:+ t.
Proof.
  destruct surplus as [|x xs]; [reflexivity|].
  rewrite surplus_open_nonempty. simpl. rewrite fold_left_app. reflexivity.
Qed.

Lemma loop_body_positional (this : SmartOptions) (argc : nat)
    (st : Locals) (token : string) :
  argV this !! index st = Some token -> not_marker token ->
  loop_body this argc st
    = (do st' <- positional this token st;
       ret (Continue (set_index (index st' + 1) st'))).
Proof.
  intros Ht Hn. unfold loop_body, argV_at. rewrite Ht. simpl.
  assert (Ascii.eqb "-" (cstr_deref token) = false) as ->
    by (apply Ascii.eqb_neq; intros E; apply Hn; symmetry; exact E).
  reflexivity.
Qed.

(** One positional token more: from the locals after [pre] to the locals
    after [pre] and [t]. *)
Lemma positional_after (this : SmartOptions) (m : Memory)
    (pre : list string) (t : string) :
  positional this t (after_positionals this m pre)
    = inr (set_index (S (length pre))
             (after_positionals this m (pre ++ [t]))).
Proof.
  unfold positional, after_positionals. simpl.
  destruct (Nat.min (length pre) (length (posArgs this))
            <? length (posArgs this))%nat eqn:L.
  - apply Nat.ltb_lt in L.
    assert (length pre < length (posArgs this))%nat as L' by lia.
    rewrite Nat.min_l by lia.
    destruct (lookup_lt_is_Some_2 _ _ L') as [p Hp]. rewrite Hp. simpl.
    unfold set_index, set_posArgsCount, set_posArgsIt, set_mem. simpl.
    rewrite length_app, (bind_positionals_snoc_lt _ _ _ _ _ Hp). simpl.
    rewrite !drop_ge by (rewrite ?length_app; simpl; lia).
    rewrite (Nat.min_l (length pre + 1)) by lia. reflexivity.
  - apply Nat.ltb_ge in L.
    assert (length (posArgs this) <= length pre)%nat as L' by lia.
    rewrite drop_app_le by exact L'. rewrite surplus_open_snoc.
    rewrite (bind_positionals_snoc_ge _ _ _ _ L'), length_app. simpl.
    rewrite (Nat.min_r (length pre + 1)), (Nat.min_r (length pre))
      by lia.
    destruct (str_empty _); reflexivity.
Qed.

(** The scan of [pre], whatever tokens follow. *)
Lemma reaches_positionals (this : SmartOptions) (m : Memory)
    (prog : string) (pre rest : list string) :
  Forall not_marker pre ->
  reaches (useCommandArgs this (length (prog :: pre ++ rest))
             (prog :: pre ++ rest))
    (length (prog :: pre ++ rest)) (init_locals m)
    (after_positionals this m pre).
Proof.
  revert rest. induction pre as [|t pre IH] using rev_ind; intros rest H.
  - unfold after_positionals. simpl.
    rewrite drop_nil, bind_positionals_nil. apply rtc_refl.
  - apply Forall_app in H. destruct H as [Hpre Ht].
    inversion Ht as [|t' l Hn _]. subst.
    specialize (IH (t :: rest) Hpre).
    rewrite <- app_assoc. simpl app.
    eapply rtc_r; [exact IH|]. split.
    + simpl. rewrite length_app. simpl. lia.
    + rewrite (loop_body_positional _ _ _ t).
      * fold (useCommandArgs this
                (length (prog :: pre ++ t :: rest))
                (prog :: pre ++ t :: rest)).
        unfold positional. simpl posArgs. simpl appName.
        fold (positional this t (after_positionals this m pre)).
        rewrite positional_after. simpl.
        unfold set_index, after_positionals. simpl.
        rewrite length_app. simpl. repeat f_equal; lia.
      * simpl. apply list_lookup_middle. reflexivity.
      * exact Hn.
Qed.

Lemma scan_positionals (this : SmartOptions) (m : Memory) (prog : string)
    (tokens : list string) :
  Forall not_marker tokens ->
  scan this m (length (prog :: tokens)) (prog :: tokens)
    = inr (Continue (after_positionals this m tokens)).
Proof.
  intros H. apply scan_exit.
  - pose proof (reaches_positionals this m prog tokens [] H) as R.
    rewrite app_nil_r in R. exact R.
  - simpl. lia.
Qed.

Lemma fold_append_has_char (c : ascii) (ts : list string) (init : string) :
  has_char c init = true ->
  has_char c (fold_left (fun msg t' => msg +:+ ", " +:+ t') ts init) = true.
Proof.
  revert init. induction ts as [|t ts IH]; intros init H; simpl;
    [exact H|].
  apply IH. rewrite has_char_append, H. reflexivity.
Qed.

Lemma surplus_open_has_comma (app t : string) (ts : list string) :
  has_char "," (surplus_open app (t :: ts)) = true.
Proof.
  apply fold_append_has_char.
  rewrite !has_char_append.
  replace (has_char ","
             ": Error, invalid number of mandatory arguments (")
    with true by reflexivity.
  rewrite orb_true_r. reflexivity.
Qed.

(** Closing the message never throws. *)
Lemma close_surplus_message_returns (app : string)
    (surplus : list string) :
  exists msg,
    close_surplus_message (surplus_open app surplus) = inr msg
    /\ str_empty msg = str_empty (surplus_open app surplus).
Proof.
  unfold close_surplus_message. destruct surplus as [|t ts].
  - exists EmptyString. split; reflexivity.
  - rewrite surplus_open_nonempty. simpl negb. cbv iota.
    assert (has_char "," (surplus_open app (t :: ts) +:+ ")") = true) as H
      by (rewrite has_char_append, surplus_open_has_comma; reflexivity).
    destruct (rfind_has_char _ _ H) as (p & E & L). rewrite E.
    unfold str_replace. destruct (_ <? _)%nat eqn:B.
    { apply Nat.ltb_lt in B. lia. }
    eexists. split; [reflexivity|].
    rewrite !str_empty_append. simpl. rewrite andb_false_r. reflexivity.
Qed.

Lemma str_erase_last_append (a b : string) :
  str_erase_last (a +:+ b) (String.length b) = inr a.
Proof.
  unfold str_erase_last. rewrite length_append.
  destruct (_ <? _)%nat eqn:L; [apply Nat.ltb_lt in L; lia|].
  replace (String.length a + String.length b - String.length b)%nat
    with (String.length a) by lia.
  rewrite substring_append_l. reflexivity.
Qed.

(** The list of meta variables ends with a separator, and has a comma
    before it as soon as the text it extends has one. *)
Lemma append_metas_shape (ps : list SmartOptionsPositionalArg)
    (msg : string) :
  ps <> [] ->
  exists a, append_metas ps msg = a +:+ ", "
            /\ (has_char "," msg = true -> has_char "," a = true).
Proof.
  revert msg. induction ps as [|p ps IH]; intros msg H; [congruence|].
  destruct ps as [|q ps].
  - exists (msg +:+ "'" +:+ metaVariable (pos_base p) +:+ "'"). split.
    + simpl. rewrite !append_assoc. reflexivity.
    + intros C. rewrite has_char_append, C. reflexivity.
  - destruct (IH (msg +:+ "'" +:+ metaVariable (pos_base p) +:+ "', ")
                ltac:(discriminate)) as (a & E & C).
    exists a. split; [exact E|].
    intros Hm. apply C. rewrite has_char_append, Hm. reflexivity.
Qed.

Lemma append_metas_two (p q : SmartOptionsPositionalArg)
    (ps : list SmartOptionsPositionalArg) (msg : string) :
  exists a, append_metas (p :: q :: ps) msg = a +:+ ", "
            /\ has_char "," a = true.
Proof.
  destruct (append_metas_shape (q :: ps)
              (msg +:+ "'" +:+ metaVariable (pos_base p) +:+ "', ")
              ltac:(discriminate)) as (a & E & C).
  exists a. split; [exact E|]. apply C.
  rewrite !has_char_append.
  replace (has_char "," "', ") with true by reflexivity.
  rewrite !orb_true_r. reflexivity.
Qed.

(** The check of the number of positional tokens returns, unless auto-help
    is on and no positional rule is registered. *)
Lemma validate_returns (this : SmartOptions) (st : Locals) (msg : string) :
  autoPrintHelp this = false \/ posArgs this <> [] ->
  exists r, validate this st msg = inr r.
Proof.
  intros H. unfold validate.
  destruct (negb _); [|eexists; reflexivity].
  destruct (autoPrintHelp this) eqn:A; [|eexists; reflexivity].
  destruct H as [H|H]; [discriminate|].
  destruct (posArgs this) as [|p [|q ps]] eqn:P; [congruence| |].
  - eexists. reflexivity.
  - simpl length. simpl Nat.eqb. cbv iota.
    match goal with
    | |- context [append_metas _ ?x] =>
        destruct (append_metas_two p q ps x) as (a & E & C)
    end.
    rewrite E.
    change 2%nat with (String.length ", ") at 1.
    rewrite str_erase_last_append. simpl bind.
    destruct (str_replace_has_char "," a " &" C) as (s' & R).
    rewrite R. eexists. reflexivity.
Qed.

(** C3, amended. Let [o] be the first registered option with short
    identifier [c], where [c] is not the terminator and is the identifier
    of no registered flag. For every non-empty value [v], the single token
    made of the marker, [c] and [v], and the two tokens made of the marker
    and [c], then [v], give the same result, whatever positional rules are
    registered: the store is the caller's with the destination of [o]
    bound to [v]. With no positional rule registered that result is
    SMARTOPTIONS_SUCCESS with nothing printed; with one registered it is
    SMARTOPTIONS_INVALID_NUMBEROF_ARGUMENTS, the binding made all the
    same. *)
Theorem attached_and_separated_bind_alike (this : SmartOptions)
    (m : Memory) (prog : string) (c : ascii) (v : string)
    (o : SmartOptionsOptionArg) :
  c <> NULL_TERMINATE ->
  no_flag this c ->
  lookup_option c (options this) = Some o ->
  v <> EmptyString -> is_cstring v = true ->
  exists r,
    ProcessCommandArgs this m 2 [prog; String "-" (String c v)] = inr r
    /\ ProcessCommandArgs this m 3
         [prog; String "-" (String c EmptyString); v] = inr r
    /\ memory r = store_str (opt_destVariable o) (Some v) m
    /\ (posArgs this = [] ->
        r = mkResult SMARTOPTIONS_SUCCESS
              (store_str (opt_destVariable o) (Some v) m) [])
    /\ (posArgs this <> [] ->
        status r = SMARTOPTIONS_INVALID_NUMBEROF_ARGUMENTS).
Proof.
  intros _ Hf Ho Hv Hz. apply lookup_flag_none in Hf.
  destruct (first_char_of_cstring v Hv Hz) as (c1 & Hg & Hn).
  set (argv1 := [prog; String "-" (String c v)]).
  set (argv2 := [prog; String "-" (String c EmptyString); v]).
  set (st := mkLocals 2 0 0 EmptyString EmptyString
               (store_str (opt_destVariable o) (Some v) m) []).
  assert (ProcessCommandArgs this m 2 argv1
          = validate this st EmptyString) as E1.
  { pose proof (loop_body_attached (useCommandArgs this 2 argv1) 2
                  (init_locals m) (String c v) o c1
                  eq_refl Hf Ho) as B.
    unfold cstr_at in B. simpl in B. rewrite Hg in B.
    specialize (B eq_refl Hn).
    match type of B with _ = inr (Continue ?st') =>
      assert (scan this m 2 argv1 = inr (Continue st')) as S end.
    { apply scan_exit.
      - apply rtc_once. split; [simpl; lia|exact B].
      - simpl. lia. }
    rewrite ProcessCommandArgs_scan, S. reflexivity. }
  assert (ProcessCommandArgs this m 3 argv2
          = validate this st EmptyString) as E2.
  { pose proof (loop_body_separated (useCommandArgs this 3 argv2) 3
                  (init_locals m) (String c EmptyString) v o
                  eq_refl Hf Ho eq_refl ltac:(simpl; lia) eq_refl) as B.
    match type of B with _ = inr (Continue ?st') =>
      assert (scan this m 3 argv2 = inr (Continue st')) as S end.
    { apply scan_exit.
      - apply rtc_once. split; [simpl; lia|exact B].
      - simpl. lia. }
    rewrite ProcessCommandArgs_scan, S. reflexivity. }
  rewrite E1, E2.
  destruct (posArgs this) as [|p ps] eqn:Hp.
  - exists (mkResult SMARTOPTIONS_SUCCESS
              (store_str (opt_destVariable o) (Some v) m) []).
    assert (validate this st EmptyString
            = inr (mkResult SMARTOPTIONS_SUCCESS
                     (store_str (opt_destVariable o) (Some v) m) [])) as V.
    { unfold validate. rewrite Hp. reflexivity. }
    repeat (split; [first [exact V|reflexivity]|]).
    intros H. contradiction H. reflexivity.
  - destruct (validate_returns this st EmptyString) as [r V].
    { right. rewrite Hp. discriminate. }
    exists r. split; [exact V|]. split; [exact V|].
    destruct (validate_status _ _ _ _ V) as [(_ & C & _)|(S & _ & Em)].
    + simpl in C. rewrite Hp in C. discriminate.
    + split; [exact Em|]. split; [discriminate|]. intros _. exact S.
Qed.

(** ** Arity *)

Lemma bind_positionals_take (ps : list SmartOptionsPositionalArg)
    (tokens : list string) (m : Memory) :
  bind_positionals ps (take (length ps) tokens) m
    = bind_positionals ps tokens m.
Proof.
  revert tokens m. induction ps as [|p ps IH]; intros tokens m; simpl.
  - reflexivity.
  - destruct tokens as [|t tokens]; simpl; [reflexivity|]. apply IH.
Qed.

Lemma bind_positionals_other (ps : list SmartOptionsPositionalArg)
    (tokens : list string) (m : Memory) (a : nat) :
  ~ In a (map pos_destVariable ps) ->
  strs (bind_positionals ps tokens m) !! a = strs m !! a.
Proof.
  revert tokens m. induction ps as [|p ps IH]; intros tokens m H; simpl.
  - reflexivity.
  - destruct tokens as [|t tokens]; [reflexivity|].
    rewrite IH by (intros C; apply H; right; exact C).
    simpl. apply lookup_insert_ne. intros E. apply H. left. exact E.
Qed.

Lemma bind_positionals_bools (ps : list SmartOptionsPositionalArg)
    (tokens : list string) (m : Memory) :
  bools (bind_positionals ps tokens m) = bools m.
Proof.
  revert tokens m. induction ps as [|p ps IH]; intros tokens m; simpl.
  - reflexivity.
  - destruct tokens as [|t tokens]; [reflexivity|]. rewrite IH. reflexivity.
Qed.

(** With distinct destinations, the i-th destination holds the i-th
    token. *)
Lemma bind_positionals_lookup (ps : list SmartOptionsPositionalArg)
    (tokens : list string) (m : Memory) (i : nat)
    (p : SmartOptionsPositionalArg) (t : string) :
  NoDup (map pos_destVariable ps) ->
  ps !! i = Some p -> tokens !! i = Some t ->
  strs (bind_positionals ps tokens m) !! pos_destVariable p
    = Some (Some t).
Proof.
  revert tokens m i. induction ps as [|q ps IH]; intros tokens m i N Hp Ht;
    [discriminate|].
  destruct tokens as [|x tokens]; [discriminate|].
  inversion N as [|d l Hnin N']. subst. simpl.
  destruct i as [|i]; simpl in Hp, Ht.
  - inversion Hp. inversion Ht. subst.
    rewrite bind_positionals_other
      by (intros C; apply Hnin, list_elem_of_In, C).
    simpl. apply lookup_insert_eq.
  - apply (IH _ _ i N' Hp Ht).
Qed.

(** Arity, outside the defect: for tokens none of which begins with the marker,
    as many tokens as positional rules give SMARTOPTIONS_SUCCESS, any other
    number gives SMARTOPTIONS_INVALID_NUMBEROF_ARGUMENTS unless auto-help is
    on and no positional rule is registered; in both cases the tokens were
    bound in order to the destinations of the rules. *)
Lemma positional_arity (this : SmartOptions) (m : Memory) (prog : string)
    (tokens : list string) :
  Forall not_marker tokens ->
  (length tokens = length (posArgs this) ->
   ProcessCommandArgs this m (length (prog :: tokens)) (prog :: tokens)
     = inr (mkResult SMARTOPTIONS_SUCCESS
              (bind_positionals (posArgs this) tokens m) []))
  /\ (length tokens <> length (posArgs this) ->
      autoPrintHelp this = false \/ posArgs this <> [] ->
      exists r,
        ProcessCommandArgs this m (length (prog :: tokens)) (prog :: tokens)
          = inr r
        /\ status r = SMARTOPTIONS_INVALID_NUMBEROF_ARGUMENTS
        /\ memory r
           = bind_positionals (posArgs this)
               (take (length (posArgs this)) tokens) m).
Proof.
  intros H. rewrite ProcessCommandArgs_scan, (scan_positionals _ _ _ _ H).
  simpl bind. cbv iota.
  change (strPosArgErrMsg (after_positionals this m tokens))
    with (surplus_open (appName this)
            (drop (length (posArgs this)) tokens)).
  destruct (close_surplus_message_returns (appName this)
              (drop (length (posArgs this)) tokens)) as (msg & E & Hm).
  rewrite E. simpl bind. split.
  - intros L. unfold validate. simpl posArgsCount. simpl posArgs.
    rewrite L, Nat.eqb_refl. reflexivity.
  - intros L A.
    destruct (validate_returns
                (useCommandArgs this (length (prog :: tokens))
                   (prog :: tokens))
                (after_positionals this m tokens) msg A) as (r & V).
    exists r. split; [exact V|].
    apply validate_status in V.
    destruct V as [(_ & C & _)|(S & _ & M)]; [simpl in C; congruence|].
    split; [exact S|]. rewrite M. simpl.
    symmetry. apply bind_positionals_take.
Qed.

(** ** The text of the surplus message *)

Lemma concat_snoc (sep : string) (l : list string) (x : string) :
  l <> [] ->
  String.concat sep (l ++ [x]) = String.concat sep l +:+ sep +:+ x.
Proof.
  induction l as [|a l IH]; intros H; [congruence|].
  destruct l as [|b l].
  - reflexivity.
  - change (String.concat sep ((a :: b :: l) ++ [x]))
      with (a +:+ sep +:+ String.concat sep ((b :: l) ++ [x])).
    rewrite IH by discriminate.
    change (String.concat sep (a :: b :: l))
      with (a +:+ sep +:+ String.concat sep (b :: l)).
    rewrite !append_assoc. reflexivity.
Qed.

(** The open message lists the surplus tokens joined by ", ". *)
Lemma surplus_open_concat (app t : string) (ts : list string) :
  surplus_open app (t :: ts)
    = app +:+ ": Error, invalid number of mandatory arguments ("
        +:+ String.concat ", " (t :: ts).
Proof.
  induction ts as [|x ts IH] using rev_ind; [reflexivity|].
  change (t :: ts ++ [x]) with ((t :: ts) ++ [x]).
  rewrite surplus_open_snoc, surplus_open_nonempty, IH.
  rewrite concat_snoc by discriminate.
  rewrite !append_assoc. reflexivity.
Qed.

(** Two surplus tokens or more, the last without a comma: the separator
    before the last token becomes " & ". *)
Lemma close_surplus_several (app : string) (init : list string)
    (last : string) :
  init <> [] -> has_char "," last = false ->
  close_surplus_message (surplus_open app (init ++ [last]))
    = inr (app +:+ ": Error, invalid number of mandatory arguments ("
             +:+ String.concat ", " init +:+ " & " +:+ last +:+ ")").
Proof.
  intros Hi Hl. destruct init as [|t ts]; [congruence|].
  unfold close_surplus_message.
  change ((t :: ts) ++ [last]) with (t :: ts ++ [last]).
  rewrite surplus_open_nonempty. simpl negb. cbv iota.
  change (t :: ts ++ [last]) with ((t :: ts) ++ [last]).
  rewrite surplus_open_snoc, surplus_open_nonempty, surplus_open_concat.
  match goal with
  | |- str_replace ?s _ _ _ = _ =>
      replace s
        with ((app +:+ ": Error, invalid number of mandatory arguments ("
                 +:+ String.concat ", " (t :: ts))
                +:+ String "," (" " +:+ last +:+ ")"))
        by (rewrite !append_assoc; reflexivity)
  end.
  rewrite str_replace_last.
  - rewrite !append_assoc. reflexivity.
  - rewrite !has_char_append, Hl. reflexivity.
Qed.

(** One surplus token without a comma: the comma that is rewritten is the
    one after "Error". *)
Lemma close_surplus_single (app t : string) :
  has_char "," t = false ->
  close_surplus_message (surplus_open app [t])
    = inr (app +:+ ": Error & invalid number of mandatory arguments ("
             +:+ t +:+ ")").
Proof.
  intros Ht. unfold close_surplus_message.
  rewrite surplus_open_nonempty. simpl negb. cbv iota.
  simpl surplus_open.
  match goal with
  | |- str_replace ?s _ _ _ = _ =>
      replace s
        with ((app +:+ ": Error")
                +:+ String ","
                      (" invalid number of mandatory arguments ("
                         +:+ t +:+ ")"))
        by (rewrite !append_assoc; reflexivity)
  end.
  rewrite str_replace_last.
  - rewrite !append_assoc. reflexivity.
  - rewrite !has_char_append, Ht. reflexivity.
Qed.

(** The message of a parse of positional tokens is the closed list of the
    tokens beyond the positional rules. *)
Lemma surplus_message_positionals (this : SmartOptions) (m : Memory)
    (prog : string) (tokens : list string) :
  Forall not_marker tokens ->
  surplus_message this m (length (prog :: tokens)) (prog :: tokens)
    = close_surplus_message
        (surplus_open (appName this)
           (drop (length (posArgs this)) tokens)).
Proof.
  intros H. unfold surplus_message.
  rewrite (scan_positionals _ _ _ _ H). reflexivity.
Qed.

(** Where the check of the number of tokens throws: no positional rule,
    auto-help on, and one surplus token, with no comma in the program name
    nor in the token. *)
Lemma check_throws_without_rules (this : SmartOptions) (m : Memory)
    (prog t : string) :
  posArgs this = [] -> autoPrintHelp this = true ->
  has_char "," (appName this) = false -> has_char "," t = false ->
  not_marker t ->
  ProcessCommandArgs this m 2 [prog; t] = inl OutOfRange.
Proof.
  intros P A Ha Ht Hn.
  change 2%nat with (length [prog; t]).
  rewrite ProcessCommandArgs_scan.
  rewrite (scan_positionals this m prog [t])
    by (constructor; [exact Hn|constructor]).
  simpl bind. cbv iota.
  change (strPosArgErrMsg (after_positionals this m [t]))
    with (surplus_open (appName this) (drop (length (posArgs this)) [t])).
  rewrite P. simpl drop. rewrite (close_surplus_single _ _ Ht).
  simpl bind. unfold validate. simpl. rewrite P, A. simpl.
  rewrite !str_empty_append. simpl. rewrite andb_false_r.
  match goal with
  | |- context [str_erase_last ?s 2] =>
      replace s
        with ((appName this
                 +:+ ": Error & invalid number of mandatory arguments ("
                 +:+ t +:+ "). The mandatory parameters ar") +:+ "e ")
        by (rewrite !append_assoc; reflexivity)
  end.
  change 2%nat with (String.length "e ") at 1.
  rewrite str_erase_last_append. simpl bind.
  rewrite rfind_no_char; [reflexivity|].
  rewrite !has_char_append, Ha, Ht. reflexivity.
Qed.

(** ** The bound on the loop is a device of the model *)

Lemma str_replace_fault (s r : string) (pos : option nat) (len : nat)
    (e : Fault) :
  str_replace s pos len r = inl e -> e = OutOfRange.
Proof.
  unfold str_replace. destruct pos as [p|].
  - destruct (_ <? _)%nat; intros H; inversion H. reflexivity.
  - intros H. inversion H. reflexivity.
Qed.

Lemma str_erase_last_fault (s : string) (n : nat) (e : Fault) :
  str_erase_last s n = inl e -> e = OutOfRange.
Proof.
  unfold str_erase_last. destruct (_ <? _)%nat; intros H; inversion H.
  reflexivity.
Qed.

Lemma validate_no_fuel_fault (this : SmartOptions) (st : Locals)
    (msg : string) :
  validate this st msg <> inl OutOfFuel.
Proof.
  unfold validate. destruct (negb _); [|discriminate].
  destruct (autoPrintHelp this); [|discriminate].
  destruct (_ =? 1)%nat.
  { destruct (posArgs this); discriminate. }
  simpl.
  destruct (str_erase_last _ _) as [e|msg1] eqn:R1; simpl.
  { apply str_erase_last_fault in R1. subst e. discriminate. }
  destruct (str_replace _ _ _ _) as [e|msg2] eqn:R2; simpl.
  { apply str_replace_fault in R2. subst e. discriminate. }
  discriminate.
Qed.

(** [ProcessCommandArgs] never stops for lack of iterations: what it
    yields is a result, a read past the end or a throw of the code. *)
Lemma ProcessCommandArgs_no_fuel_fault (this : SmartOptions) (m : Memory)
    (argc : nat) (argv : list string) :
  ProcessCommandArgs this m argc argv <> inl OutOfFuel.
Proof.
  rewrite ProcessCommandArgs_scan. unfold scan.
  destruct (for_loop _ _ _ _) as [e|[st|r st]] eqn:F; simpl.
  - intros E. inversion E. subst e.
    refine (for_loop_no_fuel_fault _ _ _ _ _ F). cbn. lia.
  - unfold close_surplus_message.
    destruct (negb _).
    + destruct (str_replace _ _ _ _) as [e|msg] eqn:R; simpl.
      { apply str_replace_fault in R. subst e. discriminate. }
      apply validate_no_fuel_fault.
    + apply validate_no_fuel_fault.
  - discriminate.
Qed.

(** ** The messages about the number of arguments *)

(** C8, on the data of [testPositionalArgument_1_2_Fail]: with one
    positional rule and the tokens PositionArgument-1 PositionArgument-2,
    the message closed at lines 417-421 has lost the comma after "Error";
    with auto-help on, that is the line printed. *)
Theorem single_surplus_token_message :
  surplus_message (fst (one_positional false)) (snd (one_positional false))
      3 ["SmartOptions"; POSITIONAL_ARGUMENT_1; POSITIONAL_ARGUMENT_2]
    = inr "SmartOptionsTest: Error & invalid number of mandatory arguments (PositionArgument-2)"
  /\ ProcessCommandArgs (fst (one_positional true))
       (snd (one_positional true)) 3
       ["SmartOptions"; POSITIONAL_ARGUMENT_1; POSITIONAL_ARGUMENT_2]
     = inr (mkResult SMARTOPTIONS_INVALID_NUMBEROF_ARGUMENTS
              (store_str 1 (Some POSITIONAL_ARGUMENT_1) no_memory)
              [Line "SmartOptionsTest: Error & invalid number of mandatory arguments (PositionArgument-2). The only mandatory parameter is 'posArg_1'";
               Help]).
Proof. split; vm_compute; reflexivity. Qed.

(** C1, at an object without positional rules and with auto-help on: one
    positional token makes [ProcessCommandArgs] throw [std::out_of_range]
    from [replace] at line 443 instead of returning
    SMARTOPTIONS_INVALID_NUMBEROF_ARGUMENTS. *)
Theorem surplus_token_without_rules_throws :
  ProcessCommandArgs (SmartOptions_new "App" true) no_memory 2 ["App"; "x"]
    = inl OutOfRange.
Proof. vm_compute. reflexivity. Qed.

(** ** The statements as first written, at shared identifiers *)

(** C2 as stated, on a flag and an option that share the identifier [o] and
    the single token -o: the token is the last one, its identifier is that
    of a registered option and it has no attached value, yet the flag
    processes it and the parse succeeds. *)
Lemma invalid_argument_stated_counterexample :
  ~ (returns_status (fst flag_and_option_o) (snd flag_and_option_o)
       ["App"; "-o"] SMARTOPTIONS_INVALID_ARGUMENT
     <-> invalid_argument_stated (fst flag_and_option_o)
           (snd flag_and_option_o) ["App"; "-o"]).
Proof.
  intros [_ H].
  assert (invalid_argument_stated (fst flag_and_option_o)
            (snd flag_and_option_o) ["App"; "-o"]) as S.
  { exists (init_locals (snd flag_and_option_o)), "o".
    split; [split; [apply rtc_refl|simpl; lia]|].
    split; [reflexivity|]. right.
    split; [constructor; reflexivity|]. split; reflexivity. }
  destruct (H S) as (r & E & Hs). vm_compute in E. inversion E. subst r.
  discriminate.
Qed.

(** C3 as stated, on the same object and the value "value": the option
    [o] is registered and no positional rule is, yet the attached form
    leaves the destination of the option unset (and the separated form
    returns SMARTOPTIONS_INVALID_NUMBEROF_ARGUMENTS). *)
Lemma attached_and_separated_counterexample :
  ~ binds_alike_stated (fst flag_and_option_o) (snd flag_and_option_o)
      "App" "o" "value" (mkOptionArg (mkArg "o" None "VALUE" "an option") 2).
Proof.
  intros H.
  destruct H as [(r & E & _ & B) _];
    [left; reflexivity|reflexivity|reflexivity|discriminate|reflexivity|].
  vm_compute in E. inversion E. subst r. vm_compute in B. discriminate.
Qed.

(** C6 as stated, on the same object and the tokens -o value: the first
    token carries the identifier of a registered option, has no attached
    value and is not the last one, yet the flag processes it and the
    index moves to the next token, which the scan classifies. *)
Lemma separated_value_counterexample :
  ~ separated_value_stated (fst flag_and_option_o) (snd flag_and_option_o)
      ["App"; "-o"; "value"] (init_locals (snd flag_and_option_o)) "o".
Proof.
  intros H.
  destruct H as (o & v & st' & _ & _ & _ & B & _ & I & _).
  - split; [apply rtc_refl|simpl; lia].
  - reflexivity.
  - constructor. reflexivity.
  - reflexivity.
  - simpl. lia.
  - vm_compute in B. inversion B. subst st'. simpl in I. discriminate.
Qed.

(** C10 as stated, on two flags that share the identifier [c] and the token
    -cxyz: the second flag is registered with identifier [c], yet its
    destination is still false after the token. *)
Lemma flag_ignores_trailing_text_counterexample :
  ~ flag_set_stated (useCommandArgs (fst two_flags_c) 2 ["App"; "-cxyz"]) 2
      (init_locals (snd two_flags_c)) "c" "xyz"
      (mkFlagArg (mkArg "c" None EmptyString "second") 2).
Proof.
  intros H.
  destruct H as (st' & B & T & _);
    [right; left; reflexivity|reflexivity|discriminate|reflexivity|].
  vm_compute in B. inversion B. subst st'. vm_compute in T. discriminate.
Qed.

(** ** The theorems at concrete inputs *)

(** [testOption_1_SS_Pass] and its separated form: -oOptionArgument-O and
    -o OptionArgument-O bind variable 1 alike. *)
Lemma attached_and_separated_bind_alike_witness :
  exists r,
    ProcessCommandArgs (fst mixed_rules) (snd mixed_rules) 2
      ["App"; String "-" (String "o" "file")] = inr r
    /\ ProcessCommandArgs (fst mixed_rules) (snd mixed_rules) 3
         ["App"; String "-" (String "o" EmptyString); "file"] = inr r
    /\ memory r = store_str 2 (Some "file") (snd mixed_rules)
    /\ (posArgs (fst mixed_rules) = [] ->
        r = mkResult SMARTOPTIONS_SUCCESS
              (store_str 2 (Some "file") (snd mixed_rules)) [])
    /\ (posArgs (fst mixed_rules) <> [] ->
        status r = SMARTOPTIONS_INVALID_NUMBEROF_ARGUMENTS).
Proof.
  apply (attached_and_separated_bind_alike (fst mixed_rules)
           (snd mixed_rules) "App" "o" "file"
           (mkOptionArg (mkArg "o" None "FILE" "output") 2)).
  - discriminate.
  - repeat constructor. discriminate.
  - reflexivity.
  - discriminate.
  - reflexivity.
Defined.

(** The token -o on a flag and an option that share [o]: the flag's
    variable 1 becomes true and no string variable is written. *)
Lemma flags_before_options_first_match_wins_witness :
  (exists fs1 f fs2,
     flags (fst flag_and_option_o) = fs1 ++ f :: fs2
     /\ Forall (fun h => prefixShort (flag_base h) <> cstr_deref "o") fs1
     /\ prefixShort (flag_base f) = cstr_deref "o"
     /\ exists st',
          loop_body (useCommandArgs (fst flag_and_option_o) 2 ["App"; "-o"])
              2 (init_locals (snd flag_and_option_o))
            = inr (Continue st')
          /\ bools (mem st')
               = <[flag_destVariable f := true]>
                   (bools (mem (init_locals (snd flag_and_option_o))))
          /\ strs (mem st')
               = strs (mem (init_locals (snd flag_and_option_o))))
  /\ (exists st',
        loop_body (useCommandArgs (fst two_options_o) 2 ["App"; "-ovalue"])
            2 (init_locals (snd two_options_o))
          = inr (Continue st')
        /\ bools (mem st') = bools (snd two_options_o)
        /\ strs (mem st')
             = <[1%nat := Some "value"]> (strs (snd two_options_o)))
  /\ (exists st',
        loop_body
            (useCommandArgs (fst two_options_o) 3 ["App"; "-o"; "value"])
            3 (init_locals (snd two_options_o))
          = inr (Continue st')
        /\ bools (mem st') = bools (snd two_options_o)
        /\ strs (mem st')
             = <[1%nat := Some "value"]> (strs (snd two_options_o))).
Proof.
  split; [|split].
  - apply (proj1 (flags_before_options_first_match_wins
                    (useCommandArgs (fst flag_and_option_o) 2 ["App"; "-o"])
                    2 (init_locals (snd flag_and_option_o)) "o" eq_refl)
             (mkFlagArg (mkArg "o" None EmptyString "a flag") 1)).
    + left. reflexivity.
    + reflexivity.
  - destruct (proj2 (flags_before_options_first_match_wins
                       (useCommandArgs (fst two_options_o) 2
                          ["App"; "-ovalue"])
                       2 (init_locals (snd two_options_o)) "ovalue" eq_refl)
                (mkOptionArg (mkArg "o" None "SECOND" "the second option") 2)
                ltac:(right; left; reflexivity) eq_refl
                ltac:(constructor))
      as (os1 & o & os2 & E & Hn & Hp & _ & A & _).
    destruct os1 as [|x os1]; simpl in E.
    + injection E as <- _.
      exact (A "v"%char eq_refl ltac:(discriminate)).
    + injection E as <- _. inversion Hn as [|? ? Hx _].
      contradiction Hx. reflexivity.
  - destruct (proj2 (flags_before_options_first_match_wins
                       (useCommandArgs (fst two_options_o) 3
                          ["App"; "-o"; "value"])
                       3 (init_locals (snd two_options_o)) "o" eq_refl)
                (mkOptionArg (mkArg "o" None "SECOND" "the second option") 2)
                ltac:(right; left; reflexivity) eq_refl
                ltac:(constructor))
      as (os1 & o & os2 & E & Hn & Hp & _ & _ & S & _).
    destruct os1 as [|x os1]; simpl in E.
    + injection E as <- _.
      exact (S "value" eq_refl ltac:(simpl; lia) eq_refl).
    + injection E as <- _. inversion Hn as [|? ? Hx _].
      contradiction Hx. reflexivity.
Defined.

(** The tokens -o -v input on the mixed rules: -v is taken for the value of
    the option and is never classified as the flag. *)
Lemma separated_value_consumed_witness :
  exists o v st',
    lookup_option (cstr_deref "o") (options (fst mixed_rules)) = Some o
    /\ ["App"; "-o"; "-v"; "input"] !! 2%nat = Some v
    /\ loop_body (useCommandArgs (fst mixed_rules) 4
                    ["App"; "-o"; "-v"; "input"]) 4
         (init_locals (snd mixed_rules))
         = inr (Continue st')
    /\ mem st' = store_str (opt_destVariable o) (Some v) (snd mixed_rules)
    /\ index st' = 3%nat
    /\ forall st'',
         scanned (fst mixed_rules) (snd mixed_rules)
           ["App"; "-o"; "-v"; "input"] st'' ->
         index st'' <> 2%nat.
Proof.
  apply (separated_value_consumed (fst mixed_rules) (snd mixed_rules)
           ["App"; "-o"; "-v"; "input"] (init_locals (snd mixed_rules)) "o").
  - split; [apply rtc_refl|simpl; lia].
  - reflexivity.
  - constructor. reflexivity.
  - constructor; [discriminate|constructor].
  - reflexivity.
  - simpl. lia.
Defined.

(** [testOption_1_SS_Fail] with one more token: -oOptionArgument-O is not
    processed when only [p] is registered, and the token after it is not
    scanned. *)
Lemma unprocessed_token_ends_parse_witness :
  (exists r,
     ProcessCommandArgs (AddOption (SmartOptions_new "SmartOptionsTest" false)
                           no_memory "p" (Some "optionP") "optArg_2"
                           "Help message for Option Argument 2" 2).1
         (store_str 2 None no_memory) 3
         ["SmartOptions"; String "-" (String "o" OPTION_ARGUMENT_1); "more"]
       = inr r
     /\ status r = SMARTOPTIONS_INVALID_ARGUMENT
     /\ memory r = store_str 2 None no_memory)
  /\ forall st',
       scanned (AddOption (SmartOptions_new "SmartOptionsTest" false)
                  no_memory "p" (Some "optionP") "optArg_2"
                  "Help message for Option Argument 2" 2).1
         (store_str 2 None no_memory)
         ["SmartOptions"; String "-" (String "o" OPTION_ARGUMENT_1); "more"]
         st' ->
       (index st' <= 1)%nat.
Proof.
  apply (unprocessed_token_ends_parse _ (store_str 2 None no_memory)
           ["SmartOptions"; String "-" (String "o" OPTION_ARGUMENT_1); "more"]
           (init_locals (store_str 2 None no_memory))
           (init_locals (store_str 2 None no_memory))
           (String "o" OPTION_ARGUMENT_1)).
  - split; [apply rtc_refl|simpl; lia].
  - reflexivity.
  - reflexivity.
  - reflexivity.
Defined.

(** The mixed rules on the tokens -ofile input: the parse succeeds, the
    flag [v] was never named, and its variable 1 is false. *)
Lemma unmatched_rules_stay_unset_witness :
  distinct_destinations (fst mixed_rules)
  /\ never_matched (fst mixed_rules) (snd mixed_rules)
       ["App"; "-ofile"; "input"] "v"
  /\ exists r,
       ProcessCommandArgs (fst mixed_rules) (snd mixed_rules) 3
         ["App"; "-ofile"; "input"] = inr r
       /\ status r = SMARTOPTIONS_SUCCESS
       /\ bools (memory r) !! 1%nat = Some false.
Proof.
  assert (distinct_destinations (fst mixed_rules)) as D.
  { split; simpl; repeat constructor; rewrite list_elem_of_In; simpl; lia. }
  assert (never_matched (fst mixed_rules) (snd mixed_rules)
            ["App"; "-ofile"; "input"] "v") as N.
  { intros st body [R L] Ht.
    assert (index st = 1 \/ index st = 2)%nat as [E|E].
    { apply reaches_index in R. simpl in R, L. lia. }
    - unfold marker_token in Ht. rewrite E in Ht. inversion Ht.
      discriminate.
    - unfold marker_token in Ht. rewrite E in Ht. inversion Ht. }
  assert (ProcessCommandArgs (fst mixed_rules) (snd mixed_rules)
            (length ["App"; "-ofile"; "input"]) ["App"; "-ofile"; "input"]
          = inr (mkResult SMARTOPTIONS_SUCCESS
                   (mkMemory {[ 1 := false ]}
                      {[ 2 := Some "file"; 3 := Some "input" ]}) [])) as E.
  { vm_compute. reflexivity. }
  split; [exact D|]. split; [exact N|].
  eexists. split; [exact E|]. split; [reflexivity|].
  apply (proj1 (unmatched_rules_stay_unset "App" false no_memory
                  [CallAddFlag "v" None "verbose" 1;
                   CallAddOption "o" None "FILE" "output" 2;
                   CallAddPositionalArgument "input" "input file" 3]
                  (fst mixed_rules) (snd mixed_rules)
                  ["App"; "-ofile"; "input"]
                  _ eq_refl D E eq_refl)
           (mkFlagArg (mkArg "v" None EmptyString "verbose") 1)).
  - left. reflexivity.
  - exact N.
Defined.

(** The token -verbose on the mixed rules sets the flag [v]. *)
Lemma flag_ignores_trailing_text_witness :
  loop_body (useCommandArgs (fst mixed_rules) 2 ["App"; "-verbose"]) 2
      (init_locals (snd mixed_rules))
    = inr (Continue
             (set_index 2
                (set_mem (store_bool 1 true (snd mixed_rules))
                   (init_locals (snd mixed_rules))))).
Proof.
  apply (flag_ignores_trailing_text
           (useCommandArgs (fst mixed_rules) 2 ["App"; "-verbose"]) 2
           (init_locals (snd mixed_rules)) "v" "erbose"
           (mkFlagArg (mkArg "v" None EmptyString "verbose") 1)).
  - reflexivity.
  - reflexivity.
Defined.


(** * Further properties of the parse *)

(** ** What an iteration keeps *)

(** An iteration that goes on prints nothing and records no message about
    a missing value. *)
Lemma loop_body_keeps (this : SmartOptions) (argc : nat) (st st' : Locals) :
  loop_body this argc st = inr (Continue st') ->
  out st' = out st /\ strErrMessage st' = strErrMessage st.
Proof.
  unfold loop_body, argV_at. intros H.
  destruct (argV this !! index st) as [token|]; simpl in H; [|discriminate].
  destruct (Ascii.eqb "-" (cstr_deref token)).
  - rewrite flag_or_option_eq in H.
    destruct (lookup_flag _ _); simpl in H; [inversion H; auto|].
    destruct (lookup_option _ _); simpl in H; [|discriminate].
    destruct (cstr_at _ 1) as [e|c1]; simpl in H; [discriminate|].
    destruct (negb _); simpl in H; [inversion H; auto|].
    destruct (_ <=? _)%nat; simpl in H; [discriminate|].
    destruct (argV_at _ _); simpl in H; [discriminate|].
    inversion H. auto.
  - unfold positional in H.
    destruct (_ <? _)%nat.
    + destruct (posArgs this !! posArgsIt st); simpl in H; [|discriminate].
      inversion H. auto.
    + destruct (str_empty _); simpl in H; inversion H; auto.
Qed.

Lemma reaches_keeps (this : SmartOptions) (argc : nat) (st st' : Locals) :
  reaches this argc st st' ->
  out st' = out st /\ strErrMessage st' = strErrMessage st.
Proof.
  induction 1 as [|st st1 st2 [_ B] _ IH]; [auto|].
  destruct (loop_body_keeps _ _ _ _ B) as [Ho He].
  destruct IH as [Io Ie]. split; congruence.
Qed.

(** The ways [ProcessCommandArgs] returns: from the check after the loop,
    at a token with an identifier nobody registered, or at a last token
    whose option lacks its value. *)
Lemma ProcessCommandArgs_cases (this : SmartOptions) (m : Memory)
    (argc : nat) (argv : list string) (r : Result) :
  ProcessCommandArgs this m argc argv = inr r ->
  exists st,
    reaches (useCommandArgs this argc argv) argc (init_locals m) st
    /\ ((exists msg,
           (argc <= index st)%nat
           /\ close_surplus_message (strPosArgErrMsg st) = inr msg
           /\ validate (useCommandArgs this argc argv) st msg = inr r)
        \/ (exists body,
              (index st < argc)%nat
              /\ argv !! index st = Some (String "-" body)
              /\ lookup_flag (cstr_deref body) (flags this) = None
              /\ lookup_option (cstr_deref body) (options this) = None
              /\ r = mkResult SMARTOPTIONS_INVALID_ARGUMENT (mem st)
                       (out (report_invalid
                               (useCommandArgs this argc argv) body st)))
        \/ (exists body o,
              (index st < argc)%nat
              /\ argv !! index st = Some (String "-" body)
              /\ lookup_flag (cstr_deref body) (flags this) = None
              /\ lookup_option (cstr_deref body) (options this) = Some o
              /\ cstr_at body 1 = inr NULL_TERMINATE
              /\ (argc - 1 <= index st)%nat
              /\ r = mkResult SMARTOPTIONS_INVALID_ARGUMENT (mem st)
                       (out (report_invalid
                               (useCommandArgs this argc argv) body
                               (set_strErrMessage
                                  (missing_value_message (cstr_deref body))
                                  st))))).
Proof.
  intros H. rewrite ProcessCommandArgs_scan in H.
  destruct (scan this m argc argv) as [e|[st|s st]] eqn:S; simpl in H;
    [discriminate| |]; rewrite scan_run in S.
  - apply run_continue in S. destruct S as [R L].
    apply bind_inr in H. destruct H as (msg & C & V).
    exists st. split; [exact R|]. left. exists msg. auto.
  - apply run_return in S. destruct S as (st1 & R & L & B).
    exists st1. split; [exact R|]. right.
    destruct (loop_body_return_inv _ _ _ _ _ B)
      as (-> & body & Ht & Hf & [Ho|([o Ho] & Hc & Hl)]).
    + left. exists body.
      rewrite (loop_body_unknown _ _ _ _ Ht Hf Ho) in B.
      inversion B. subst st. inversion H. auto 10.
    + right. exists body, o.
      rewrite (loop_body_missing _ _ _ _ _ Ht Hf Ho Hc Hl) in B.
      inversion B. subst st. inversion H. auto 10.
Qed.

Lemma report_invalid_out (this : SmartOptions) (token : string)
    (st : Locals) :
  out st = [] ->
  out (report_invalid this token st)
    = if autoPrintHelp this
      then [Line (appName this
                    +:+ (if str_empty (strErrMessage st)
                         then ": Error, invalid argument '-"
                                +:+ String (cstr_deref token) "'."
                         else strErrMessage st));
            Help]
      else [].
Proof.
  intros H. unfold report_invalid, AutoPrintHelp. simpl. rewrite H.
  destruct (autoPrintHelp this); [|reflexivity].
  destruct (str_empty _); reflexivity.
Qed.

Lemma validate_out (this : SmartOptions) (st : Locals) (msg : string)
    (r : Result) :
  validate this st msg = inr r -> out st = [] ->
  (status r = SMARTOPTIONS_SUCCESS /\ output r = [])
  \/ (status r = SMARTOPTIONS_INVALID_NUMBEROF_ARGUMENTS
      /\ ((autoPrintHelp this = false /\ output r = [])
          \/ (autoPrintHelp this = true
              /\ exists l, output r = [Line l; Help]))).
Proof.
  unfold validate, AutoPrintHelp. intros H Ho.
  destruct (negb _); [|inversion H; left; auto].
  right. destruct (autoPrintHelp this).
  - apply bind_inr in H. destruct H as (o & Hl & H).
    apply bind_inr in Hl. destruct Hl as (l & _ & Hl).
    inversion Hl. subst o. rewrite Ho in H. inversion H. simpl. eauto.
  - simpl in H. inversion H. auto.
Qed.

(** ** What the parse prints *)

(** X1. With auto-help off, [ProcessCommandArgs] prints nothing, whatever
    the rules, the arguments and the status it returns. *)
Theorem silent_without_auto_help (this : SmartOptions) (m : Memory)
    (argc : nat) (argv : list string) (r : Result) :
  autoPrintHelp this = false ->
  ProcessCommandArgs this m argc argv = inr r ->
  output r = [].
Proof.
  intros A H.
  destruct (ProcessCommandArgs_cases _ _ _ _ _ H) as (st & R & C).
  destruct (reaches_keeps _ _ _ _ R) as [Ho He]. simpl in Ho, He.
  destruct C as [(msg & _ & _ & V)|[(body & _ & _ & _ & _ & ->)
                                   |(body & o & _ & _ & _ & _ & _ & _ & ->)]].
  - destruct (validate_out _ _ _ _ V Ho)
      as [[_ E]|[_ [[_ E]|[A' _]]]]; try exact E.
    simpl in A'. congruence.
  - cbn [output status]. rewrite report_invalid_out by exact Ho.
    simpl autoPrintHelp. rewrite A.
    reflexivity.
  - cbn [output status]. rewrite report_invalid_out by exact Ho.
    simpl autoPrintHelp. rewrite A.
    reflexivity.
Qed.

(** X2. With auto-help on, a parse that returns prints nothing when the
    status is SMARTOPTIONS_SUCCESS, and otherwise exactly one line followed
    by the help. *)
Theorem one_diagnostic_then_help (this : SmartOptions) (m : Memory)
    (argc : nat) (argv : list string) (r : Result) :
  autoPrintHelp this = true ->
  ProcessCommandArgs this m argc argv = inr r ->
  (status r = SMARTOPTIONS_SUCCESS -> output r = [])
  /\ (status r <> SMARTOPTIONS_SUCCESS ->
      exists line, output r = [Line line; Help]).
Proof.
  intros A H.
  destruct (ProcessCommandArgs_cases _ _ _ _ _ H) as (st & R & C).
  destruct (reaches_keeps _ _ _ _ R) as [Ho He]. simpl in Ho, He.
  destruct C as [(msg & _ & _ & V)|[(body & _ & _ & _ & _ & ->)
                                   |(body & o & _ & _ & _ & _ & _ & _ & ->)]].
  - destruct (validate_out _ _ _ _ V Ho)
      as [[S E]|[S [[A' _]|[_ E]]]].
    + split; [auto|congruence].
    + simpl in A'. congruence.
    + split; [congruence|auto].
  - cbn [output status]. rewrite report_invalid_out by exact Ho.
    simpl autoPrintHelp. rewrite A.
    split; [discriminate|eauto].
  - cbn [output status]. rewrite report_invalid_out by exact Ho.
    simpl autoPrintHelp. rewrite A.
    split; [discriminate|eauto].
Qed.

(** X3. The status of a parse that returns is never
    SMARTOPTIONS_SYSTEM_ERROR. *)
Theorem never_system_error (this : SmartOptions) (m : Memory)
    (argc : nat) (argv : list string) (r : Result) :
  ProcessCommandArgs this m argc argv = inr r ->
  status r <> SMARTOPTIONS_SYSTEM_ERROR.
Proof.
  intros H.
  destruct (ProcessCommandArgs_cases _ _ _ _ _ H) as (st & _ & C).
  destruct C as [(msg & _ & _ & V)|[(body & _ & _ & _ & _ & ->)
                                   |(body & o & _ & _ & _ & _ & _ & _ & ->)]];
    try discriminate.
  apply validate_status in V. destruct V as [(S & _)|(S & _)]; congruence.
Qed.

Lemma silent_without_auto_help_witness :
  exists r,
    ProcessCommandArgs (fst two_options) (snd two_options) 2
      ["SmartOptions"; "-z"] = inr r
    /\ status r = SMARTOPTIONS_INVALID_ARGUMENT
    /\ output r = [].
Proof.
  eexists. split; [vm_compute; reflexivity|]. split; [reflexivity|].
  apply (silent_without_auto_help (fst two_options) (snd two_options) 2
           ["SmartOptions"; "-z"]).
  - reflexivity.
  - vm_compute. reflexivity.
Defined.

Lemma one_diagnostic_then_help_witness :
  exists r,
    ProcessCommandArgs (fst two_options_help) (snd two_options_help) 2
      ["SmartOptions"; "-z"] = inr r
    /\ exists line, output r = [Line line; Help].
Proof.
  eexists. split; [vm_compute; reflexivity|].
  apply (one_diagnostic_then_help (fst two_options_help)
           (snd two_options_help) 2 ["SmartOptions"; "-z"]).
  - reflexivity.
  - vm_compute. reflexivity.
  - discriminate.
Defined.

Lemma never_system_error_witness :
  exists r,
    ProcessCommandArgs (fst two_options) (snd two_options) 2
      ["SmartOptions"; "-z"] = inr r
    /\ status r <> SMARTOPTIONS_SYSTEM_ERROR.
Proof.
  eexists. split; [vm_compute; reflexivity|].
  apply (never_system_error (fst two_options) (snd two_options) 2
           ["SmartOptions"; "-z"]).
  vm_compute. reflexivity.
Defined.

(** ** The text of the diagnostics *)

Lemma scanned_keeps (this : SmartOptions) (m : Memory)
    (argv : list string) (st : Locals) :
  scanned this m argv st ->
  out st = [] /\ strErrMessage st = EmptyString.
Proof. intros [R _]. apply (reaches_keeps _ _ _ _ R). Qed.

(** X4. With auto-help on, a scanned token whose identifier nobody
    registered ends the parse with SMARTOPTIONS_INVALID_ARGUMENT, the store
    as the scan had it, and the output: the program name followed by
    ": Error, invalid argument '-c'." for the identifier [c], then the
    help. *)
Theorem unknown_identifier_diagnostic (this : SmartOptions) (m : Memory)
    (argv : list string) (st : Locals) (body : string) :
  autoPrintHelp this = true ->
  scanned this m argv st ->
  marker_token argv st body ->
  no_flag this (cstr_deref body) ->
  no_option this (cstr_deref body) ->
  ProcessCommandArgs this m (length argv) argv
    = inr (mkResult SMARTOPTIONS_INVALID_ARGUMENT (mem st)
             [Line (appName this +:+ ": Error, invalid argument '-"
                      +:+ String (cstr_deref body) "'.");
              Help]).
Proof.
  intros A Hs Ht Hf Ho.
  apply lookup_flag_none in Hf. apply lookup_option_none in Ho.
  destruct (scanned_keeps _ _ _ _ Hs) as [Eo Ee].
  rewrite (ProcessCommandArgs_return _ _ _ st _ _ Hs
             (loop_body_unknown
                (useCommandArgs this (length argv) argv) (length argv)
                st body Ht Hf Ho)).
  rewrite report_invalid_out by exact Eo.
  simpl autoPrintHelp. simpl appName. rewrite A, Ee. reflexivity.
Qed.

Lemma unknown_identifier_diagnostic_witness :
  ProcessCommandArgs (fst two_options_help) (snd two_options_help) 3
    ["SmartOptions"; "-oOptionArgument-O"; "-z"]
  = inr (mkResult SMARTOPTIONS_INVALID_ARGUMENT
           (store_str 1 (Some OPTION_ARGUMENT_1) (snd two_options_help))
           [Line "SmartOptionsTest: Error, invalid argument '-z'."; Help]).
Proof.
  apply (unknown_identifier_diagnostic (fst two_options_help)
           (snd two_options_help)
           ["SmartOptions"; "-oOptionArgument-O"; "-z"]
           (set_index 2
              (set_mem
                 (store_str 1 (Some OPTION_ARGUMENT_1)
                    (snd two_options_help))
                 (init_locals (snd two_options_help)))) "z").
  - reflexivity.
  - split; [|simpl; lia]. apply rtc_once. split; [simpl; lia|].
    vm_compute. reflexivity.
  - reflexivity.
  - constructor.
  - repeat constructor; discriminate.
Defined.

(** X5. With auto-help on, a scanned last token that names an option (and
    no flag) without a value ends the parse with
    SMARTOPTIONS_INVALID_ARGUMENT, the store as the scan had it, and the
    output: the program name followed by
    ": Error, missing value for '-c' option." for the identifier [c], then
    the help. *)
Theorem missing_value_diagnostic (this : SmartOptions) (m : Memory)
    (argv : list string) (st : Locals) (body : string) :
  autoPrintHelp this = true ->
  scanned this m argv st ->
  marker_token argv st body ->
  no_flag this (cstr_deref body) ->
  some_option this (cstr_deref body) ->
  no_attached_value body ->
  last_token argv st ->
  ProcessCommandArgs this m (length argv) argv
    = inr (mkResult SMARTOPTIONS_INVALID_ARGUMENT (mem st)
             [Line (appName this +:+ ": Error, missing value for '-"
                      +:+ String (cstr_deref body) "' option.");
              Help]).
Proof.
  intros A Hs Ht Hf Ho Hc Hl.
  apply lookup_flag_none in Hf. apply some_option_lookup in Ho.
  destruct Ho as [o Ho].
  destruct (scanned_keeps _ _ _ _ Hs) as [Eo Ee].
  assert (length argv - 1 <= index st)%nat as L
    by (unfold last_token in Hl; lia).
  rewrite (ProcessCommandArgs_return _ _ _ st _ _ Hs
             (loop_body_missing
                (useCommandArgs this (length argv) argv) (length argv)
                st body o Ht Hf Ho Hc L)).
  rewrite report_invalid_out by exact Eo.
  simpl autoPrintHelp. simpl appName. rewrite A. reflexivity.
Qed.

Lemma missing_value_diagnostic_witness :
  ProcessCommandArgs (fst two_options_help) (snd two_options_help) 2
    ["SmartOptions"; "-o"]
  = inr (mkResult SMARTOPTIONS_INVALID_ARGUMENT (snd two_options_help)
           [Line "SmartOptionsTest: Error, missing value for '-o' option.";
            Help]).
Proof.
  apply (missing_value_diagnostic (fst two_options_help)
           (snd two_options_help) ["SmartOptions"; "-o"]
           (init_locals (snd two_options_help)) "o").
  - reflexivity.
  - split; [apply rtc_refl|simpl; lia].
  - reflexivity.
  - constructor.
  - constructor. reflexivity.
  - reflexivity.
  - reflexivity.
Defined.

(** ** What the parse writes *)

Lemma reaches_writes (this : SmartOptions) (argc : nat) (st0 st : Locals) :
  reaches this argc st0 st ->
  (forall a,
     bools (mem st) !! a = bools (mem st0) !! a
     \/ (bools (mem st) !! a = Some true
         /\ In a (flag_destinations this)))
  /\ (forall a,
        strs (mem st) !! a = strs (mem st0) !! a
        \/ ((exists v, strs (mem st) !! a = Some (Some v))
            /\ In a (string_destinations this))).
Proof.
  intros R. unfold reaches in R. revert st R.
  apply (rtc_ind_r
           (fun st =>
              (forall a,
                 bools (mem st) !! a = bools (mem st0) !! a
                 \/ (bools (mem st) !! a = Some true
                     /\ In a (flag_destinations this)))
              /\ (forall a,
                    strs (mem st) !! a = strs (mem st0) !! a
                    \/ ((exists v, strs (mem st) !! a = Some (Some v))
                        /\ In a (string_destinations this)))));
    [split; intros a; left; reflexivity|].
  intros st1 st2 _ [_ B] [Ib Is].
  destruct (loop_body_writes _ _ _ _ B) as (token & _ & W).
  destruct W as [body f Hf E|body v o Ho E|token p Hp E|token E];
    rewrite E; simpl; split; intros a; try apply Ib; try apply Is.
  - destruct (decide (flag_destVariable f = a)) as [<-|Hne].
    + right. split; [apply lookup_insert_eq|].
      apply in_map, (lookup_flag_In _ _ _ Hf).
    + rewrite lookup_insert_ne by exact Hne. apply Ib.
  - destruct (decide (opt_destVariable o = a)) as [<-|Hne].
    + right. split; [exists v; apply lookup_insert_eq|].
      apply in_or_app. left. apply in_map, (lookup_option_In _ _ _ Ho).
    + rewrite lookup_insert_ne by exact Hne. apply Is.
  - destruct (decide (pos_destVariable p = a)) as [<-|Hne].
    + right. split; [exists token; apply lookup_insert_eq|].
      apply in_or_app. right. apply in_map, Hp.
    + rewrite lookup_insert_ne by exact Hne. apply Is.
Qed.

Lemma ProcessCommandArgs_memory (this : SmartOptions) (m : Memory)
    (argc : nat) (argv : list string) (r : Result) :
  ProcessCommandArgs this m argc argv = inr r ->
  exists st,
    reaches (useCommandArgs this argc argv) argc (init_locals m) st
    /\ memory r = mem st.
Proof.
  intros H.
  destruct (ProcessCommandArgs_cases _ _ _ _ _ H) as (st & R & C).
  exists st. split; [exact R|].
  destruct C as [(msg & _ & _ & V)|[(body & _ & _ & _ & _ & ->)
                                   |(body & o & _ & _ & _ & _ & _ & _ & ->)]];
    try reflexivity.
  apply validate_status in V.
  destruct V as [(_ & _ & E & _)|(_ & _ & E)]; exact E.
Qed.

Lemma loop_body_stores (this : SmartOptions) (argc : nat)
    (st st' : Locals) :
  loop_body this argc st = inr (Continue st') ->
  strs (mem st') = strs (mem st)
  \/ exists a v,
       strs (mem st') = <[a := Some v]> (strs (mem st))
       /\ In a (string_destinations this)
       /\ exists i token,
            (index st <= i)%nat /\ argV this !! i = Some token
            /\ (v = token \/ exists c, token = String "-" (String c v)).
Proof.
  unfold loop_body, argV_at. intros H.
  destruct (argV this !! index st) as [token|] eqn:Ht; simpl in H;
    [|discriminate].
  destruct (Ascii.eqb "-" (cstr_deref token)) eqn:E.
  - apply marker_token_shape in E.
    rewrite flag_or_option_eq in H.
    destruct (lookup_flag _ _) as [f|] eqn:Hf; simpl in H.
    { inversion H. left. reflexivity. }
    destruct (lookup_option (cstr_deref (cstr_next token)) (options this))
      as [o|] eqn:Ho; simpl in H; [|discriminate].
    assert (In (opt_destVariable o) (string_destinations this)) as Hd.
    { apply in_or_app. left. apply in_map, (lookup_option_In _ _ _ Ho). }
    destruct (cstr_at (cstr_next token) 1) as [e|c1] eqn:Hc; simpl in H;
      [discriminate|].
    destruct (negb _); simpl in H.
    { inversion H. right.
      exists (opt_destVariable o), (cstr_next (cstr_next token)).
      split; [reflexivity|]. split; [exact Hd|].
      exists (index st), token. split; [lia|].
      split; [exact Ht|]. right.
      destruct (cstr_next token) as [|c body] eqn:Eb.
      - cbv in Hc. discriminate.
      - exists c. exact E. }
    destruct (_ <=? _)%nat; simpl in H; [discriminate|].
    unfold argV_at in H.
    destruct (argV this !! (index st + 1)%nat) as [v|] eqn:Hv; simpl in H;
      [|discriminate].
    inversion H. right. exists (opt_destVariable o), v.
    split; [reflexivity|]. split; [exact Hd|].
    exists (index st + 1)%nat, v. split; [lia|]. split; [exact Hv|].
    left. reflexivity.
  - unfold positional in H.
    destruct (_ <? _)%nat.
    + destruct (posArgs this !! posArgsIt st) as [p|] eqn:Hp; simpl in H;
        [|discriminate].
      inversion H. right. exists (pos_destVariable p), token.
      split; [reflexivity|]. split.
      * apply in_or_app. right. apply in_map, list_elem_of_In.
        eapply list_elem_of_lookup_2. exact Hp.
      * exists (index st), token. split; [lia|]. split; [exact Ht|].
        left. reflexivity.
    + destruct (str_empty _); simpl in H; inversion H; left; reflexivity.
Qed.

Lemma reaches_stores (this : SmartOptions) (argc : nat) (st0 st : Locals) :
  reaches this argc st0 st ->
  (1 <= index st0)%nat ->
  forall a,
    strs (mem st) !! a = strs (mem st0) !! a
    \/ ((exists v, strs (mem st) !! a = Some (Some v)
                   /\ token_text (argV this) v)
        /\ In a (string_destinations this)).
Proof.
  intros R L. unfold reaches in R. revert st R.
  apply (rtc_ind_r
           (fun st =>
              forall a,
                strs (mem st) !! a = strs (mem st0) !! a
                \/ ((exists v, strs (mem st) !! a = Some (Some v)
                               /\ token_text (argV this) v)
                    /\ In a (string_destinations this))));
    [intros a; left; reflexivity|].
  intros st1 st2 R1 [_ B] I a.
  apply reaches_index in R1.
  destruct (loop_body_stores _ _ _ _ B)
    as [E|(d & v & E & Hd & i & token & Hi & Ht & Hv)]; rewrite E;
    [apply I|].
  destruct (decide (d = a)) as [<-|Hne].
  - right. split; [|exact Hd]. exists v.
    split; [apply lookup_insert_eq|].
    exists i, token. split; [lia|]. split; assumption.
  - rewrite lookup_insert_ne by exact Hne. apply I.
Qed.

(** X6. Whatever it returns, [ProcessCommandArgs] changes the caller's
    variables only at registered destinations: a [bool] variable it
    changed is the destination of a flag and holds true; a string variable
    it changed is the destination of an option or of a positional rule and
    holds text of the command line, never NULL: a whole token after the
    program name, or what follows the marker and the identifier in one. *)
Theorem parse_writes_registered_destinations (this : SmartOptions)
    (m : Memory) (argc : nat) (argv : list string) (r : Result) :
  ProcessCommandArgs this m argc argv = inr r ->
  (forall a,
     bools (memory r) !! a = bools m !! a
     \/ (bools (memory r) !! a = Some true
         /\ In a (flag_destinations this)))
  /\ (forall a,
        strs (memory r) !! a = strs m !! a
        \/ ((exists v, strs (memory r) !! a = Some (Some v)
                       /\ token_text argv v)
            /\ In a (string_destinations this))).
Proof.
  intros H.
  destruct (ProcessCommandArgs_memory _ _ _ _ _ H) as (st & R & ->).
  split.
  - apply (reaches_writes _ _ _ _ R).
  - apply (reaches_stores _ _ _ _ R). simpl. lia.
Qed.

Lemma parse_writes_registered_destinations_witness :
  exists r,
    ProcessCommandArgs (fst mixed_rules) (snd mixed_rules) 4
      ["App"; "-v"; "-ofile"; "input"] = inr r
    /\ (bools (memory r) !! 1%nat = bools (snd mixed_rules) !! 1%nat
        \/ (bools (memory r) !! 1%nat = Some true
            /\ In 1%nat (flag_destinations (fst mixed_rules))))
    /\ (strs (memory r) !! 2%nat = strs (snd mixed_rules) !! 2%nat
        \/ ((exists v, strs (memory r) !! 2%nat = Some (Some v)
                       /\ token_text ["App"; "-v"; "-ofile"; "input"] v)
            /\ In 2%nat (string_destinations (fst mixed_rules)))).
Proof.
  eexists. split; [vm_compute; reflexivity|].
  split.
  - apply (proj1 (parse_writes_registered_destinations (fst mixed_rules)
                    (snd mixed_rules) 4 ["App"; "-v"; "-ofile"; "input"] _
                    ltac:(vm_compute; reflexivity))).
  - apply (proj2 (parse_writes_registered_destinations (fst mixed_rules)
                    (snd mixed_rules) 4 ["App"; "-v"; "-ofile"; "input"] _
                    ltac:(vm_compute; reflexivity))).
Defined.

(** ** When the parse returns *)

Lemma cstr_at_1_nonempty (c : ascii) (rest : string) :
  exists c1, cstr_at (String c rest) 1 = inr c1.
Proof.
  unfold cstr_at. destruct rest as [|c1 rest]; simpl; eauto.
Qed.

(** An iteration inside the argument vector returns when no option has the
    character 0 for its identifier. *)
Lemma loop_body_returns (this : SmartOptions) (st : Locals) :
  no_option this NULL_TERMINATE ->
  (index st < length (argV this))%nat ->
  exists s, loop_body this (length (argV this)) st = inr s.
Proof.
  intros Hn L.
  unfold loop_body. unfold argV_at at 1.
  destruct (lookup_lt_is_Some_2 _ _ L) as [token ->]. simpl.
  destruct (Ascii.eqb "-" (cstr_deref token)) eqn:E.
  - rewrite flag_or_option_eq.
    destruct (lookup_flag (cstr_deref (cstr_next token)) (flags this));
      simpl; [eauto|].
    destruct (lookup_option (cstr_deref (cstr_next token)) (options this))
      as [o|] eqn:Ho; simpl; [|eauto].
    destruct (cstr_next token) as [|c rest] eqn:B.
    { simpl in Ho. apply lookup_option_none in Hn. congruence. }
    destruct (cstr_at_1_nonempty c rest) as [c1 ->]. simpl.
    destruct (negb (Ascii.eqb NULL_TERMINATE c1)); simpl; [eauto|].
    destruct (length (argV this) - 1 <=? index st)%nat eqn:Hl; simpl;
      [eauto|].
    apply Nat.leb_gt in Hl. unfold argV_at.
    assert (index st + 1 < length (argV this))%nat as L1 by lia.
    destruct (lookup_lt_is_Some_2 _ _ L1) as [v ->].
    simpl. eauto.
  - unfold positional.
    destruct (posArgsIt st <? length (posArgs this))%nat eqn:P.
    + apply Nat.ltb_lt in P.
      destruct (lookup_lt_is_Some_2 _ _ P) as [p ->]. simpl. eauto.
    + destruct (str_empty (strPosArgErrMsg st)); simpl; eauto.
Qed.

(** The message about surplus tokens is empty or holds a comma. *)
Lemma loop_body_surplus (this : SmartOptions) (argc : nat)
    (st st' : Locals) :
  loop_body this argc st = inr (Continue st') ->
  str_empty (strPosArgErrMsg st) = true
  \/ has_char "," (strPosArgErrMsg st) = true ->
  str_empty (strPosArgErrMsg st') = true
  \/ has_char "," (strPosArgErrMsg st') = true.
Proof.
  unfold loop_body, argV_at. intros H I.
  destruct (argV this !! index st) as [token|]; simpl in H; [|discriminate].
  destruct (Ascii.eqb "-" (cstr_deref token)).
  - rewrite flag_or_option_eq in H.
    destruct (lookup_flag _ _); simpl in H; [inversion H; exact I|].
    destruct (lookup_option _ _); simpl in H; [|discriminate].
    destruct (cstr_at _ 1) as [e|c1]; simpl in H; [discriminate|].
    destruct (negb _); simpl in H; [inversion H; exact I|].
    destruct (_ <=? _)%nat; simpl in H; [discriminate|].
    destruct (argV_at _ _); simpl in H; [discriminate|].
    inversion H. exact I.
  - unfold positional in H.
    destruct (_ <? _)%nat.
    + destruct (posArgs this !! posArgsIt st); simpl in H; [|discriminate].
      inversion H. exact I.
    + destruct (str_empty _) eqn:E; simpl in H; inversion H; simpl; right.
      * rewrite !has_char_append.
        replace (has_char ","
                   ": Error, invalid number of mandatory arguments (")
          with true by reflexivity.
        rewrite orb_true_r. reflexivity.
      * rewrite !has_char_append.
        replace (has_char "," ", ") with true by reflexivity.
        rewrite orb_true_r. reflexivity.
Qed.

Lemma run_returns (this : SmartOptions) (st : Locals) :
  no_option this NULL_TERMINATE ->
  str_empty (strPosArgErrMsg st) = true
  \/ has_char "," (strPosArgErrMsg st) = true ->
  exists s,
    run this (length (argV this)) st = inr s
    /\ (str_empty (strPosArgErrMsg (locals_of s)) = true
        \/ has_char "," (strPosArgErrMsg (locals_of s)) = true
        \/ exists r st', s = Return r st').
Proof.
  intros Hn.
  remember (length (argV this) - index st)%nat as n eqn:En. revert st En.
  induction n as [n IH] using lt_wf_ind. intros st En I.
  destruct (Nat.lt_ge_cases (index st) (length (argV this))) as [L|L].
  - rewrite run_body by exact L.
    destruct (loop_body_returns this st Hn L) as [[st1|r st1] B];
      rewrite B; simpl.
    + pose proof (loop_body_index _ _ _ _ B) as Hi.
      apply (IH (length (argV this) - index st1)%nat ltac:(lia) st1 eq_refl).
      apply (loop_body_surplus _ _ _ _ B I).
    + eexists. split; [reflexivity|]. right. right. eauto.
  - rewrite run_exit by exact L. eexists. split; [reflexivity|].
    simpl. destruct I; auto.
Qed.

Lemma close_surplus_message_total (msg : string) :
  str_empty msg = true \/ has_char "," msg = true ->
  exists msg', close_surplus_message msg = inr msg'.
Proof.
  intros I. unfold close_surplus_message.
  destruct (str_empty msg) eqn:E; simpl; [eauto|].
  destruct I as [I|I]; [discriminate|].
  apply str_replace_has_char. rewrite has_char_append, I. reflexivity.
Qed.

Lemma ProcessCommandArgs_output (this : SmartOptions) (m : Memory)
    (argc : nat) (argv : list string) (r : Result) :
  ProcessCommandArgs this m argc argv = inr r ->
  output r = []
  \/ (autoPrintHelp this = true /\ exists line, output r = [Line line; Help]).
Proof.
  intros H.
  destruct (ProcessCommandArgs_cases _ _ _ _ _ H) as (st & R & C).
  destruct (reaches_keeps _ _ _ _ R) as [Ho He]. simpl in Ho, He.
  destruct C as [(msg & _ & _ & V)|[(body & _ & _ & _ & _ & ->)
                                   |(body & o & _ & _ & _ & _ & _ & _ & ->)]].
  - destruct (validate_out _ _ _ _ V Ho)
      as [[_ E]|[_ [[_ E]|[A E]]]]; auto.
  - cbn [output]. rewrite report_invalid_out by exact Ho.
    simpl autoPrintHelp. destruct (autoPrintHelp this); eauto.
  - cbn [output]. rewrite report_invalid_out by exact Ho.
    simpl autoPrintHelp. destruct (autoPrintHelp this); eauto.
Qed.

Lemma ProcessCommandArgs_reaches_return (this : SmartOptions) (m : Memory)
    (argv : list string) :
  no_option this NULL_TERMINATE ->
  autoPrintHelp this = false \/ posArgs this <> [] ->
  exists r, ProcessCommandArgs this m (length argv) argv = inr r.
Proof.
  intros Hn A. rewrite ProcessCommandArgs_scan, scan_run.
  destruct (run_returns (useCommandArgs this (length argv) argv)
              (init_locals m) Hn ltac:(left; reflexivity))
    as (s & Er & I).
  simpl argV in Er. rewrite Er.
  destruct s as [st|r st]; simpl; [|eauto]. simpl in I.
  destruct I as [I|[I|(r & st' & E)]]; [| |discriminate].
  - destruct (close_surplus_message_total _ (or_introl I)) as [msg ->].
    simpl. apply validate_returns. exact A.
  - destruct (close_surplus_message_total _ (or_intror I)) as [msg ->].
    simpl. apply validate_returns. exact A.
Qed.

(** X7. [ProcessCommandArgs] runs to its return, for every argument vector
    and every store, as soon as no option is registered with the character
    0 for its identifier, and either auto-help is off, or a positional rule
    is registered and [PrintHelp] completes: it then neither reads past
    the end of a token nor lets [std::string] throw, and all it prints,
    the help text included, is written. *)
Theorem parse_returns (this : SmartOptions) (m : Memory)
    (argv : list string) :
  no_option this NULL_TERMINATE ->
  autoPrintHelp this = false
  \/ (posArgs this <> [] /\ exists help, PrintHelp this = inr help) ->
  exists r lines,
    ProcessCommandArgs this m (length argv) argv = inr r
    /\ printed this (output r) = inr lines.
Proof.
  intros Hn A.
  destruct (ProcessCommandArgs_reaches_return this m argv Hn) as [r H].
  { destruct A as [A|[A _]]; auto. }
  exists r.
  destruct (ProcessCommandArgs_output _ _ _ _ _ H)
    as [E|[Ha [line E]]]; rewrite E.
  - exists []. split; [exact H|reflexivity].
  - destruct A as [A|[_ [help P]]]; [congruence|].
    exists (line :: help ++ []). split; [exact H|].
    simpl. rewrite P. reflexivity.
Qed.

Lemma parse_returns_witness :
  (exists r lines,
     ProcessCommandArgs (fst mixed_rules) (snd mixed_rules)
       (length ["App"; "-"; "a,b"; "c"; "-o"])
       ["App"; "-"; "a,b"; "c"; "-o"] = inr r
     /\ printed (fst mixed_rules) (output r) = inr lines)
  /\ (exists r lines,
        ProcessCommandArgs (fst helped_rules) (snd helped_rules)
          (length ["App"; "-"; "a,b"; "c"; "-o"])
          ["App"; "-"; "a,b"; "c"; "-o"] = inr r
        /\ printed (fst helped_rules) (output r) = inr lines).
Proof.
  split.
  - apply (parse_returns (fst mixed_rules) (snd mixed_rules)
             ["App"; "-"; "a,b"; "c"; "-o"]).
    + repeat constructor. discriminate.
    + left. reflexivity.
  - apply (parse_returns (fst helped_rules) (snd helped_rules)
             ["App"; "-"; "a,b"; "c"; "-o"]).
    + repeat constructor. discriminate.
    + right. split; [discriminate|]. eexists. reflexivity.
Defined.

(** X8. A scanned token that is the marker alone, when no flag but an
    option is registered with the character 0 for its identifier, makes
    [ProcessCommandArgs] read the token one character past its
    terminator. *)
Theorem bare_marker_reads_past_end (this : SmartOptions) (m : Memory)
    (argv : list string) (st : Locals) :
  scanned this m argv st ->
  marker_token argv st EmptyString ->
  no_flag this NULL_TERMINATE ->
  some_option this NULL_TERMINATE ->
  ProcessCommandArgs this m (length argv) argv = inl ReadPastEnd.
Proof.
  intros Hs Ht Hf Ho.
  apply lookup_flag_none in Hf. apply some_option_lookup in Ho.
  destruct Ho as [o Ho].
  rewrite ProcessCommandArgs_scan, (scanned_run _ _ _ _ Hs).
  destruct Hs as [_ L]. rewrite run_body by exact L.
  unfold loop_body, argV_at. simpl argV.
  unfold marker_token in Ht. rewrite Ht. simpl.
  rewrite flag_or_option_eq. simpl flags. simpl options. simpl cstr_deref.
  rewrite Hf, Ho. reflexivity.
Qed.

Lemma bare_marker_reads_past_end_witness :
  ProcessCommandArgs (fst long_only_option) (snd long_only_option) 3
    ["App"; "-v"; "-"]
  = inl ReadPastEnd.
Proof.
  apply (bare_marker_reads_past_end (fst long_only_option)
           (snd long_only_option) ["App"; "-v"; "-"]
           (set_index 2
              (set_mem (store_bool 1 true (snd long_only_option))
                 (init_locals (snd long_only_option))))).
  - split; [|simpl; lia]. apply rtc_once. split; [simpl; lia|].
    vm_compute. reflexivity.
  - reflexivity.
  - repeat constructor. discriminate.
  - constructor. reflexivity.
Defined.

(** X9. Without any token after the program name (or with an empty
    argument vector) the loop does not run: the parse returns
    SMARTOPTIONS_SUCCESS, the store untouched and nothing printed, when no
    positional rule is registered, and
    SMARTOPTIONS_INVALID_NUMBEROF_ARGUMENTS with the store untouched when
    one is. *)
Theorem no_tokens (this : SmartOptions) (m : Memory) (argv : list string) :
  (length argv <= 1)%nat ->
  (posArgs this = [] ->
   ProcessCommandArgs this m (length argv) argv
     = inr (mkResult SMARTOPTIONS_SUCCESS m []))
  /\ (posArgs this <> [] ->
      exists r,
        ProcessCommandArgs this m (length argv) argv = inr r
        /\ status r = SMARTOPTIONS_INVALID_NUMBEROF_ARGUMENTS
        /\ memory r = m).
Proof.
  intros L.
  assert (scan this m (length argv) argv = inr (Continue (init_locals m)))
    as S by (apply scan_exit; [apply rtc_refl|simpl; lia]).
  split; intros P.
  - rewrite (ProcessCommandArgs_success _ _ _ _ _ S);
      [reflexivity|reflexivity|rewrite P; reflexivity].
  - rewrite ProcessCommandArgs_scan, S. simpl.
    destruct (validate_returns
                (useCommandArgs this (length argv) argv) (init_locals m)
                EmptyString (or_intror P)) as (r & V).
    exists r. split; [exact V|].
    apply validate_status in V.
    destruct V as [(_ & C & _)|(E & _ & M)]; [|auto].
    simpl in C. destruct (posArgs this); [congruence|discriminate].
Qed.

Lemma no_tokens_witness :
  ProcessCommandArgs (fst two_options) (snd two_options) 1 ["SmartOptions"]
    = inr (mkResult SMARTOPTIONS_SUCCESS (snd two_options) [])
  /\ exists r,
       ProcessCommandArgs (fst two_positionals) (snd two_positionals) 1
         ["SmartOptions"] = inr r
       /\ status r = SMARTOPTIONS_INVALID_NUMBEROF_ARGUMENTS
       /\ memory r = snd two_positionals.
Proof.
  split.
  - apply (proj1 (no_tokens (fst two_options) (snd two_options)
                    ["SmartOptions"] ltac:(simpl; lia))).
    reflexivity.
  - apply (proj2 (no_tokens (fst two_positionals) (snd two_positionals)
                    ["SmartOptions"] ltac:(simpl; lia))).
    discriminate.
Defined.

(** ** Positional tokens and their rules *)

Lemma bind_positionals_unbound (ps : list SmartOptionsPositionalArg)
    (tokens : list string) (m : Memory) (i : nat)
    (p : SmartOptionsPositionalArg) :
  NoDup (map pos_destVariable ps) ->
  ps !! i = Some p -> (length tokens <= i)%nat ->
  strs (bind_positionals ps tokens m) !! pos_destVariable p
    = strs m !! pos_destVariable p.
Proof.
  revert tokens m i. induction ps as [|q ps IH]; intros tokens m i N Hp L;
    [discriminate|].
  destruct tokens as [|x tokens]; [reflexivity|].
  inversion N as [|d l Hnin N']. subst. simpl in L.
  destruct i as [|i]; [lia|]. simpl in Hp. simpl.
  rewrite (IH _ _ i N' Hp) by lia. simpl.
  apply lookup_insert_ne. intros E. apply Hnin. rewrite E.
  apply list_elem_of_In, in_map.
  apply list_elem_of_In. eapply list_elem_of_lookup_2. exact Hp.
Qed.

(** X10. When the tokens after the program name are as many as the
    positional rules and none begins with the marker, the parse returns
    SMARTOPTIONS_SUCCESS and prints nothing; with distinct destinations,
    the destination of the i-th rule holds the i-th token. *)
Theorem exact_arity_binds_in_order (this : SmartOptions) (m : Memory)
    (prog : string) (tokens : list string) :
  Forall not_marker tokens ->
  length tokens = length (posArgs this) ->
  NoDup (map pos_destVariable (posArgs this)) ->
  exists r,
    ProcessCommandArgs this m (length (prog :: tokens)) (prog :: tokens)
      = inr r
    /\ status r = SMARTOPTIONS_SUCCESS
    /\ output r = []
    /\ bools (memory r) = bools m
    /\ forall i p t,
         posArgs this !! i = Some p -> tokens !! i = Some t ->
         strs (memory r) !! pos_destVariable p = Some (Some t).
Proof.
  intros H L N.
  destruct (positional_arity this m prog tokens H) as [S _].
  eexists. split; [exact (S L)|]. split; [reflexivity|].
  split; [reflexivity|]. split; [apply bind_positionals_bools|].
  intros i p t Hp Ht. simpl.
  apply (bind_positionals_lookup _ _ _ i); assumption.
Qed.

Lemma exact_arity_binds_in_order_witness :
  exists r,
    ProcessCommandArgs (fst two_positionals) (snd two_positionals) 3
      ["SmartOptions"; POSITIONAL_ARGUMENT_1; POSITIONAL_ARGUMENT_2] = inr r
    /\ status r = SMARTOPTIONS_SUCCESS
    /\ output r = []
    /\ bools (memory r) = bools (snd two_positionals)
    /\ forall i p t,
         posArgs (fst two_positionals) !! i = Some p ->
         [POSITIONAL_ARGUMENT_1; POSITIONAL_ARGUMENT_2] !! i = Some t ->
         strs (memory r) !! pos_destVariable p = Some (Some t).
Proof.
  apply (exact_arity_binds_in_order (fst two_positionals)
           (snd two_positionals) "SmartOptions"
           [POSITIONAL_ARGUMENT_1; POSITIONAL_ARGUMENT_2]).
  - repeat constructor; discriminate.
  - reflexivity.
  - simpl. repeat constructor; rewrite list_elem_of_In; simpl; lia.
Defined.

(** X11. When the tokens after the program name do not begin with the
    marker and are fewer or more than the positional rules, and auto-help
    is off or a positional rule is registered, the parse returns
    SMARTOPTIONS_INVALID_NUMBEROF_ARGUMENTS; with distinct destinations,
    every rule that has a token at its position holds that token, and the
    destinations of the other rules are as the caller left them. *)
Theorem wrong_arity_is_reported (this : SmartOptions) (m : Memory)
    (prog : string) (tokens : list string) :
  Forall not_marker tokens ->
  length tokens <> length (posArgs this) ->
  autoPrintHelp this = false \/ posArgs this <> [] ->
  NoDup (map pos_destVariable (posArgs this)) ->
  exists r,
    ProcessCommandArgs this m (length (prog :: tokens)) (prog :: tokens)
      = inr r
    /\ status r = SMARTOPTIONS_INVALID_NUMBEROF_ARGUMENTS
    /\ (forall i p t,
          posArgs this !! i = Some p -> tokens !! i = Some t ->
          strs (memory r) !! pos_destVariable p = Some (Some t))
    /\ (forall i p,
          posArgs this !! i = Some p -> (length tokens <= i)%nat ->
          strs (memory r) !! pos_destVariable p
            = strs m !! pos_destVariable p).
Proof.
  intros H L A N.
  destruct (positional_arity this m prog tokens H) as [_ F].
  destruct (F L A) as (r & E & S & M).
  exists r. split; [exact E|]. split; [exact S|].
  rewrite M, bind_positionals_take. split.
  - intros i p t Hp Ht. apply (bind_positionals_lookup _ _ _ i); assumption.
  - intros i p Hp Hi.
    apply (bind_positionals_unbound _ _ _ i); assumption.
Qed.

Lemma wrong_arity_is_reported_witness :
  exists r,
    ProcessCommandArgs (fst two_positionals) (snd two_positionals) 2
      ["SmartOptions"; POSITIONAL_ARGUMENT_1] = inr r
    /\ status r = SMARTOPTIONS_INVALID_NUMBEROF_ARGUMENTS
    /\ (forall i p t,
          posArgs (fst two_positionals) !! i = Some p ->
          [POSITIONAL_ARGUMENT_1] !! i = Some t ->
          strs (memory r) !! pos_destVariable p = Some (Some t))
    /\ (forall i p,
          posArgs (fst two_positionals) !! i = Some p -> (1 <= i)%nat ->
          strs (memory r) !! pos_destVariable p
            = strs (snd two_positionals) !! pos_destVariable p).
Proof.
  apply (wrong_arity_is_reported (fst two_positionals)
           (snd two_positionals) "SmartOptions" [POSITIONAL_ARGUMENT_1]).
  - repeat constructor; discriminate.
  - discriminate.
  - left. reflexivity.
  - simpl. repeat constructor; rewrite list_elem_of_In; simpl; lia.
Defined.

(** ** The messages about the number of arguments, in general *)

(** X12. When the tokens after the program name do not begin with the
    marker and exceed the positional rules by two or more, the last one
    without a comma, the message closed at lines 417-421 is the program
    name, ": Error, invalid number of mandatory arguments (", the surplus
    tokens but the last joined by ", ", then " & ", the last one and the
    closing parenthesis. *)
Theorem several_surplus_tokens_message (this : SmartOptions) (m : Memory)
    (prog : string) (bound init : list string) (last : string) :
  Forall not_marker (bound ++ init ++ [last]) ->
  length bound = length (posArgs this) ->
  init <> [] ->
  has_char "," last = false ->
  surplus_message this m (length (prog :: bound ++ init ++ [last]))
      (prog :: bound ++ init ++ [last])
    = inr (appName this
             +:+ ": Error, invalid number of mandatory arguments ("
             +:+ String.concat ", " init +:+ " & " +:+ last +:+ ")").
Proof.
  intros H L Hi Hl.
  rewrite (surplus_message_positionals _ _ _ _ H).
  rewrite <- L, drop_app_length.
  apply close_surplus_several; assumption.
Qed.

Lemma several_surplus_tokens_message_witness :
  surplus_message (fst (one_positional false)) (snd (one_positional false))
      5 ["SmartOptions"; "a"; "b"; "c"; "d"]
    = inr "SmartOptionsTest: Error, invalid number of mandatory arguments (b, c & d)".
Proof.
  apply (several_surplus_tokens_message (fst (one_positional false))
           (snd (one_positional false)) "SmartOptions" ["a"] ["b"; "c"] "d").
  - repeat constructor; discriminate.
  - reflexivity.
  - discriminate.
  - reflexivity.
Defined.

(** The loop over the positional rules appends the quoted meta variables,
    each followed by ", ". *)
Lemma append_metas_concat (ps : list SmartOptionsPositionalArg)
    (msg : string) :
  ps <> [] ->
  append_metas ps msg
    = msg +:+ String.concat ", " (map quoted_meta ps) +:+ ", ".
Proof.
  revert msg. induction ps as [|p ps IH]; intros msg H; [congruence|].
  destruct ps as [|q ps].
  - simpl. unfold quoted_meta. rewrite !append_assoc. reflexivity.
  - change (append_metas (p :: q :: ps) msg)
      with (append_metas (q :: ps)
              (msg +:+ "'" +:+ metaVariable (pos_base p) +:+ "', ")).
    rewrite IH by discriminate.
    change (String.concat ", " (map quoted_meta (p :: q :: ps)))
      with (quoted_meta p +:+ ", "
              +:+ String.concat ", " (map quoted_meta (q :: ps))).
    unfold quoted_meta. rewrite !append_assoc. reflexivity.
Qed.

(** The text appended by lines 436-444 for two rules or more, the last
    meta variable without a comma. *)
Lemma mandatory_parameters_clause (init : list SmartOptionsPositionalArg)
    (last : SmartOptionsPositionalArg) (msg : string) :
  init <> [] ->
  has_char "," (metaVariable (pos_base last)) = false ->
  (do s <- str_erase_last
             (append_metas (init ++ [last])
                (msg +:+ ". The mandatory parameters are ")) 2;
   do s <- str_replace s (rfind "," s) 1 " &";
   ret (s +:+ "."))
  = inr (msg +:+ ". The mandatory parameters are "
           +:+ String.concat ", " (map quoted_meta init)
           +:+ " & " +:+ quoted_meta last +:+ ".").
Proof.
  intros Hi Hl.
  rewrite append_metas_concat by (destruct init; simpl; discriminate).
  match goal with
  | |- context [str_erase_last ?s 2] =>
      replace s
        with ((msg +:+ ". The mandatory parameters are "
                 +:+ String.concat ", " (map quoted_meta (init ++ [last])))
                +:+ ", ")
        by (rewrite !append_assoc; reflexivity)
  end.
  change 2%nat with (String.length ", ") at 1.
  rewrite str_erase_last_append. simpl bind.
  rewrite map_app. simpl map.
  rewrite concat_snoc by (destruct init; simpl; [congruence|discriminate]).
  match goal with
  | |- context [str_replace ?s _ _ _] =>
      replace s
        with ((msg +:+ ". The mandatory parameters are "
                 +:+ String.concat ", " (map quoted_meta init))
                +:+ String "," (" " +:+ quoted_meta last))
        by (rewrite !append_assoc; reflexivity)
  end.
  rewrite str_replace_last.
  - simpl bind. unfold ret. rewrite !append_assoc. reflexivity.
  - unfold quoted_meta. rewrite !has_char_append, Hl. reflexivity.
Qed.

(** X13. With auto-help on and two positional rules or more, the meta
    variable of the last one without a comma: when the tokens after the
    program name do not begin with the marker and are fewer than the
    rules, the parse returns SMARTOPTIONS_INVALID_NUMBEROF_ARGUMENTS and
    prints one line, then the help. The line is the program name,
    ": Error, invalid number of mandatory arguments. The mandatory
    parameters are ", the quoted meta variables but the last joined by
    ", ", then " & ", the last one quoted and a full stop. *)
Theorem missing_parameters_listed (this : SmartOptions) (m : Memory)
    (prog : string) (tokens : list string)
    (init : list SmartOptionsPositionalArg)
    (last : SmartOptionsPositionalArg) :
  autoPrintHelp this = true ->
  posArgs this = init ++ [last] -> init <> [] ->
  has_char "," (metaVariable (pos_base last)) = false ->
  Forall not_marker tokens ->
  (length tokens < length (posArgs this))%nat ->
  ProcessCommandArgs this m (length (prog :: tokens)) (prog :: tokens)
    = inr (mkResult SMARTOPTIONS_INVALID_NUMBEROF_ARGUMENTS
             (bind_positionals (posArgs this) tokens m)
             [Line (arity_message (appName this)
                      +:+ ". The mandatory parameters are "
                      +:+ String.concat ", " (map quoted_meta init)
                      +:+ " & " +:+ quoted_meta last +:+ ".");
              Help]).
Proof.
  intros A P Hi Hl H L.
  rewrite ProcessCommandArgs_scan, (scan_positionals _ _ _ _ H).
  simpl bind. cbv iota.
  change (strPosArgErrMsg (after_positionals this m tokens))
    with (surplus_open (appName this)
            (drop (length (posArgs this)) tokens)).
  rewrite drop_ge by lia. simpl bind.
  unfold validate. simpl posArgsCount. simpl posArgs. simpl appName.
  simpl autoPrintHelp. simpl out. simpl mem.
  assert ((length tokens =? length (posArgs this))%nat = false) as ->
    by (apply Nat.eqb_neq; lia).
  simpl negb. cbv iota. rewrite A. simpl str_empty. cbv iota.
  assert ((length (posArgs this) =? 1)%nat = false) as ->.
  { apply Nat.eqb_neq. rewrite P, length_app. simpl.
    destruct init; [congruence|simpl; lia]. }
  rewrite P.
  rewrite (mandatory_parameters_clause init last _ Hi Hl).
  unfold AutoPrintHelp. simpl autoPrintHelp. rewrite A. reflexivity.
Qed.

Lemma missing_parameters_listed_witness :
  ProcessCommandArgs (fst three_positionals) (snd three_positionals) 2
    ["copy"; "a.txt"]
  = inr (mkResult SMARTOPTIONS_INVALID_NUMBEROF_ARGUMENTS
           (store_str 1 (Some "a.txt") (snd three_positionals))
           [Line "copy: Error, invalid number of mandatory arguments. The mandatory parameters are 'SOURCE', 'TARGET' & 'MODE'.";
            Help]).
Proof.
  apply (missing_parameters_listed (fst three_positionals)
           (snd three_positionals) "copy" ["a.txt"]
           [mkPositionalArg (mkArg NULL_TERMINATE None "SOURCE" "where from")
              1;
            mkPositionalArg (mkArg NULL_TERMINATE None "TARGET" "where to")
              2]
           (mkPositionalArg (mkArg NULL_TERMINATE None "MODE" "how") 3)).
  - reflexivity.
  - reflexivity.
  - discriminate.
  - reflexivity.
  - repeat constructor; discriminate.
  - simpl. lia.
Defined.

(** ** Setting up, in general *)

Lemma fold_call_rules (calls : list Setup) (sm : SmartOptions * Memory) :
  flags (fst (fold_left call calls sm))
    = flags (fst sm) ++ registered_flags calls
  /\ options (fst (fold_left call calls sm))
     = options (fst sm) ++ registered_options calls
  /\ posArgs (fst (fold_left call calls sm))
     = posArgs (fst sm) ++ registered_positionals calls
  /\ appName (fst (fold_left call calls sm)) = appName (fst sm)
  /\ autoPrintHelp (fst (fold_left call calls sm))
     = autoPrintHelp (fst sm).
Proof.
  revert sm. induction calls as [|s calls IH]; intros sm.
  - simpl. rewrite !app_nil_r. auto.
  - simpl fold_left. destruct (IH (call sm s)) as (F & O & P & N & A).
    rewrite F, O, P, N, A. destruct sm as [this m].
    destruct s; simpl; rewrite <- ?app_assoc; auto.
Qed.

(** X14. Set-up calls register their rules without any check: after any
    sequence of calls on a fresh object, the flags, the options and the
    positional rules are those of the AddFlag, AddOption and
    AddPositionalArgument calls, each kind in the order of its calls, with
    repeated identifiers and destinations kept; the program name and the
    auto-help switch are those of the constructor. *)
Theorem setup_registers_in_order (programName : string) (auto : bool)
    (m : Memory) (calls : list Setup) :
  flags (fst (setup programName auto m calls)) = registered_flags calls
  /\ options (fst (setup programName auto m calls))
     = registered_options calls
  /\ posArgs (fst (setup programName auto m calls))
     = registered_positionals calls
  /\ appName (fst (setup programName auto m calls)) = programName
  /\ autoPrintHelp (fst (setup programName auto m calls)) = auto.
Proof.
  unfold setup.
  destruct (fold_call_rules calls (SmartOptions_new programName auto, m))
    as (F & O & P & N & A).
  rewrite F, O, P, N, A. auto.
Qed.

Lemma call_frame (sm : SmartOptions * Memory) (s : Setup) :
  (forall f, In f (flags (fst sm)) -> In f (flags (fst (call sm s))))
  /\ (forall o, In o (options (fst sm)) -> In o (options (fst (call sm s))))
  /\ (forall a,
        ~ In a (flag_destinations (fst (call sm s))) ->
        bools (snd (call sm s)) !! a = bools (snd sm) !! a)
  /\ (forall a,
        ~ In a (map opt_destVariable (options (fst (call sm s)))) ->
        strs (snd (call sm s)) !! a = strs (snd sm) !! a).
Proof.
  destruct sm as [this m].
  destruct s as [d|u|c long meta help dest|c long help dest|meta help dest];
    simpl; unfold flag_destinations; simpl;
    repeat split; try (intros; auto with datatypes; fail).
  - intros a H. apply lookup_insert_ne. intros E. apply H.
    rewrite map_app. apply in_or_app. right. left. exact E.
  - intros a H. apply lookup_insert_ne. intros E. apply H.
    rewrite map_app. apply in_or_app. right. left. exact E.
Qed.

Lemma fold_call_frame (calls : list Setup) (sm : SmartOptions * Memory) :
  (forall f, In f (flags (fst sm)) ->
     In f (flags (fst (fold_left call calls sm))))
  /\ (forall o, In o (options (fst sm)) ->
        In o (options (fst (fold_left call calls sm))))
  /\ (forall a,
        ~ In a (flag_destinations (fst (fold_left call calls sm))) ->
        bools (snd (fold_left call calls sm)) !! a = bools (snd sm) !! a)
  /\ (forall a,
        ~ In a (map opt_destVariable
                  (options (fst (fold_left call calls sm)))) ->
        strs (snd (fold_left call calls sm)) !! a = strs (snd sm) !! a).
Proof.
  revert sm. induction calls as [|s calls IH]; intros sm; simpl;
    [repeat split; auto|].
  destruct (IH (call sm s)) as (F & O & B & S).
  destruct (call_frame sm s) as (F1 & O1 & B1 & S1).
  repeat split.
  - intros f H. apply F, F1, H.
  - intros o H. apply O, O1, H.
  - intros a H. rewrite B by exact H. apply B1.
    intros C. apply H. unfold flag_destinations in *.
    apply in_map_iff in C. destruct C as (f & <- & C).
    apply in_map, F, C.
  - intros a H. rewrite S by exact H. apply S1.
    intros C. apply H.
    apply in_map_iff in C. destruct C as (o & <- & C).
    apply in_map, O, C.
Qed.

(** X15. After any sequence of set-up calls on a fresh object, the
    destination of every registered flag holds false and that of every
    registered option is unset, whatever the caller had there, and every
    other variable of the caller is as it was: a [bool] variable that is
    the destination of no flag, a string variable that is the destination
    of no option, the destinations of the positional rules among them. *)
Theorem setup_writes_defaults_only (programName : string) (auto : bool)
    (m0 : Memory) (calls : list Setup) (this : SmartOptions) (m : Memory) :
  setup programName auto m0 calls = (this, m) ->
  (forall f, In f (flags this) ->
     bools m !! flag_destVariable f = Some false)
  /\ (forall o, In o (options this) ->
        strs m !! opt_destVariable o = Some None)
  /\ (forall a, ~ In a (flag_destinations this) ->
        bools m !! a = bools m0 !! a)
  /\ (forall a, ~ In a (map opt_destVariable (options this)) ->
        strs m !! a = strs m0 !! a).
Proof.
  intros E.
  destruct (setup_initialised _ _ _ _ _ _ E) as [If Io].
  destruct (fold_call_frame calls (SmartOptions_new programName auto, m0))
    as (_ & _ & B & S).
  unfold setup in E. rewrite E in B, S. auto.
Qed.

Lemma setup_writes_defaults_only_witness :
  bools (snd mixed_rules) !! 1%nat = Some false
  /\ strs (snd mixed_rules) !! 2%nat = Some None
  /\ strs (snd (setup "App" false used_memory
                  [CallAddPositionalArgument "input" "input file" 1]))
       !! 1%nat
     = strs used_memory !! 1%nat.
Proof.
  destruct (setup_writes_defaults_only "App" false no_memory
              [CallAddFlag "v" None "verbose" 1;
               CallAddOption "o" None "FILE" "output" 2;
               CallAddPositionalArgument "input" "input file" 3]
              (fst mixed_rules) (snd mixed_rules) eq_refl)
    as (F & O & _ & _).
  split; [apply (F (mkFlagArg (mkArg "v" None EmptyString "verbose") 1));
          left; reflexivity|].
  split; [apply (O (mkOptionArg (mkArg "o" None "FILE" "output") 2));
          left; reflexivity|].
  destruct (setup_writes_defaults_only "App" false used_memory
              [CallAddPositionalArgument "input" "input file" 1]
              _ _ eq_refl) as (_ & _ & _ & S).
  apply S. simpl. tauto.
Defined.

(** ** Options among themselves *)

(** The scan of two option tokens that carry their values. *)
Lemma scan_two_attached (this : SmartOptions) (m : Memory) (prog : string)
    (c1 c2 : ascii) (v1 v2 : string) (o1 o2 : SmartOptionsOptionArg) :
  no_flag this c1 -> no_flag this c2 ->
  lookup_option c1 (options this) = Some o1 ->
  lookup_option c2 (options this) = Some o2 ->
  v1 <> EmptyString -> is_cstring v1 = true ->
  v2 <> EmptyString -> is_cstring v2 = true ->
  scan this m 3
      [prog; String "-" (String c1 v1); String "-" (String c2 v2)]
    = inr (Continue
             (mkLocals 3 0 0 EmptyString EmptyString
                (store_str (opt_destVariable o2) (Some v2)
                   (store_str (opt_destVariable o1) (Some v1) m)) [])).
Proof.
  intros F1 F2 O1 O2 N1 Z1 N2 Z2.
  apply lookup_flag_none in F1. apply lookup_flag_none in F2.
  destruct (first_char_of_cstring v1 N1 Z1) as (a1 & G1 & A1).
  destruct (first_char_of_cstring v2 N2 Z2) as (a2 & G2 & A2).
  set (argv := [prog; String "-" (String c1 v1); String "-" (String c2 v2)]).
  pose proof (loop_body_attached (useCommandArgs this 3 argv) 3
                (init_locals m) (String c1 v1) o1 a1 eq_refl F1 O1) as B1.
  unfold cstr_at in B1. simpl in B1. rewrite G1 in B1.
  specialize (B1 eq_refl A1).
  match type of B1 with
  | _ = inr (Continue ?st1) =>
      pose proof (loop_body_attached (useCommandArgs this 3 argv) 3
                    st1 (String c2 v2) o2 a2 eq_refl F2 O2) as B2
  end.
  unfold cstr_at in B2. simpl in B2. rewrite G2 in B2.
  specialize (B2 eq_refl A2).
  apply scan_exit; [|simpl; lia].
  eapply rtc_l; [split; [simpl; lia|exact B1]|].
  apply rtc_once. split; [simpl; lia|exact B2].
Qed.

Lemma store_str_commute (a b : nat) (x y : option string) (m : Memory) :
  a <> b ->
  store_str a x (store_str b y m) = store_str b y (store_str a x m).
Proof.
  intros H. unfold store_str. simpl. f_equal.
  apply insert_insert_ne. exact H.
Qed.

(** X16. Two option tokens that carry their values give the same result in
    either order, when the two options have different destinations (and no
    flag has one of their identifiers). *)
Theorem attached_options_commute (this : SmartOptions) (m : Memory)
    (prog : string) (c1 c2 : ascii) (v1 v2 : string)
    (o1 o2 : SmartOptionsOptionArg) :
  no_flag this c1 -> no_flag this c2 ->
  lookup_option c1 (options this) = Some o1 ->
  lookup_option c2 (options this) = Some o2 ->
  opt_destVariable o1 <> opt_destVariable o2 ->
  v1 <> EmptyString -> is_cstring v1 = true ->
  v2 <> EmptyString -> is_cstring v2 = true ->
  ProcessCommandArgs this m 3
      [prog; String "-" (String c1 v1); String "-" (String c2 v2)]
    = ProcessCommandArgs this m 3
        [prog; String "-" (String c2 v2); String "-" (String c1 v1)].
Proof.
  intros F1 F2 O1 O2 D N1 Z1 N2 Z2.
  rewrite !ProcessCommandArgs_scan.
  rewrite (scan_two_attached this m prog c1 c2 v1 v2 o1 o2) by assumption.
  rewrite (scan_two_attached this m prog c2 c1 v2 v1 o2 o1) by assumption.
  rewrite (store_str_commute _ _ _ _ m D). reflexivity.
Qed.

Lemma attached_options_commute_witness :
  ProcessCommandArgs (fst two_options) (snd two_options) 3
      ["SmartOptions"; String "-" (String "o" OPTION_ARGUMENT_1);
       String "-" (String "p" OPTION_ARGUMENT_2)]
    = ProcessCommandArgs (fst two_options) (snd two_options) 3
        ["SmartOptions"; String "-" (String "p" OPTION_ARGUMENT_2);
         String "-" (String "o" OPTION_ARGUMENT_1)].
Proof.
  apply (attached_options_commute (fst two_options) (snd two_options)
           "SmartOptions" "o" "p" OPTION_ARGUMENT_1 OPTION_ARGUMENT_2
           (mkOptionArg
              (mkArg "o" (Some "optionO") "optArg_1"
                 "Help message for Option Argument 1") 1)
           (mkOptionArg
              (mkArg "p" (Some "optionP") "optArg_2"
                 "Help message for Option Argument 2") 2));
    try reflexivity; try discriminate; constructor.
Defined.

(** X17. An option given twice keeps the value of its last occurrence:
    two tokens that carry values for the same option give the result of
    the second token alone. *)
Theorem repeated_option_last_wins (this : SmartOptions) (m : Memory)
    (prog : string) (c : ascii) (v1 v2 : string)
    (o : SmartOptionsOptionArg) :
  no_flag this c ->
  lookup_option c (options this) = Some o ->
  v1 <> EmptyString -> is_cstring v1 = true ->
  v2 <> EmptyString -> is_cstring v2 = true ->
  ProcessCommandArgs this m 3
      [prog; String "-" (String c v1); String "-" (String c v2)]
    = ProcessCommandArgs this m 2 [prog; String "-" (String c v2)].
Proof.
  intros F O N1 Z1 N2 Z2.
  rewrite !ProcessCommandArgs_scan.
  rewrite (scan_two_attached this m prog c c v1 v2 o o) by assumption.
  apply lookup_flag_none in F.
  destruct (first_char_of_cstring v2 N2 Z2) as (a2 & G2 & A2).
  set (argv := [prog; String "-" (String c v2)]).
  pose proof (loop_body_attached (useCommandArgs this 2 argv) 2
                (init_locals m) (String c v2) o a2 eq_refl F O) as B.
  unfold cstr_at in B. simpl in B. rewrite G2 in B.
  specialize (B eq_refl A2).
  match type of B with
  | _ = inr (Continue ?st') =>
      assert (scan this m 2 argv = inr (Continue st')) as S
  end.
  { apply scan_exit; [|simpl; lia].
    apply rtc_once. split; [simpl; lia|exact B]. }
  rewrite S. unfold store_str. simpl. rewrite insert_insert_eq.
  reflexivity.
Qed.

Lemma repeated_option_last_wins_witness :
  ProcessCommandArgs (fst two_options) (snd two_options) 3
      ["SmartOptions"; String "-" (String "o" "first");
       String "-" (String "o" "second")]
    = ProcessCommandArgs (fst two_options) (snd two_options) 2
        ["SmartOptions"; String "-" (String "o" "second")].
Proof.
  apply (repeated_option_last_wins (fst two_options) (snd two_options)
           "SmartOptions" "o" "first" "second"
           (mkOptionArg
              (mkArg "o" (Some "optionO") "optArg_1"
                 "Help message for Option Argument 1") 1));
    try reflexivity; try discriminate; constructor.
Defined.

(** ** The help text *)

Example PrintHelp_described_rules :
  PrintHelp (fst described_rules)
    = inr ["App [OPTION]... FILE ";
           "  -o <OUT>                       where to write ";
           "  -                              how much ";
           "  -v                             say more "].
Proof. reflexivity. Qed.

Lemma print_each_inr {A : Type} (print : A -> PrintFault + string)
    (rules : list A) (lines : list string) :
  print_each print rules = inr lines <->
  Forall2 (fun rule line => print rule = inr line) rules lines.
Proof.
  revert lines. induction rules as [|r rules IH]; intros lines; simpl.
  - split; intros H.
    + injection H as <-. constructor.
    + inversion H. reflexivity.
  - split; intros H.
    + destruct (print r) as [f|line] eqn:P; [discriminate|].
      destruct (print_each print rules) as [f|ls]; [discriminate|].
      injection H as <-. constructor; [exact P|]. apply IH. reflexivity.
    + inversion H as [|? line ? ls P R]; subst. rewrite P.
      apply IH in R. rewrite R. reflexivity.
Qed.

Lemma print_each_total {A : Type} (print : A -> PrintFault + string)
    (rules : list A) :
  Forall (fun rule => exists line, print rule = inr line) rules ->
  exists lines, print_each print rules = inr lines.
Proof.
  induction 1 as [|r rules [line P] _ [lines IH]]; simpl.
  - exists []. reflexivity.
  - rewrite P, IH. eexists. reflexivity.
Qed.

Lemma print_each_fault {A : Type} (print : A -> PrintFault + string)
    (rules : list A) (f : PrintFault) :
  Forall (fun rule => forall g, print rule = inl g -> g = f) rules ->
  Exists (fun rule => print rule = inl f) rules ->
  print_each print rules = inl f.
Proof.
  intros All Ex. induction Ex as [r rules P|r rules _ IH]; simpl.
  - rewrite P. reflexivity.
  - inversion All as [|? ? Hr Hrest]; subst.
    destruct (print r) as [g|line] eqn:P.
    + rewrite (Hr g eq_refl). reflexivity.
    + rewrite (IH Hrest). reflexivity.
Qed.

Lemma length_option_leftContent (o : SmartOptionsOptionArg) :
  String.length (option_leftContent o)
    = (8 + String.length (metaVariable (opt_base o)))%nat.
Proof.
  unfold option_leftContent. unfold_append. simpl String.length.
  rewrite length_append. simpl. lia.
Qed.

Lemma print_option_fits (o : SmartOptionsOptionArg) :
  (String.length (metaVariable (opt_base o)) <= 55)%nat ->
  print_option o
    = inr (help_line (c_str (option_leftContent o))
             (helpString (opt_base o))).
Proof.
  intros H. unfold print_option, sprintf_leftContent, leftContent_size.
  rewrite length_option_leftContent.
  destruct (Nat.leb_spec 64 (8 + String.length (metaVariable (opt_base o))));
    [lia|reflexivity].
Qed.

Lemma print_option_overrun (o : SmartOptionsOptionArg) :
  (56 <= String.length (metaVariable (opt_base o)))%nat ->
  print_option o = inl BufferOverrun.
Proof.
  intros H. unfold print_option, sprintf_leftContent, leftContent_size.
  rewrite length_option_leftContent.
  destruct (Nat.leb_spec 64 (8 + String.length (metaVariable (opt_base o))));
    [reflexivity|lia].
Qed.

Lemma print_option_faults (o : SmartOptionsOptionArg) (g : PrintFault) :
  print_option o = inl g -> g = BufferOverrun.
Proof.
  unfold print_option, sprintf_leftContent.
  destruct (_ <=? _)%nat; [|discriminate]. congruence.
Qed.

Lemma print_flag_fits (f : SmartOptionsFlagArg) :
  print_flag f
    = inr (help_line (c_str (flag_leftContent f))
             (helpString (flag_base f))).
Proof. reflexivity. Qed.

Lemma print_flags_total (fs : list SmartOptionsFlagArg) :
  exists lines, print_each print_flag fs = inr lines.
Proof.
  apply print_each_total. apply Forall_forall. intros f _.
  eexists. apply print_flag_fits.
Qed.

(** X18. With a usage string set, [PrintHelp] completes exactly when the
    meta variable of every option has at most 55 characters; one with 56
    or more overruns the 64 bytes of [leftContent]. *)
Theorem PrintHelp_fits_leftContent (this : SmartOptions) (u : string) :
  usage this = Some u ->
  (Forall (fun o => (String.length (metaVariable (opt_base o)) <= 55)%nat)
     (options this) ->
   exists lines, PrintHelp this = inr lines) /\
  (Exists (fun o => (56 <= String.length (metaVariable (opt_base o)))%nat)
     (options this) ->
   PrintHelp this = inl BufferOverrun).
Proof.
  intros U. unfold PrintHelp. rewrite U. split.
  - intros All.
    destruct (print_each_total print_option (options this)) as [ols ->].
    { eapply Forall_impl; [exact All|]. intros o H.
      eexists. apply print_option_fits. exact H. }
    destruct (print_flags_total (flags this)) as [fls ->].
    eexists. reflexivity.
  - intros Ex.
    rewrite (print_each_fault print_option (options this) BufferOverrun).
    + reflexivity.
    + apply Forall_forall. intros o _. apply print_option_faults.
    + eapply Exists_impl; [exact Ex|]. intros o H.
      apply print_option_overrun. exact H.
Qed.

Lemma PrintHelp_fits_leftContent_witness :
  (Forall (fun o => (String.length (metaVariable (opt_base o)) <= 55)%nat)
     (options (fst described_rules)) ->
   exists lines, PrintHelp (fst described_rules) = inr lines) /\
  (Exists (fun o => (56 <= String.length (metaVariable (opt_base o)))%nat)
     (options (fst described_rules)) ->
   PrintHelp (fst described_rules) = inl BufferOverrun).
Proof.
  apply (PrintHelp_fits_leftContent (fst described_rules)
           "[OPTION]... FILE").
  reflexivity.
Defined.

Lemma length_c_str (s : string) :
  (String.length (c_str s) <= String.length s)%nat.
Proof.
  induction s as [|c s IH]; simpl; [lia|].
  destruct (Ascii.eqb c NULL_TERMINATE); simpl; lia.
Qed.

Lemma c_str_append_cstring (a b : string) :
  is_cstring a = true -> c_str (a +:+ b) = a +:+ c_str b.
Proof.
  induction a as [|c a IH]; unfold_append; simpl; [reflexivity|]. intros H.
  apply andb_true_iff in H. destruct H as [Hc Ha].
  apply negb_true_iff in Hc. rewrite Hc, (IH Ha). reflexivity.
Qed.

Lemma length_spaces (n : nat) : String.length (spaces n) = n.
Proof. induction n as [|n IH]; simpl; [|rewrite IH]; reflexivity. Qed.

Lemma length_pad_right (width : nat) (s : string) :
  String.length (pad_right width s) = Nat.max width (String.length s).
Proof.
  unfold pad_right. rewrite length_append, length_spaces. lia.
Qed.

(** A line whose left content fits the field: a column of 32 characters,
    a space, the help string and a space. *)
Lemma help_line_shape (leftContent help : string) :
  (String.length leftContent <= 32)%nat ->
  exists column,
    String.length column = 32%nat
    /\ help_line leftContent help = column +:+ " " +:+ help +:+ " ".
Proof.
  intros H. exists (pad_right 32 leftContent).
  split; [rewrite length_pad_right; lia|reflexivity].
Qed.

Lemma PrintHelp_lines (this : SmartOptions) (lines : list string) :
  PrintHelp this = inr lines ->
  exists u optionLines flagLines,
    usage this = Some u /\
    lines = (appName this +:+ " " +:+ u +:+ " ")
              :: optionLines ++ flagLines /\
    Forall2 (fun o line => print_option o = inr line)
      (options this) optionLines /\
    Forall2 (fun f line => print_flag f = inr line)
      (flags this) flagLines.
Proof.
  unfold PrintHelp. intros H.
  destruct (usage this) as [u|]; [|discriminate].
  destruct (print_each print_option (options this)) as [?|ols] eqn:Po;
    [discriminate|].
  destruct (print_each print_flag (flags this)) as [?|fls] eqn:Pf;
    [discriminate|].
  injection H as <-. exists u, ols, fls.
  repeat split; [apply print_each_inr; exact Po|apply print_each_inr; exact Pf].
Qed.

Lemma print_option_inr (o : SmartOptionsOptionArg) (line : string) :
  print_option o = inr line ->
  (String.length (metaVariable (opt_base o)) <= 55)%nat /\
  line = help_line (c_str (option_leftContent o)) (helpString (opt_base o)).
Proof.
  intros P.
  destruct (Nat.le_gt_cases
              (String.length (metaVariable (opt_base o))) 55) as [L|G].
  - split; [exact L|]. rewrite (print_option_fits o L) in P. congruence.
  - rewrite (print_option_overrun o) in P by lia. discriminate.
Qed.

(** X19. The text that [PrintHelp] completes has one line for the usage,
    the program name, a space, the usage string and a space, then one line
    for each option and then one for each flag, in the order of their
    registration. The line of a flag, and of an option whose meta variable
    has at most 24 characters, is a left column of exactly 32 characters,
    a space, the help string of the rule and one more space, and nothing
    after it: the help string starts at the 34th column. *)
Theorem PrintHelp_layout (this : SmartOptions) (lines : list string) :
  PrintHelp this = inr lines ->
  length lines = (1 + length (options this) + length (flags this))%nat /\
  (exists u,
     usage this = Some u /\
     lines !! 0%nat = Some (appName this +:+ " " +:+ u +:+ " ")) /\
  (forall i o,
     options this !! i = Some o ->
     (String.length (metaVariable (opt_base o)) <= 24)%nat ->
     exists column,
       String.length column = 32%nat /\
       lines !! (1 + i)%nat
         = Some (column +:+ " " +:+ helpString (opt_base o) +:+ " ")) /\
  (forall i f,
     flags this !! i = Some f ->
     exists column,
       String.length column = 32%nat /\
       lines !! (1 + length (options this) + i)%nat
         = Some (column +:+ " " +:+ helpString (flag_base f) +:+ " ")).
Proof.
  intros H.
  destruct (PrintHelp_lines this lines H) as (u & ols & fls & U & -> & Fo & Ff).
  pose proof (Forall2_length _ _ _ Fo) as Lo.
  pose proof (Forall2_length _ _ _ Ff) as Lf.
  split; [|split; [|split]].
  - simpl. rewrite length_app. lia.
  - exists u. split; [exact U|reflexivity].
  - intros i o Io Hm.
    destruct (Forall2_lookup_l _ _ _ _ _ Fo Io) as (line & Il & P).
    apply print_option_inr in P. destruct P as [_ ->].
    destruct (help_line_shape (c_str (option_leftContent o))
                (helpString (opt_base o))) as (column & Lc & E).
    { pose proof (length_c_str (option_leftContent o)) as C.
      rewrite length_option_leftContent in C. lia. }
    exists column. split; [exact Lc|].
    rewrite <- E. simpl. apply lookup_app_l_Some. exact Il.
  - intros i f If.
    destruct (Forall2_lookup_l _ _ _ _ _ Ff If) as (line & Il & P).
    assert (line = help_line (c_str (flag_leftContent f))
                     (helpString (flag_base f))) as ->.
    { rewrite print_flag_fits in P. congruence. }
    destruct (help_line_shape (c_str (flag_leftContent f))
                (helpString (flag_base f))) as (column & Lc & E).
    { pose proof (length_c_str (flag_leftContent f)) as C.
      change (String.length (flag_leftContent f)) with 4%nat in C. lia. }
    exists column. split; [exact Lc|].
    rewrite <- E. simpl. rewrite Lo, lookup_app_r by lia.
    replace (length ols + i - length ols)%nat with i by lia. exact Il.
Qed.

Lemma PrintHelp_layout_witness :
  length ["App [OPTION]... FILE ";
          "  -o <OUT>                       where to write ";
          "  -                              how much ";
          "  -v                             say more "]
    = (1 + length (options (fst described_rules))
       + length (flags (fst described_rules)))%nat
  /\ (exists column,
        String.length column = 32%nat /\
        ["App [OPTION]... FILE ";
         "  -o <OUT>                       where to write ";
         "  -                              how much ";
         "  -v                             say more "] !! 1%nat
          = Some (column +:+ " " +:+ "where to write" +:+ " "))
  /\ (exists column,
        String.length column = 32%nat /\
        ["App [OPTION]... FILE ";
         "  -o <OUT>                       where to write ";
         "  -                              how much ";
         "  -v                             say more "] !! 3%nat
          = Some (column +:+ " " +:+ "say more" +:+ " ")).
Proof.
  destruct (PrintHelp_layout (fst described_rules)
              ["App [OPTION]... FILE ";
               "  -o <OUT>                       where to write ";
               "  -                              how much ";
               "  -v                             say more "]
              eq_refl) as (Hl & _ & Ho & Hf).
  split; [exact Hl|]. split.
  - exact (Ho 0%nat
             (mkOptionArg
                (mkArg "o" (Some "output") "OUT" "where to write") 2)
             eq_refl ltac:(simpl; lia)).
  - exact (Hf 0%nat
             (mkFlagArg
                (mkArg "v" (Some "verbose") EmptyString "say more") 1)
             eq_refl).
Defined.

(** X20. The left column of the help text. An option whose identifier is
    not the terminator is shown as two spaces, the marker, the identifier
    and the meta variable in angle brackets; a flag as two spaces, the
    marker and the identifier. A rule whose identifier is the terminator is
    cut right after the marker: the meta variable of such an option is not
    shown. *)
Theorem help_text_left_column (this : SmartOptions) (lines : list string) :
  PrintHelp this = inr lines ->
  (forall i o,
     options this !! i = Some o ->
     is_cstring (metaVariable (opt_base o)) = true ->
     lines !! (1 + i)%nat
       = Some (help_line
                 (if Ascii.eqb (prefixShort (opt_base o)) NULL_TERMINATE
                  then "  -"
                  else "  -" +:+ String (prefixShort (opt_base o))
                         (" <" +:+ metaVariable (opt_base o) +:+ "> "))
                 (helpString (opt_base o)))) /\
  (forall i f,
     flags this !! i = Some f ->
     lines !! (1 + length (options this) + i)%nat
       = Some (help_line
                 (if Ascii.eqb (prefixShort (flag_base f)) NULL_TERMINATE
                  then "  -"
                  else "  -" +:+ String (prefixShort (flag_base f))
                         EmptyString)
                 (helpString (flag_base f)))).
Proof.
  intros H.
  destruct (PrintHelp_lines this lines H) as (u & ols & fls & U & -> & Fo & Ff).
  pose proof (Forall2_length _ _ _ Fo) as Lo.
  split.
  - intros i o Io Z.
    destruct (Forall2_lookup_l _ _ _ _ _ Fo Io) as (line & Il & P).
    simpl. rewrite (lookup_app_l_Some _ _ _ _ Il). f_equal.
    apply print_option_inr in P. destruct P as [_ ->]. f_equal.
    unfold option_leftContent. unfold_append. simpl.
    destruct (Ascii.eqb (prefixShort (opt_base o)) NULL_TERMINATE);
      [reflexivity|].
    rewrite (c_str_append_cstring _ _ Z). reflexivity.
  - intros i f If.
    destruct (Forall2_lookup_l _ _ _ _ _ Ff If) as (line & Il & P).
    simpl. rewrite Lo, lookup_app_r by lia.
    replace (length ols + i - length ols)%nat with i by lia.
    rewrite Il. f_equal.
    rewrite print_flag_fits in P. injection P as <-. f_equal.
    unfold flag_leftContent. unfold_append. simpl.
    destruct (Ascii.eqb (prefixShort (flag_base f)) NULL_TERMINATE);
      reflexivity.
Qed.

Lemma help_text_left_column_witness :
  ["App [OPTION]... FILE ";
   "  -o <OUT>                       where to write ";
   "  -                              how much ";
   "  -v                             say more "] !! 2%nat
    = Some (help_line "  -" "how much").
Proof.
  exact (proj1 (help_text_left_column (fst described_rules)
                  ["App [OPTION]... FILE ";
                   "  -o <OUT>                       where to write ";
                   "  -                              how much ";
                   "  -v                             say more "]
                  eq_refl)
           1%nat
           (mkOptionArg
              (mkArg NULL_TERMINATE (Some "level") "LEVEL" "how much") 4)
           eq_refl eq_refl).
Defined.

Lemma fold_call_printed (calls : list Setup) :
  forall sm sm' : SmartOptions * Memory,
    appName (fst sm) = appName (fst sm') ->
    usage (fst sm) = usage (fst sm') ->
    options (fst sm) = options (fst sm') ->
    flags (fst sm) = flags (fst sm') ->
    PrintHelp (fst (fold_left call calls sm))
      = PrintHelp (fst (fold_left call (List.filter printed_call calls) sm')).
Proof.
  induction calls as [|s calls IH]; intros sm sm' Ea Eu Eo Ef.
  - simpl. unfold PrintHelp. rewrite Ea, Eu, Eo, Ef. reflexivity.
  - destruct s; simpl; apply IH; simpl; congruence.
Qed.

(** X21. The help text shows neither the description nor the positional
    arguments: a program set up with the calls of [AddDescription] and
    [AddPositionalArgument] left out prints the same. *)
Theorem help_text_omits_description_and_positionals
    (programName : string) (auto : bool) (m : Memory)
    (calls : list Setup) :
  PrintHelp (fst (setup programName auto m calls))
    = PrintHelp
        (fst (setup programName auto m (List.filter printed_call calls))).
Proof.
  unfold setup. apply fold_call_printed; reflexivity.
Qed.

Lemma failed_parse_output (this : SmartOptions) (m : Memory)
    (argc : nat) (argv : list string) (r : Result) :
  autoPrintHelp this = true ->
  ProcessCommandArgs this m argc argv = inr r ->
  status r <> SMARTOPTIONS_SUCCESS ->
  exists line, output r = [Line line; Help].
Proof.
  intros A H.
  destruct (ProcessCommandArgs_cases _ _ _ _ _ H) as (st & R & C).
  destruct (reaches_keeps _ _ _ _ R) as [Ho He]. simpl in Ho, He.
  destruct C as [(msg & _ & _ & V)|[(body & _ & _ & _ & _ & ->)
                                   |(body & o & _ & _ & _ & _ & _ & _ & ->)]].
  - destruct (validate_out _ _ _ _ V Ho)
      as [[S E]|[S [[A' _]|[_ E]]]].
    + congruence.
    + simpl in A'. congruence.
    + auto.
  - cbn [output status]. rewrite report_invalid_out by exact Ho.
    simpl autoPrintHelp. rewrite A. eauto.
  - cbn [output status]. rewrite report_invalid_out by exact Ho.
    simpl autoPrintHelp. rewrite A. eauto.
Qed.

(** X22. With the automatic help on, a parse that fails prints its
    diagnostic followed by the whole help text, when [PrintHelp]
    completes. *)
Theorem failed_parse_prints_help (this : SmartOptions) (m : Memory)
    (argc : nat) (argv : list string) (r : Result) (help : list string) :
  autoPrintHelp this = true ->
  PrintHelp this = inr help ->
  ProcessCommandArgs this m argc argv = inr r ->
  status r <> SMARTOPTIONS_SUCCESS ->
  exists line, printed this (output r) = inr (line :: help).
Proof.
  intros A P H S.
  destruct (failed_parse_output this m argc argv r A H S) as [line ->].
  exists line. simpl. rewrite P, app_nil_r. reflexivity.
Qed.

Lemma failed_parse_prints_help_witness :
  exists line,
    printed (fst described_rules)
      (output
         (mkResult SMARTOPTIONS_INVALID_ARGUMENT
            (snd described_rules)
            [Line "App: Error, invalid argument '-z'."; Help]))
      = inr (line :: ["App [OPTION]... FILE ";
                      "  -o <OUT>                       where to write ";
                      "  -                              how much ";
                      "  -v                             say more "]).
Proof.
  apply (failed_parse_prints_help (fst described_rules)
           (snd described_rules) 2 ["App"; "-z"]
           (mkResult SMARTOPTIONS_INVALID_ARGUMENT
              (snd described_rules)
              [Line "App: Error, invalid argument '-z'."; Help])).
  - reflexivity.
  - reflexivity.
  - reflexivity.
  - discriminate.
Defined.

Lemma fold_call_usage (calls : list Setup) :
  forall sm : SmartOptions * Memory,
    forallb not_AddUsage calls = true ->
    usage (fst (fold_left call calls sm)) = usage (fst sm).
Proof.
  induction calls as [|s calls IH]; intros sm H; [reflexivity|].
  simpl in H. apply andb_true_iff in H. destruct H as [Hs Hc].
  simpl. rewrite (IH _ Hc). destruct s; try reflexivity. discriminate.
Qed.

(** X23. Only [AddUsage] sets the usage string. In a program set up
    without it and with the automatic help on, every parse that fails
    hands the null pointer of the constructor to the [%s] of
    [PrintHelp]. *)
Theorem auto_help_without_usage (programName : string) (m0 m : Memory)
    (calls : list Setup) (argc : nat) (argv : list string) (r : Result) :
  forallb not_AddUsage calls = true ->
  ProcessCommandArgs (fst (setup programName true m0 calls)) m argc argv
    = inr r ->
  status r <> SMARTOPTIONS_SUCCESS ->
  printed (fst (setup programName true m0 calls)) (output r)
    = inl NullString.
Proof.
  intros U H S.
  assert (autoPrintHelp (fst (setup programName true m0 calls)) = true) as A.
  { unfold setup. destruct (fold_call_rules calls
      (SmartOptions_new programName true, m0)) as (_ & _ & _ & _ & ->).
    reflexivity. }
  destruct (failed_parse_output _ m argc argv r A H S) as [line ->].
  simpl. unfold PrintHelp, setup. rewrite (fold_call_usage calls _ U).
  reflexivity.
Qed.

Lemma auto_help_without_usage_witness :
  printed (fst no_usage)
    (output
       (mkResult SMARTOPTIONS_INVALID_ARGUMENT (snd no_usage)
          [Line "App: Error, invalid argument '-z'."; Help]))
    = inl NullString.
Proof.
  apply (auto_help_without_usage "App" no_memory (snd no_usage)
           [CallAddDescription "An application";
            CallAddFlag "v" (Some "verbose") "say more" 1;
            CallAddOption "o" (Some "output") "OUT" "where to write" 2]
           2 ["App"; "-z"]
           (mkResult SMARTOPTIONS_INVALID_ARGUMENT (snd no_usage)
              [Line "App: Error, invalid argument '-z'."; Help])).
  - reflexivity.
  - reflexivity.
  - discriminate.
Defined.

(** ** What the parse reads of the rules *)

Lemma flags_loop_view (fs fs' : list SmartOptionsFlagArg) (token : string)
    (m : Memory) :
  map flag_view fs = map flag_view fs' ->
  flags_loop fs token m = flags_loop fs' token m.
Proof.
  revert fs'. induction fs as [|f fs IH]; intros [|f' fs'] H;
    try discriminate; [reflexivity|].
  simpl in H. injection H as Hp Hd Hr. simpl.
  rewrite Hp, Hd, (IH fs' Hr). reflexivity.
Qed.

Lemma options_loop_view (this this' : SmartOptions) (argc : nat)
    (os os' : list SmartOptionsOptionArg) (token : string) :
  argV this = argV this' ->
  map option_view os = map option_view os' ->
  forall st,
    options_loop this argc os token st = options_loop this' argc os' token st.
Proof.
  intros Ev. revert os'. induction os as [|o os IH]; intros [|o' os'] H st;
    try discriminate; [reflexivity|].
  simpl in H. injection H as Hp Hd Hr. simpl.
  rewrite Hp, Hd. unfold argV_at. rewrite Ev.
  destruct (Ascii.eqb _ _); [|apply IH; exact Hr].
  destruct (cstr_at token 1) as [e|c1]; [reflexivity|]. simpl.
  destruct (negb _); [reflexivity|].
  destruct (_ <=? _)%nat; [apply IH; exact Hr|reflexivity].
Qed.

Lemma positional_view_lookup (ps ps' : list SmartOptionsPositionalArg)
    (i : nat) :
  map positional_view ps = map positional_view ps' ->
  option_map pos_destVariable (ps !! i)
    = option_map pos_destVariable (ps' !! i).
Proof.
  revert ps' i. induction ps as [|p ps IH]; intros [|p' ps'] i H;
    try discriminate; [reflexivity|].
  simpl in H. injection H as _ Hd Hr.
  destruct i as [|i]; simpl; [rewrite Hd; reflexivity|].
  apply IH. exact Hr.
Qed.

Lemma positional_view_length (ps ps' : list SmartOptionsPositionalArg) :
  map positional_view ps = map positional_view ps' ->
  length ps = length ps'.
Proof.
  intros H. rewrite <- (length_map positional_view ps), H.
  apply length_map.
Qed.

Lemma append_metas_view (ps ps' : list SmartOptionsPositionalArg) :
  map positional_view ps = map positional_view ps' ->
  forall msg, append_metas ps msg = append_metas ps' msg.
Proof.
  revert ps'. induction ps as [|p ps IH]; intros [|p' ps'] H msg;
    try discriminate; [reflexivity|].
  simpl in H. injection H as Hm _ Hr. simpl.
  rewrite Hm. apply IH. exact Hr.
Qed.

Section View.

Variables this this' : SmartOptions.
Hypothesis same_argV : argV this = argV this'.
Hypothesis same_view : parse_view this = parse_view this'.

Lemma view_fields :
  appName this = appName this' /\
  autoPrintHelp this = autoPrintHelp this' /\
  map flag_view (flags this) = map flag_view (flags this') /\
  map option_view (options this) = map option_view (options this') /\
  map positional_view (posArgs this) = map positional_view (posArgs this').
Proof.
  unfold parse_view in same_view. injection same_view. auto.
Qed.

Lemma positional_same_view (token : string) (st : Locals) :
  positional this token st = positional this' token st.
Proof.
  destruct view_fields as (Ea & _ & _ & _ & Ep).
  unfold positional.
  rewrite (positional_view_length _ _ Ep), Ea.
  pose proof (positional_view_lookup _ _ (posArgsIt st) Ep) as L.
  destruct (posArgs this !! posArgsIt st) as [p|];
    destruct (posArgs this' !! posArgsIt st) as [p'|];
    try discriminate; [|reflexivity].
  simpl in L. injection L as ->. reflexivity.
Qed.

Lemma report_invalid_same_view (token : string) (st : Locals) :
  report_invalid this token st = report_invalid this' token st.
Proof.
  destruct view_fields as (Ea & Eh & _).
  unfold report_invalid, AutoPrintHelp. rewrite Ea, Eh. reflexivity.
Qed.

Lemma flag_or_option_same_view (argc : nat) (token : string) (st : Locals) :
  flag_or_option this argc token st = flag_or_option this' argc token st.
Proof.
  destruct view_fields as (_ & _ & Ef & Eo & _).
  unfold flag_or_option.
  rewrite (flags_loop_view _ _ token (mem st) Ef).
  destruct (flags_loop (flags this') token (mem st)) as [b m1].
  rewrite (options_loop_view this this' argc _ _ token same_argV Eo).
  destruct b; [reflexivity|].
  destruct (options_loop this' argc (options this') token (set_mem m1 st))
    as [e|[b st2]]; [reflexivity|]. simpl.
  destruct b; [reflexivity|].
  rewrite report_invalid_same_view. reflexivity.
Qed.

Lemma loop_body_same_view (argc : nat) (st : Locals) :
  loop_body this argc st = loop_body this' argc st.
Proof.
  unfold loop_body, argV_at. rewrite same_argV.
  destruct (argV this' !! index st) as [token|]; [|reflexivity]. simpl.
  rewrite flag_or_option_same_view, positional_same_view. reflexivity.
Qed.

Lemma for_loop_same_view (fuel argc : nat) (st : Locals) :
  for_loop fuel this argc st = for_loop fuel this' argc st.
Proof.
  revert st. induction fuel as [|fuel IH]; intros st; simpl;
    [reflexivity|].
  destruct (_ <? _)%nat; [|reflexivity].
  rewrite loop_body_same_view.
  destruct (loop_body this' argc st) as [e|[st'|s st']];
    [reflexivity|apply IH|reflexivity].
Qed.

Lemma validate_same_view (st : Locals) (msg : string) :
  validate this st msg = validate this' st msg.
Proof.
  destruct view_fields as (Ea & Eh & _ & _ & Ep).
  unfold validate, AutoPrintHelp.
  rewrite (positional_view_length _ _ Ep), Ea, Eh,
    (append_metas_view _ _ Ep).
  destruct (posArgs this) as [|p ps]; destruct (posArgs this') as [|p' ps'];
    try discriminate; [reflexivity|].
  simpl in Ep. injection Ep as -> _ _. reflexivity.
Qed.

End View.

Lemma printed_same_help (this this' : SmartOptions) (o : list Output) :
  PrintHelp this = PrintHelp this' ->
  printed this o = printed this' o.
Proof.
  intros P. induction o as [|[line|] o IH]; simpl;
    [reflexivity|rewrite IH; reflexivity|rewrite P, IH; reflexivity].
Qed.

(** X24. Of a program, the parse itself reads only its name, the automatic
    help switch, the short identifier and the destination of each flag and
    option, and the meta variable and the destination of each positional
    argument: two programs that agree on these return the same status,
    leave the same store and write the same diagnostic line, followed at
    the same point by the call of [PrintHelp], on every command line. No
    token is matched against a long prefix. Help strings, the meta
    variables of options and the usage reach the output through the text
    of [PrintHelp] only: when that text is the same for the two programs
    as well, all that they print is the same. *)
Theorem parse_reads_view (this this' : SmartOptions) (m : Memory)
    (argc : nat) (argv : list string) :
  parse_view this = parse_view this' ->
  ProcessCommandArgs this m argc argv = ProcessCommandArgs this' m argc argv
  /\ (PrintHelp this = PrintHelp this' ->
      forall r,
        ProcessCommandArgs this m argc argv = inr r ->
        ProcessCommandArgs this' m argc argv = inr r
        /\ printed this (output r) = printed this' (output r)).
Proof.
  intros V.
  assert (ProcessCommandArgs this m argc argv
          = ProcessCommandArgs this' m argc argv) as E.
  { unfold ProcessCommandArgs.
    assert (parse_view (useCommandArgs this argc argv)
            = parse_view (useCommandArgs this' argc argv)) as V' by exact V.
    rewrite (for_loop_same_view (useCommandArgs this argc argv)
               (useCommandArgs this' argc argv) eq_refl V').
    destruct (for_loop argc (useCommandArgs this' argc argv) argc
                (init_locals m)) as [e|[st|s st]];
      [reflexivity| |reflexivity].
    simpl. destruct (close_surplus_message (strPosArgErrMsg st)) as [e|msg];
      [reflexivity|]. simpl.
    apply (validate_same_view (useCommandArgs this argc argv)
             (useCommandArgs this' argc argv) V'). }
  split; [exact E|]. intros P r H.
  split; [rewrite <- E; exact H|]. apply printed_same_help. exact P.
Qed.

Lemma parse_reads_view_witness :
  ProcessCommandArgs (fst described_rules) no_memory 4
      ["App"; "-v"; "-oout.txt"; "in.txt"]
    = ProcessCommandArgs (fst undescribed_rules) no_memory 4
        ["App"; "-v"; "-oout.txt"; "in.txt"]
  /\ ProcessCommandArgs (fst relabelled_rules) no_memory 2 ["App"; "-z"]
     = inr (mkResult SMARTOPTIONS_INVALID_ARGUMENT no_memory
              [Line "App: Error, invalid argument '-z'."; Help])
  /\ printed (fst described_rules)
       [Line "App: Error, invalid argument '-z'."; Help]
     = printed (fst relabelled_rules)
         [Line "App: Error, invalid argument '-z'."; Help].
Proof.
  split.
  - apply (parse_reads_view (fst described_rules) (fst undescribed_rules)).
    reflexivity.
  - apply (proj2 (parse_reads_view (fst described_rules)
                    (fst relabelled_rules) no_memory 2 ["App"; "-z"]
                    eq_refl)
             eq_refl
             (mkResult SMARTOPTIONS_INVALID_ARGUMENT no_memory
                [Line "App: Error, invalid argument '-z'."; Help])
             eq_refl).
Defined.
